(** * CafeVibe: the order-fulfilment and mini-game machine

    A shallow embedding of the game logic of the main script (the
    globals [gameState], [physicsState], [miniGameState] and the
    functions that mutate them) together with the properties of the
    order machine, the two mini-games and the shop.

    Conventions of the embedding.
    - JavaScript numbers are modelled as exact rationals ([Q]); quality
      scores, which only ever hold small integers, as [Z].  Arithmetic
      is exact, except where [startMiniGame] places the target window:
      whether the window can start at 50 is decided by the rounding of
      its two operations, which are therefore rounded to double
      precision ([fl]).
    - Scene objects have identity.  A customer object is a reference
      ([nat]) into the store [objects], which holds what the code keeps
      in [customer.userData], its position and the target captured by
      its walking closure.  Orders point at customers by reference, so
      a state change made through [order.customer] is seen through
      every other alias.
    - The tables [MENU_ITEMS], [DRINK_RECIPES], [CUSTOMER_TYPES],
      [QUEUE_POSITIONS] and [CONFIG] live in a script that is not part
      of the sources at hand; they are taken as the parameter [cfg].
    - [Math.random] and [Date.now] are inputs of the operations that
      call them.
    - DOM, audio and rendering calls are left out: they never write to
      the three state globals. *)

From Stdlib Require Import ZArith QArith Qround Qminmax Qabs Qpower Lia Lqa.
From stdpp Require Import gmap strings list fin_maps.

(** ** Data model *)

(** An entry of [MENU_ITEMS]; the code reads [id], [name], [type]
    and [basePrice]. *)
Record MenuItem := {
  item_id : string;
  item_name : string;
  item_type : string;
  basePrice : Q
}.

(** What [grabCup] and [grabPastry] put in the player's hand:
    [userData.itemType] with, for a cup, the [contents] object. *)
Inductive HeldItem :=
| Cup (contents : gmap string bool) (quality : Z)
| Pastry (quality : Z).

Inductive CustomerState := Entering | Waiting | Leaving.

#[global] Instance CustomerState_eq_dec : EqDecision CustomerState.
Proof. solve_decision. Defined.

(** A customer scene object: [userData] (type, state, order), the
    part of [position] the code computes with, and [targetPos], the
    variable captured by the closure of [animateCustomerEnter]
    ([None] when [QUEUE_POSITIONS] had no entry to read).  An element
    of [order] is [None] where the generator read past the end of an
    array ([undefined]). *)
Record Customer := {
  customerType : string;
  state : CustomerState;
  order : list (option MenuItem);
  posX : Q;
  posZ : Q;
  targetPos : option (Q * Q)
}.

(** An element of [gameState.activeOrders]. *)
Record Order := {
  customer : nat;
  items : list MenuItem;
  startTime : Z
}.

Record GameState := {
  mode : option string;
  isPaused : bool;
  isPlaying : bool;
  money : Q;
  rating : Q;
  customersServed : Z;
  activeOrders : list Order;
  customers : list nat;
  menuPrices : gmap string Q;
  ownedUpgrades : option (list string)
}.

Record PhysicsState := {
  grabbedObject : option HeldItem;
  isGrabbing : bool
}.

Inductive MiniGameType := Timing | Tap.

(** [callback] is always a closure [() => addToCup(heldItem, c)];
    it is represented by the content type [c] it adds. *)
Record MiniGameState := {
  active : bool;
  mg_type : option MiniGameType;
  markerPos : Q;
  markerDirection : Q;
  targetStart : Q;
  targetEnd : Q;
  tapProgress : Q;
  tapRequired : Q;
  mg_quality : Z;
  callback : option string;
  mg_startTime : Z
}.

Record World := {
  gameState : GameState;
  physicsState : PhysicsState;
  miniGameState : MiniGameState;
  objects : gmap nat Customer;
  nextObject : nat
}.

(** The static tables of the absent configuration script. [uuid]
    gives the immutable [uuid] three.js assigns to each scene
    object. *)
Record Config := {
  MENU_ITEMS : list MenuItem;
  DRINK_RECIPES : gmap string (list (string * bool));
  CUSTOMER_TYPES : list string;
  QUEUE_POSITIONS : list (Q * Q);
  MAX_CUSTOMERS : nat;
  STARTING_MONEY : Q;
  uuid : nat -> N
}.

(** An entry of [UPGRADES]; [effect] is an optional closure over
    the globals. *)
Record Upgrade := {
  upgrade_id : string;
  upgrade_name : string;
  price : Q;
  effect : option (World -> World)
}.

(** What a call reports to the player ([showNotification]), or
    [Threw] for an uncaught [TypeError]. *)
Inductive Outcome :=
| Served
| NothingToServe
| StillWalking
| OrderPending
| NoOrder
| WrongItem
| Threw.

(** ** Record updates *)

Definition with_gameState (w : World) (g : GameState) : World :=
  {| gameState := g; physicsState := physicsState w;
     miniGameState := miniGameState w; objects := objects w;
     nextObject := nextObject w |}.

Definition with_physicsState (w : World) (p : PhysicsState) : World :=
  {| gameState := gameState w; physicsState := p;
     miniGameState := miniGameState w; objects := objects w;
     nextObject := nextObject w |}.

Definition with_miniGameState (w : World) (m : MiniGameState) : World :=
  {| gameState := gameState w; physicsState := physicsState w;
     miniGameState := m; objects := objects w;
     nextObject := nextObject w |}.

Definition with_objects (w : World) (o : gmap nat Customer) : World :=
  {| gameState := gameState w; physicsState := physicsState w;
     miniGameState := miniGameState w; objects := o;
     nextObject := nextObject w |}.

Definition with_activeOrders (g : GameState) (l : list Order) : GameState :=
  {| mode := mode g; isPaused := isPaused g; isPlaying := isPlaying g;
     money := money g; rating := rating g;
     customersServed := customersServed g; activeOrders := l;
     customers := customers g; menuPrices := menuPrices g;
     ownedUpgrades := ownedUpgrades g |}.

Definition with_customers (g : GameState) (l : list nat) : GameState :=
  {| mode := mode g; isPaused := isPaused g; isPlaying := isPlaying g;
     money := money g; rating := rating g;
     customersServed := customersServed g; activeOrders := activeOrders g;
     customers := l; menuPrices := menuPrices g;
     ownedUpgrades := ownedUpgrades g |}.

Definition with_state (c : Customer) (s : CustomerState) : Customer :=
  {| customerType := customerType c; state := s; order := order c;
     posX := posX c; posZ := posZ c; targetPos := targetPos c |}.

Definition with_position (c : Customer) (x z : Q) : Customer :=
  {| customerType := customerType c; state := state c; order := order c;
     posX := x; posZ := z; targetPos := targetPos c |}.

(** ** Array helpers *)

(** [Array.prototype.findIndex]; [None] stands for [-1]. *)
Fixpoint findIndex {A : Type} (p : A -> bool) (l : list A) : option nat :=
  match l with
  | [] => None
  | x :: rest => if p x then Some 0%nat else S <$> findIndex p rest
  end.

(** [Array.prototype.indexOf] on an array of references. *)
Definition indexOf (c : nat) (l : list nat) : option nat :=
  findIndex (Nat.eqb c) l.

(** [x < y] on numbers. *)
Definition Qlt_bool (x y : Q) : bool := negb (Qle_bool y x).

(** Truthiness of [contents[ingredient]]: a key that was never set
    reads [undefined]. *)
Definition flag (contents : gmap string bool) (ingredient : string) : bool :=
  match contents !! ingredient with
  | Some b => b
  | None => false
  end.

Local Open Scope Q_scope.

(** ** Double precision *)

(** The integer nearest to [q], the even one of the two when [q] lies
    half-way. *)
Definition roundEven (q : Q) : Z :=
  let f := Qfloor q in
  match Qcompare (q - inject_Z f) (1 # 2) with
  | Lt => f
  | Gt => (f + 1)%Z
  | Eq => if Z.even f then f else (f + 1)%Z
  end.

(** The exponent of a positive number: the largest [e] with
    [2 ^ e <= x], and -1022 for the numbers below [2 ^ -1022], which
    doubles hold with that fixed exponent. *)
Definition binade (x : Q) : Z :=
  let c := (Z.log2 (Qnum x) - Z.log2 (Zpos (Qden x)))%Z in
  Z.max (-1022) (if Qle_bool (2 ^ c) x then c else c - 1).

(** The double nearest to [x], ties going to the even mantissa: [x]
    rounded to a multiple of its unit in the last place, which is
    52 binary places below its exponent.  Overflow is left out: the
    numbers rounded here stay below 128. *)
Definition fl (x : Q) : Q :=
  let a := Qabs x in
  let ulp := 2 ^ (binade a - 52) in
  let r := inject_Z (roundEven (a / ulp)) * ulp in
  Qred (if Qle_bool 0 x then r else - r).

Section Model.

Variable cfg : Config.

(** ** Initialisation and game flow *)

Definition initialGameState : GameState :=
  {| mode := None; isPaused := false; isPlaying := false;
     money := 100; rating := 5; customersServed := 0;
     activeOrders := []; customers := []; menuPrices := ∅;
     ownedUpgrades := None |}.

Definition initialPhysicsState : PhysicsState :=
  {| grabbedObject := None; isGrabbing := false |}.

(** [startTime] is absent from the literal and first written by
    [startMiniGame]. *)
Definition initialMiniGameState : MiniGameState :=
  {| active := false; mg_type := None; markerPos := 0;
     markerDirection := 1; targetStart := 35; targetEnd := 65;
     tapProgress := 0; tapRequired := 12; mg_quality := 0;
     callback := None; mg_startTime := 0 |}.

Definition initMenuPrices (g : GameState) : GameState :=
  {| mode := mode g; isPaused := isPaused g; isPlaying := isPlaying g;
     money := money g; rating := rating g;
     customersServed := customersServed g; activeOrders := activeOrders g;
     customers := customers g;
     menuPrices :=
       foldl (fun prices item => <[item_id item := basePrice item]> prices)
             (menuPrices g) (MENU_ITEMS cfg);
     ownedUpgrades := ownedUpgrades g |}.

(** The globals once [init] has run. *)
Definition init : World :=
  {| gameState := initMenuPrices initialGameState;
     physicsState := initialPhysicsState;
     miniGameState := initialMiniGameState;
     objects := ∅; nextObject := 0%nat |}.

Definition startGame (w : World) (m : string) : World :=
  let g := gameState w in
  with_gameState w
    {| mode := Some m; isPaused := isPaused g; isPlaying := true;
       money := STARTING_MONEY cfg; rating := 5; customersServed := 0;
       activeOrders := []; customers := []; menuPrices := menuPrices g;
       ownedUpgrades := ownedUpgrades g |}.

Definition quitToMenu (w : World) : World :=
  let g := gameState w in
  with_gameState w
    {| mode := mode g; isPaused := false; isPlaying := false;
       money := money g; rating := rating g;
       customersServed := customersServed g;
       activeOrders := []; customers := []; menuPrices := menuPrices g;
       ownedUpgrades := ownedUpgrades g |}.

Definition with_isPaused (g : GameState) (b : bool) : GameState :=
  {| mode := mode g; isPaused := b; isPlaying := isPlaying g;
     money := money g; rating := rating g;
     customersServed := customersServed g; activeOrders := activeOrders g;
     customers := customers g; menuPrices := menuPrices g;
     ownedUpgrades := ownedUpgrades g |}.

Definition togglePause (w : World) : World :=
  with_gameState w
    (with_isPaused (gameState w) (negb (isPaused (gameState w)))).

Definition resumeGame (w : World) : World :=
  with_gameState w (with_isPaused (gameState w) false).

(** ** Item handling *)

Definition emptyContents : gmap string bool :=
  <["espresso" := false]> (<["milk" := false]> (<["vanilla" := false]>
    (<["caramel" := false]> (<["chocolate" := false]> ∅)))).

Definition grabCup (w : World) : World :=
  with_physicsState w
    {| grabbedObject := Some (Cup emptyContents 100); isGrabbing := true |}.

Definition grabPastry (w : World) : World :=
  with_physicsState w
    {| grabbedObject := Some (Pastry 100); isGrabbing := true |}.

Definition dropItem (w : World) : World :=
  match grabbedObject (physicsState w) with
  | None => w
  | Some _ =>
      with_physicsState w {| grabbedObject := None; isGrabbing := false |}
  end.

Definition trashItem (w : World) : World :=
  match grabbedObject (physicsState w) with
  | None => w
  | Some _ =>
      with_physicsState w {| grabbedObject := None; isGrabbing := false |}
  end.

(** [addToCup(cup, contentType)]: returns at once when the object has
    no [contents]; otherwise sets the flag.  The rest of the function
    recolours the liquid and shows [miniGameState.quality] in a popup;
    it writes nothing to [cup.userData]. *)
Definition addToCup (cup : HeldItem) (contentType : string) : HeldItem :=
  match cup with
  | Pastry q => Pastry q
  | Cup contents q => Cup (<[contentType := true]> contents) q
  end.

(** ** Serving customers *)

(** The inner loop over [Object.entries(recipe)]: the first required
    ingredient the cup lacks ends it with [matches = false]. *)
Fixpoint recipeMatches (contents : gmap string bool)
    (recipe : list (string * bool)) : bool :=
  match recipe with
  | [] => true
  | (ingredient, required) :: rest =>
      if required && negb (flag contents ingredient) then false
      else recipeMatches contents rest
  end.

(** The outer loop over [order.items]: the first drink whose recipe
    exists and matches ends it with [matchFound = true]. *)
Fixpoint drinkMatches (contents : gmap string bool)
    (l : list MenuItem) : bool :=
  match l with
  | [] => false
  | item :: rest =>
      if String.eqb (item_type item) "drink" then
        match DRINK_RECIPES cfg !! item_id item with
        | Some recipe =>
            if recipeMatches contents recipe then true
            else drinkMatches contents rest
        | None => drinkMatches contents rest
        end
      else drinkMatches contents rest
  end.

(** The value of [matchFound] once the held item has been compared
    with the order. *)
Definition matchFound (held : HeldItem) (o : Order) : bool :=
  match held with
  | Pastry _ =>
      existsb (fun item => String.eqb (item_type item) "pastry") (items o)
  | Cup contents _ => drinkMatches contents (items o)
  end.

(** [held.userData.quality || 100] *)
Definition heldQuality (held : HeldItem) : Z :=
  let q := match held with Cup _ q => q | Pastry q => q end in
  if (q =? 0)%Z then 100%Z else q.

(** The search for the customer's order: first by object identity,
    then, when that finds nothing, by [uuid]. *)
Definition findOrderIndex (w : World) (c : nat) : option nat :=
  let orders := activeOrders (gameState w) in
  match findIndex (fun o => Nat.eqb (customer o) c) orders with
  | Some i => Some i
  | None =>
      findIndex (fun o => N.eqb (uuid cfg (customer o)) (uuid cfg c)) orders
  end.

(** [gameState.menuPrices[item.id] || 4]: a price that is missing,
    or zero, is replaced by 4. *)
Definition itemPrice (g : GameState) (item : MenuItem) : Q :=
  match menuPrices g !! item_id item with
  | Some p => if Qeq_bool p 0 then 4 else p
  | None => 4
  end.

Definition orderPayment (g : GameState) (o : Order) : Q :=
  foldl (fun sum item => sum + itemPrice g item) 0 (items o).

Definition tipMultiplier (quality : Z) : Q :=
  if (80 <=? quality)%Z then 13 # 10
  else if (50 <=? quality)%Z then 11 # 10
  else 8 # 10.

Definition orderTip (payment : Q) (quality : Z) : Z :=
  Qfloor (payment * (2 # 10) * tipMultiplier quality).

Definition ratingChange (quality : Z) : Q :=
  if (80 <=? quality)%Z then 1 # 10
  else if (50 <=? quality)%Z then 0
  else - (1 # 10).

(** One run of the closure [animate] of [animateCustomerLeave]: the
    customer moves 0.1 towards the street and is taken out of
    [gameState.customers] once it has passed [z = 12]. *)
Definition leaveFrame (w : World) (c : nat) : World :=
  match objects w !! c with
  | None => w
  | Some u =>
      match state u with
      | Leaving =>
          let z := posZ u + (1 # 10) in
          let w1 := with_objects w (<[c := with_position u (posX u) z]> (objects w)) in
          if Qlt_bool z 12 then w1
          else
            match indexOf c (customers (gameState w1)) with
            | Some idx =>
                with_gameState w1
                  (with_customers (gameState w1)
                     (delete idx (customers (gameState w1))))
            | None => w1
            end
      | _ => w
      end
  end.

(** [animateCustomerLeave]: the state is set and the closure runs
    once before the function returns. *)
Definition animateCustomerLeave (w : World) (c : nat) : World :=
  leaveFrame
    (with_objects w (alter (fun u => with_state u Leaving) c (objects w))) c.

(** [completeOrder(orderIndex, quality)]; [None] when
    [activeOrders[orderIndex]] is [undefined] and reading
    [order.customer] throws. *)
Definition completeOrder (w : World) (orderIndex : nat) (quality : Z)
    : option World :=
  let g := gameState w in
  match activeOrders g !! orderIndex with
  | None => None
  | Some o =>
      let payment := orderPayment g o in
      let tip := orderTip payment quality in
      let total := payment + inject_Z tip in
      let g' :=
        {| mode := mode g; isPaused := isPaused g; isPlaying := isPlaying g;
           money := money g + total;
           rating := Qmax 1 (Qmin 5 (rating g + ratingChange quality));
           customersServed := (customersServed g + 1)%Z;
           activeOrders := delete orderIndex (activeOrders g);
           customers := customers g; menuPrices := menuPrices g;
           ownedUpgrades := ownedUpgrades g |} in
      Some (animateCustomerLeave (with_gameState w g') (customer o))
  end.

(** [customer.userData && customer.userData.state === 'entering'] *)
Definition stillEntering (w : World) (c : nat) : bool :=
  match objects w !! c with
  | Some u => match state u with Entering => true | _ => false end
  | None => false
  end.

(** [serveToCustomer(customerObj)].  [tryInteract] hands over the
    object that carries [userData.type], which for a customer is the
    root group added to the scene, so the ancestor walk at the top of
    the function stops at once and [customer] is [customerObj]. *)
Definition serveToCustomer (w : World) (customerObj : nat) : World * Outcome :=
  match grabbedObject (physicsState w) with
  | None => (w, NothingToServe)
  | Some held =>
      if stillEntering w customerObj then (w, StillWalking)
      else
        match findOrderIndex w customerObj with
        | None =>
            (w, match objects w !! customerObj with
                | Some _ => OrderPending
                | None => NoOrder
                end)
        | Some orderIndex =>
            match activeOrders (gameState w) !! orderIndex with
            | None => (w, Threw)
            | Some o =>
                if matchFound held o then
                  match completeOrder w orderIndex (heldQuality held) with
                  | Some w' =>
                      (with_physicsState w'
                         {| grabbedObject := None; isGrabbing := false |},
                       Served)
                  | None => (w, Threw)
                  end
                else (w, WrongItem)
            end
        end
  end.

(** ** Customers and orders *)

(** [arr[Math.floor(r * arr.length)]] for a draw [r] of
    [Math.random]; [None] is [undefined]. *)
Definition pick {A : Type} (r : Q) (arr : list A) : option A :=
  arr !! Z.to_nat (Qfloor (r * inject_Z (Z.of_nat (length arr)))).

(** [generateOrder()], with the three draws it may consume. *)
Definition generateOrder (rDrink rChance rPastry : Q)
    : list (option MenuItem) :=
  let drinks := filter (fun i => item_type i = "drink") (MENU_ITEMS cfg) in
  let l := [pick rDrink drinks] in
  if Qlt_bool rChance (3 # 10) then
    let pastries :=
      filter (fun i => item_type i = "pastry") (MENU_ITEMS cfg) in
    l ++ [pick rPastry pastries]
  else l.

(** The items of an order array when none of them is [undefined]. *)
Fixpoint definedItems (l : list (option MenuItem)) : option (list MenuItem) :=
  match l with
  | [] => Some []
  | None :: _ => None
  | Some i :: rest => cons i <$> definedItems rest
  end.

(** [addOrder(customer)], given the array [customer.userData.order]
    and the value of [Date.now()]. *)
Definition addOrder (w : World) (c : nat) (l : list MenuItem) (now : Z)
    : World :=
  let g := gameState w in
  with_gameState w
    (with_activeOrders g
       (activeOrders g ++ [{| customer := c; items := l; startTime := now |}])).

(** One run of the closure [animate] of [animateCustomerEnter].
    [Math.sqrt(dx*dx + dz*dz) > 0.1] is decided on the squares.  While
    the customer is far from its slot it moves 8% of the way; on
    arrival the state becomes ['waiting'], the order bubble is drawn
    and the order is added.  Drawing the bubble reads [item.icon] of
    every element of the order and throws on an [undefined] one, in
    which case [addOrder] is not reached.  A closure without target
    throws on its first read of [targetPos.x].  Positions are kept in
    lowest terms. *)
Definition enterFrame (w : World) (c : nat) (now : Z) : World :=
  match objects w !! c with
  | None => w
  | Some u =>
      match state u with
      | Entering =>
          match targetPos u with
          | None => w
          | Some (tx, tz) =>
              let dx := tx - posX u in
              let dz := tz - posZ u in
              if Qlt_bool (1 # 100) (dx * dx + dz * dz) then
                with_objects w
                  (<[c := with_position u
                            (Qred (posX u + dx * (8 # 100)))
                            (Qred (posZ u + dz * (8 # 100)))]> (objects w))
              else
                let w1 :=
                  with_objects w (<[c := with_state u Waiting]> (objects w)) in
                match definedItems (order u) with
                | Some l => addOrder w1 c l now
                | None => w1
                end
          end
      | _ => w
      end
  end.

(** [animateCustomerEnter(customer)]: the slot is read from
    [QUEUE_POSITIONS] at the customer's index in [gameState.customers]
    modulo the number of slots, and the closure runs once. *)
Definition animateCustomerEnter (w : World) (c : nat) (now : Z) : World :=
  let target :=
    match indexOf c (customers (gameState w)) with
    | Some queueIndex =>
        QUEUE_POSITIONS cfg
          !! (queueIndex mod length (QUEUE_POSITIONS cfg))%nat
    | None => None
    end in
  let w1 :=
    with_objects w
      (alter (fun u =>
                {| customerType := customerType u; state := state u;
                   order := order u; posX := posX u; posZ := posZ u;
                   targetPos := target |}) c (objects w)) in
  enterFrame w1 c now.

(** [spawnCustomer()], with the draws for the customer type and for
    the order.  With no customer type to pick, reading
    [typeData.color] throws before anything is written. *)
Definition spawnCustomer (w : World) (rType rDrink rChance rPastry : Q)
    (now : Z) : World :=
  let g := gameState w in
  if (MAX_CUSTOMERS cfg <=? length (customers g))%nat then w
  else
    match pick rType (CUSTOMER_TYPES cfg) with
    | None => w
    | Some ty =>
        let c := nextObject w in
        let u :=
          {| customerType := ty; state := Entering;
             order := generateOrder rDrink rChance rPastry;
             posX := 0; posZ := 9; targetPos := None |} in
        let w1 :=
          {| gameState := with_customers g (customers g ++ [c]);
             physicsState := physicsState w;
             miniGameState := miniGameState w;
             objects := <[c := u]> (objects w);
             nextObject := S c |} in
        animateCustomerEnter w1 c now
    end.

(** ** Mini-games *)

(** [endMiniGame()]: the callback adds its content to the cup it
    captured, which is the grabbed object (while a mini-game is active
    every key press is routed to it, so the hand cannot change), and
    the game is closed. *)
Definition endMiniGame (w : World) : World :=
  let m := miniGameState w in
  let p := physicsState w in
  let p' :=
    match callback m with
    | Some contentType =>
        {| grabbedObject :=
             (fun held => addToCup held contentType) <$> grabbedObject p;
           isGrabbing := isGrabbing p |}
    | None => p
    end in
  {| gameState := gameState w; physicsState := p';
     miniGameState :=
       {| active := false; mg_type := mg_type m; markerPos := markerPos m;
          markerDirection := markerDirection m;
          targetStart := targetStart m; targetEnd := targetEnd m;
          tapProgress := tapProgress m; tapRequired := tapRequired m;
          mg_quality := mg_quality m; callback := callback m;
          mg_startTime := mg_startTime m |};
     objects := objects w; nextObject := nextObject w |}.

(** [startMiniGame(type, callback)], with the draw [r] used for the
    target window and the value of [Date.now()].  The product, the
    sum [30 + Math.random() * 20] and the sum [targetStart + 20] are
    each rounded to a double. *)
Definition startMiniGame (w : World) (ty : MiniGameType)
    (contentType : string) (r : Q) (now : Z) : World :=
  let m := miniGameState w in
  let start :=
    match ty with
    | Timing => fl (30 + fl (r * 20))
    | Tap => targetStart m
    end in
  let stop :=
    match ty with Timing => fl (start + 20) | Tap => targetEnd m end in
  with_miniGameState w
    {| active := true; mg_type := Some ty; markerPos := 0;
       markerDirection := 1; targetStart := start; targetEnd := stop;
       tapProgress := 0; tapRequired := tapRequired m; mg_quality := 0;
       callback := Some contentType; mg_startTime := now |}.

(** The score of the timing game for the marker at [pos]. *)
Definition timingQuality (m : MiniGameState) : Z :=
  let pos := markerPos m in
  let inPerfect :=
    Qle_bool (targetStart m + 5) pos && Qle_bool pos (targetEnd m - 5) in
  let inGood := Qle_bool (targetStart m) pos && Qle_bool pos (targetEnd m) in
  if inPerfect then 100%Z
  else if inGood then 70%Z
  else if Qle_bool (targetStart m - 10) pos && Qle_bool pos (targetEnd m + 10)
  then 40%Z
  else 10%Z.

(** The score of the tap game from the milliseconds elapsed. *)
Definition tapQuality (elapsed : Z) : Z :=
  if (elapsed <? 2000)%Z then 100%Z
  else if (elapsed <? 3500)%Z then 70%Z
  else 40%Z.

Definition with_quality (m : MiniGameState) (q : Z) : MiniGameState :=
  {| active := active m; mg_type := mg_type m; markerPos := markerPos m;
     markerDirection := markerDirection m; targetStart := targetStart m;
     targetEnd := targetEnd m; tapProgress := tapProgress m;
     tapRequired := tapRequired m; mg_quality := q; callback := callback m;
     mg_startTime := mg_startTime m |}.

Definition with_tapProgress (m : MiniGameState) (t : Q) : MiniGameState :=
  {| active := active m; mg_type := mg_type m; markerPos := markerPos m;
     markerDirection := markerDirection m; targetStart := targetStart m;
     targetEnd := targetEnd m; tapProgress := t;
     tapRequired := tapRequired m; mg_quality := mg_quality m;
     callback := callback m; mg_startTime := mg_startTime m |}.

(** [handleMiniGameInput()], given the value of [Date.now()]. *)
Definition handleMiniGameInput (w : World) (now : Z) : World :=
  let m := miniGameState w in
  if negb (active m) then w
  else
    match mg_type m with
    | Some Timing =>
        endMiniGame (with_miniGameState w (with_quality m (timingQuality m)))
    | Some Tap =>
        let m1 := with_tapProgress m (tapProgress m + 1) in
        if Qle_bool (tapRequired m1) (tapProgress m1) then
          let elapsed := (now - mg_startTime m1)%Z in
          endMiniGame
            (with_miniGameState w (with_quality m1 (tapQuality elapsed)))
        else with_miniGameState w m1
    | None => w
    end.

(** [updateMiniGame()], called on every animation frame. *)
Definition updateMiniGame (w : World) : World :=
  let m := miniGameState w in
  if negb (active m) then w
  else
    match mg_type m with
    | Some Timing =>
        let pos := markerPos m + markerDirection m * (12 # 10) in
        let dir :=
          if Qle_bool 100 pos || Qle_bool pos 0
          then markerDirection m * (-1)
          else markerDirection m in
        with_miniGameState w
          {| active := active m; mg_type := mg_type m; markerPos := pos;
             markerDirection := dir; targetStart := targetStart m;
             targetEnd := targetEnd m; tapProgress := tapProgress m;
             tapRequired := tapRequired m; mg_quality := mg_quality m;
             callback := callback m; mg_startTime := mg_startTime m |}
    | Some Tap =>
        if Qlt_bool 0 (tapProgress m) then
          with_miniGameState w
            (with_tapProgress m (tapProgress m - (3 # 100)))
        else w
    | None => w
    end.

Definition cancelMiniGame (w : World) : World :=
  let m := miniGameState w in
  with_miniGameState w
    {| active := false; mg_type := mg_type m; markerPos := markerPos m;
       markerDirection := markerDirection m; targetStart := targetStart m;
       targetEnd := targetEnd m; tapProgress := tapProgress m;
       tapRequired := tapRequired m; mg_quality := 0;
       callback := callback m; mg_startTime := mg_startTime m |}.

(** ** The interaction key *)

(** The interactable under the crosshair, by its [userData.type]
    ([OtherTarget] for any type [tryInteract] has no case for). *)
Inductive Target :=
| Espresso
| Milk
| Syrup (syrupType : string)
| Trash
| CustomerObject (c : nat)
| CupDispenser
| PastryCase
| OtherTarget.

Definition isCup (held : HeldItem) : bool :=
  match held with Cup _ _ => true | Pastry _ => false end.

(** [tryInteract()], given the object the ray hits, and the draw and
    clock value a mini-game would consume on starting. *)
Definition tryInteract (w : World) (target : option Target) (r : Q) (now : Z)
    : World :=
  if active (miniGameState w) then handleMiniGameInput w now
  else if isGrabbing (physicsState w) then
    match target with
    | None => dropItem w
    | Some t =>
        match grabbedObject (physicsState w) with
        | None => w
        | Some heldItem =>
            match t with
            | Espresso =>
                if isCup heldItem
                then startMiniGame w Timing "espresso" r now else w
            | Milk =>
                if isCup heldItem
                then startMiniGame w Tap "milk" r now else w
            | Syrup syrupType =>
                if isCup heldItem then
                  with_physicsState w
                    {| grabbedObject := Some (addToCup heldItem syrupType);
                       isGrabbing := isGrabbing (physicsState w) |}
                else w
            | Trash => trashItem w
            | CustomerObject c => fst (serveToCustomer w c)
            | _ => dropItem w
            end
        end
    end
  else
    match target with
    | Some CupDispenser => grabCup w
    | Some PastryCase => grabPastry w
    | _ => w
    end.

(** ** Shop *)

Definition buyUpgrade (w : World) (upgrade : Upgrade) : World :=
  let g := gameState w in
  if Qlt_bool (money g) (price upgrade) then w
  else
    let owned :=
      match ownedUpgrades g with Some l => l | None => [] end in
    let w' :=
      with_gameState w
        {| mode := mode g; isPaused := isPaused g; isPlaying := isPlaying g;
           money := money g - price upgrade; rating := rating g;
           customersServed := customersServed g;
           activeOrders := activeOrders g; customers := customers g;
           menuPrices := menuPrices g;
           ownedUpgrades := Some (owned ++ [upgrade_id upgrade]) |} in
    match effect upgrade with
    | Some f => f w'
    | None => w'
    end.

(** ** The machine as a whole

    What can happen to the globals between two instants: a menu
    button, a timer that spawns a customer, an animation frame of a
    walking or leaving customer, a key press (E, or Escape with the
    shop dialog open or closed), a frame of the render loop.  The spawn loop only calls [spawnCustomer] under conditions
    that [spawnCustomer] itself re-checks or that narrow when it
    fires, so one event covers it and the one-shot timer of
    [startGame].  Purchases run a closure of the absent [UPGRADES]
    table and are treated on their own. *)
Inductive Event :=
| StartGame (m : string)
| QuitToMenu
| SpawnTimer (rType rDrink rChance rPastry : Q) (now : Z)
| EnterAnimation (c : nat) (now : Z)
| LeaveAnimation (c : nat)
| ResumeGame
| KeyE (target : option Target) (r : Q) (now : Z)
| KeyEscape (shopOpen : bool)
| Frame.

Definition step (w : World) (e : Event) : World :=
  match e with
  | StartGame m => startGame w m
  | QuitToMenu => quitToMenu w
  | ResumeGame => resumeGame w
  | SpawnTimer rType rDrink rChance rPastry now =>
      spawnCustomer w rType rDrink rChance rPastry now
  | EnterAnimation c now => enterFrame w c now
  | LeaveAnimation c => leaveFrame w c
  | KeyE target r now =>
      if isPlaying (gameState w) then tryInteract w target r now else w
  | KeyEscape shopOpen =>
      if isPlaying (gameState w) then
        if active (miniGameState w) then cancelMiniGame w
        else if shopOpen then w
        else togglePause w
      else w
  | Frame => updateMiniGame w
  end.

(** A value [Math.random] can return. *)
Definition isDraw (r : Q) : bool := Qle_bool 0 r && Qlt_bool r 1.

Definition event_ok (e : Event) : bool :=
  match e with
  | SpawnTimer rType rDrink rChance rPastry _ =>
      isDraw rType && isDraw rDrink && isDraw rChance && isDraw rPastry
  | KeyE _ r _ => isDraw r
  | _ => true
  end.

Definition run (w : World) (es : list Event) : World := foldl step w es.

Inductive reachable : World -> Prop :=
| reachable_init : reachable init
| reachable_step w e :
    reachable w -> event_ok e = true -> reachable (step w e).

(** ** State predicates *)

(** Every order of the list points at a customer object that is
    waiting, and no two orders point at the same customer. *)
Definition consistent (orders : list Order) (objs : gmap nat Customer)
    : Prop :=
  (forall o, o ∈ orders ->
     exists u, objs !! customer o = Some u /\ state u = Waiting) /\
  NoDup (customer <$> orders).

Definition orders_consistent (w : World) : Prop :=
  consistent (activeOrders (gameState w)) (objects w).

(** Scene objects are allocated at increasing references. *)
Definition allocated (w : World) : Prop :=
  forall c u, objects w !! c = Some u -> (c < nextObject w)%nat.

(** The quality recorded on the held item. *)
Definition recordedQuality (held : HeldItem) : Z :=
  match held with Cup _ q => q | Pastry q => q end.

(** The tap counter stays above -0.03 and the threshold is 12. *)
Definition tap_bounded (w : World) : Prop :=
  - (3 # 100) < tapProgress (miniGameState w) /\
  tapRequired (miniGameState w) = 12.

(** Whatever is in the hand carries quality 100. *)
Definition held_untouched (w : World) : Prop :=
  forall held, grabbedObject (physicsState w) = Some held ->
    recordedQuality held = 100%Z.

End Model.

(** ** Around the machine: the spawn loop, the prompt, the shop dialog *)

Section Interface.

Variable cfg : Config.

(** The body of the timer callback of [spawnCustomerLoop], with the
    draws and clock value [spawnCustomer] would consume. *)
Definition spawnCustomerLoop (w : World)
    (rType rDrink rChance rPastry : Q) (now : Z) : World :=
  let g := gameState w in
  if isPlaying g && negb (isPaused g) then
    if (length (customers g) <? MAX_CUSTOMERS cfg)%nat
    then spawnCustomer cfg w rType rDrink rChance rPastry now
    else w
  else w.

(** What [checkInteractionPrompt] writes after 'Press E to'. *)
Inductive Prompt :=
| PromptDrop
| PromptPourEspresso
| PromptFrothMilk
| PromptAddSyrup (syrupType : string)
| PromptTrashItem
| PromptServeCustomer
| PromptGetCup
| PromptGetPastry
| PromptUseMachine
| PromptServe
| PromptInteract.

(** [checkInteractionPrompt()], given the object the ray hits;
    [None] when the prompt is hidden. *)
Definition checkInteractionPrompt (w : World) (target : option Target)
    : option Prompt :=
  match target with
  | Some t =>
      if isGrabbing (physicsState w) then
        Some match t with
             | Espresso => PromptPourEspresso
             | Milk => PromptFrothMilk
             | Syrup syrupType => PromptAddSyrup syrupType
             | Trash => PromptTrashItem
             | CustomerObject _ => PromptServeCustomer
             | _ => PromptDrop
             end
      else
        Some match t with
             | CupDispenser => PromptGetCup
             | PastryCase => PromptGetPastry
             | Espresso => PromptUseMachine
             | CustomerObject _ => PromptServe
             | _ => PromptInteract
             end
  | None =>
      if isGrabbing (physicsState w) then Some PromptDrop else None
  end.

(** [gameState.ownedUpgrades && gameState.ownedUpgrades.includes(id)],
    the test [renderShop] makes for each upgrade. *)
Definition owned (w : World) (id : string) : bool :=
  match ownedUpgrades (gameState w) with
  | Some l => bool_decide (id ∈ l)
  | None => false
  end.

(** A click on an item of the shop grid: [renderShop], which runs
    when the dialog opens and after every purchase, gives an item the
    handler [() => buyUpgrade(upgrade)] only when the upgrade is not
    owned. *)
Definition shopItemClick (w : World) (upgrade : Upgrade) : World :=
  if owned w (upgrade_id upgrade) then w else buyUpgrade w upgrade.

(** The number of presses of the interaction key in a list of
    events. *)
Fixpoint keyPresses (es : list Event) : nat :=
  match es with
  | [] => 0
  | KeyE _ _ _ :: rest => S (keyPresses rest)
  | _ :: rest => keyPresses rest
  end.

(** ** Further state predicates *)

(** The order of the customer states along a customer's life. *)
Definition state_rank (s : CustomerState) : nat :=
  match s with Entering => 0 | Waiting => 1 | Leaving => 2 end.

(** [isGrabbing] tells whether something is held. *)
Definition hand_consistent (w : World) : Prop :=
  isGrabbing (physicsState w)
  = match grabbedObject (physicsState w) with
    | Some _ => true
    | None => false
    end.

(** While a mini-game is open the player holds a cup, and the
    callback is the one of the station that opened the game. *)
Definition game_holds_cup (w : World) : Prop :=
  active (miniGameState w) = true ->
  (exists contents q,
     grabbedObject (physicsState w) = Some (Cup contents q)) /\
  ((mg_type (miniGameState w) = Some Timing /\
    callback (miniGameState w) = Some "espresso") \/
   (mg_type (miniGameState w) = Some Tap /\
    callback (miniGameState w) = Some "milk")).

(** The marker moves right below 100 and left above 0, and is never
    more than one step beyond the bar. *)
Definition marker_bounded (w : World) : Prop :=
  let m := miniGameState w in
  (markerDirection m == 1 /\ - (12 # 10) < markerPos m /\ markerPos m < 100)
  \/
  (markerDirection m == - (1) /\ 0 < markerPos m /\
   markerPos m < 100 + (12 # 10)).

(** The queue holds distinct, allocated customers and respects the
    cap. *)
Definition queue_bounded (w : World) : Prop :=
  NoDup (customers (gameState w)) /\
  (length (customers (gameState w)) <= MAX_CUSTOMERS cfg)%nat /\
  forall c, c ∈ customers (gameState w) -> (c < nextObject w)%nat.

(** Every active order carries the items its customer was spawned
    with. *)
Definition orders_carry_content (w : World) : Prop :=
  forall o, o ∈ activeOrders (gameState w) ->
    exists u, objects w !! customer o = Some u /\
      definedItems (order u) = Some (items o).

(** Every queued customer that waits, and whose order has no
    undefined item, has its order among the active ones. *)
Definition waiting_have_orders (w : World) : Prop :=
  forall c u l,
    c ∈ customers (gameState w) -> objects w !! c = Some u ->
    state u = Waiting -> definedItems (order u) = Some l ->
    exists o, o ∈ activeOrders (gameState w) /\
      customer o = c /\ items o = l.

(** [u'] is a later stage of the customer [u]. *)
Definition later_stage (u u' : Customer) : Prop :=
  (state_rank (state u) <= state_rank (state u'))%nat /\
  order u' = order u /\ customerType u' = customerType u.

(** The state of an open tap game, as far as the next inputs
    depend on it. *)
Definition tapping (w w0 : World) : Prop :=
  active (miniGameState w) = true /\
  mg_type (miniGameState w) = Some Tap /\
  tapRequired (miniGameState w) = tapRequired (miniGameState w0) /\
  callback (miniGameState w) = callback (miniGameState w0) /\
  physicsState w = physicsState w0.

End Interface.

(** ** The asset loader

    [AssetManager] of the asset script.  A loaded model is
    represented by a handle; [completions] counts the calls made to
    the stored [onLoadComplete] callback, whose body belongs to the
    caller. *)

Record AssetManager := {
  loaderReady : bool;
  loadedModels : gmap string nat;
  modelPaths : list (string * option string);
  pendingLoads : Z;
  onLoadComplete : bool;
  completions : nat
}.

(** Truthiness of a path: [null] and the empty string are falsy. *)
Definition truthyPath (path : option string) : bool :=
  match path with
  | Some p => negb (String.eqb p "")
  | None => false
  end.

(** The synchronous part of [loadModel(name, path, onLoad)]: whether
    a request was handed to the loader.  Without loader or path the
    function only calls [onLoad(null)]. *)
Definition loadModel (am : AssetManager) (name : string)
    (path : option string) : AssetManager * bool :=
  if negb (loaderReady am) then (am, false)
  else if negb (truthyPath path) then (am, false)
  else
    ({| loaderReady := loaderReady am; loadedModels := loadedModels am;
        modelPaths := modelPaths am;
        pendingLoads := (pendingLoads am + 1)%Z;
        onLoadComplete := onLoadComplete am;
        completions := completions am |}, true).

(** The success callback of a request. *)
Definition loadSucceeded (am : AssetManager) (name : string) (gltf : nat)
    : AssetManager :=
  let pending := (pendingLoads am - 1)%Z in
  {| loaderReady := loaderReady am;
     loadedModels := <[name := gltf]> (loadedModels am);
     modelPaths := modelPaths am;
     pendingLoads := pending;
     onLoadComplete := onLoadComplete am;
     completions :=
       if (pending =? 0)%Z && onLoadComplete am
       then S (completions am) else completions am |}.

(** The error callback of a request. *)
Definition loadFailed (am : AssetManager) (name : string) : AssetManager :=
  {| loaderReady := loaderReady am; loadedModels := loadedModels am;
     modelPaths := modelPaths am;
     pendingLoads := (pendingLoads am - 1)%Z;
     onLoadComplete := onLoadComplete am;
     completions := completions am |}.

(** A request that finishes, with the handle of the model or with an
    error. *)
Definition finish (am : AssetManager) (result : string * option nat)
    : AssetManager :=
  match result with
  | (name, Some gltf) => loadSucceeded am name gltf
  | (name, None) => loadFailed am name
  end.

(** The loop of [loadAllModels] over [Object.entries(modelPaths)]:
    the manager, the names whose requests were issued, and
    [hasModelsToLoad]. *)
Fixpoint loadEntries (am : AssetManager)
    (entries : list (string * option string))
    : AssetManager * list string * bool :=
  match entries with
  | [] => (am, [], false)
  | (name, path) :: rest =>
      if truthyPath path then
        let '(am1, issued) := loadModel am name path in
        let '(am2, names, _) := loadEntries am1 rest in
        (am2, if issued then name :: names else names, true)
      else loadEntries am rest
  end.

(** [loadAllModels(onComplete)]: the manager, the requests issued,
    and whether [setTimeout(onComplete, 0)] was called. *)
Definition loadAllModels (am : AssetManager) (onComplete : bool)
    : AssetManager * list string * bool :=
  let am0 :=
    {| loaderReady := loaderReady am; loadedModels := loadedModels am;
       modelPaths := modelPaths am; pendingLoads := pendingLoads am;
       onLoadComplete := onComplete; completions := completions am |} in
  let '(am1, names, hasModelsToLoad) := loadEntries am0 (modelPaths am0) in
  (am1, names, negb hasModelsToLoad && onComplete).

(** ** Reference definitions

    The quantities the properties below are stated with. *)

(** The sum of a list of numbers. *)
Definition Qsum (l : list Q) : Q := foldr Qplus 0 l.

(** The menu price of an item, 4 for an item the price table does
    not list. *)
Definition listedPrice (g : GameState) (item : MenuItem) : Q :=
  match menuPrices g !! item_id item with
  | Some p => p
  | None => 4
  end.

(** The price charged for an item: its menu price, 4 standing in
    for a price that is not listed or that is 0. *)
Definition chargedPrice (g : GameState) (item : MenuItem) : Q :=
  if Qeq_bool (listedPrice g item) 0 then 4 else listedPrice g item.

(** [Math.max(lo, Math.min(hi, x))] *)
Definition clamp (x lo hi : Q) : Q := Qmax lo (Qmin hi x).

(** ** A configuration to run the model on

    An instance of the absent tables, used by the examples below: a
    small menu with its recipes, one queue slot in front of the
    counter, and object identifiers that are pairwise distinct. *)

Definition sample_menu : list MenuItem :=
  [ {| item_id := "espresso"; item_name := "Espresso";
       item_type := "drink"; basePrice := 5 |};
    {| item_id := "latte"; item_name := "Latte";
       item_type := "drink"; basePrice := 6 |};
    {| item_id := "croissant"; item_name := "Croissant";
       item_type := "pastry"; basePrice := 3 |} ].

Definition sample_recipes : gmap string (list (string * bool)) :=
  <["espresso" := [("espresso", true)]]>
    (<["latte" := [("espresso", true); ("milk", true)]]> ∅).

Definition sample_cfg : Config :=
  {| MENU_ITEMS := sample_menu;
     DRINK_RECIPES := sample_recipes;
     CUSTOMER_TYPES := ["student"; "tourist"];
     QUEUE_POSITIONS := [(0, 0)];
     MAX_CUSTOMERS := 4;
     STARTING_MONEY := 100;
     uuid := N.of_nat |}.

(** A game in which a customer who wants an espresso walks in and
    reaches the counter while the player takes a cup, pulls an
    espresso and presses the key with the marker at 4.8, far from the
    target window. *)
Definition missed_espresso : list Event :=
  [StartGame "normal"; SpawnTimer 0 0 (1 # 2) 0 1000]
  ++ replicate 60 (EnterAnimation 0 2000)
  ++ [KeyE (Some CupDispenser) 0 3000; KeyE (Some Espresso) (1 # 4) 4000;
      Frame; Frame; Frame; Frame; KeyE None 0 5000].

(** The state when the player stands at the counter with that cup. *)
Definition world_at_counter : World :=
  run sample_cfg (init sample_cfg) missed_espresso.

(** A game in which the player starts frothing milk, taps once and
    then lets 34 frames pass. *)
Definition one_tap_then_wait : list Event :=
  [StartGame "normal"; KeyE (Some CupDispenser) 0 1000;
   KeyE (Some Milk) 0 2000; KeyE None 0 2100]
  ++ replicate 34 Frame.

(** A game in which a customer has just been spawned. *)
Definition customer_spawned : list Event :=
  [StartGame "normal"; SpawnTimer 0 0 (1 # 2) 0 1000].

Definition latte_order : Order :=
  {| customer := 0%nat;
     items := [ {| item_id := "latte"; item_name := "Latte";
                   item_type := "drink"; basePrice := 6 |} ];
     startTime := 0 |}.

Definition croissant_order : Order :=
  {| customer := 0%nat;
     items := [ {| item_id := "espresso"; item_name := "Espresso";
                   item_type := "drink"; basePrice := 5 |};
                {| item_id := "croissant"; item_name := "Croissant";
                   item_type := "pastry"; basePrice := 3 |} ];
     startTime := 0 |}.

Definition latte_contents : gmap string bool :=
  <["milk" := true]> (<["espresso" := true]> emptyContents).


(** The game of [missed_espresso], with a second customer spawned
    while the first one waits. *)
Definition second_customer : list Event :=
  missed_espresso ++ [SpawnTimer 0 0 (1 # 2) 0 7000].

Definition world_second : World :=
  run sample_cfg (init sample_cfg) second_customer.

(** A game in which the queue has filled up. *)
Definition full_house : list Event :=
  [StartGame "normal"; SpawnTimer 0 0 (1 # 2) 0 1000;
   SpawnTimer (1 # 2) 0 (1 # 2) 0 7000; SpawnTimer 0 (1 # 2) (1 # 2) 0 13000;
   SpawnTimer (1 # 2) (1 # 2) (1 # 2) 0 19000].

Definition world_full : World :=
  run sample_cfg (init sample_cfg) full_house.

(** A menu whose only drink is on the house, and a game in which a
    customer who orders it has reached the counter. *)
Definition free_water_cfg : Config :=
  {| MENU_ITEMS :=
       [ {| item_id := "water"; item_name := "Water";
            item_type := "drink"; basePrice := 0 |} ];
     DRINK_RECIPES := <["water" := []]> ∅;
     CUSTOMER_TYPES := ["student"; "tourist"];
     QUEUE_POSITIONS := [(0, 0)];
     MAX_CUSTOMERS := 4;
     STARTING_MONEY := 100;
     uuid := N.of_nat |}.

Definition water_ordered : list Event :=
  [StartGame "normal"; SpawnTimer 0 0 (1 # 2) 0 1000]
  ++ replicate 60 (EnterAnimation 0 2000).

Definition world_water : World :=
  run free_water_cfg (init free_water_cfg) water_ordered.

Definition water_order : Order :=
  {| customer := 0%nat;
     items := [ {| item_id := "water"; item_name := "Water";
                   item_type := "drink"; basePrice := 0 |} ];
     startTime := 2000 |}.

Definition grinder : Upgrade :=
  {| upgrade_id := "grinder"; upgrade_name := "Better grinder";
     price := 40; effect := None |}.

(** The sample menu without its drinks. *)
Definition pastry_only_cfg : Config :=
  {| MENU_ITEMS :=
       [ {| item_id := "croissant"; item_name := "Croissant";
            item_type := "pastry"; basePrice := 3 |} ];
     DRINK_RECIPES := sample_recipes;
     CUSTOMER_TYPES := ["student"; "tourist"];
     QUEUE_POSITIONS := [(0, 0)];
     MAX_CUSTOMERS := 4;
     STARTING_MONEY := 100;
     uuid := N.of_nat |}.

(** The state right after a customer has been spawned. *)
Definition world_spawned : World :=
  run sample_cfg (init sample_cfg) customer_spawned.

(** The state while the player froths milk. *)
Definition world_frothing : World :=
  run sample_cfg (init sample_cfg) one_tap_then_wait.

(** A game in which the player has taken a cup. *)
Definition cup_taken : list Event :=
  [StartGame "normal"; KeyE (Some CupDispenser) 0 1000].

Definition world_with_cup : World :=
  run sample_cfg (init sample_cfg) cup_taken.

(** A game in which the player pulls an espresso and the marker has
    moved four steps. *)
Definition pulling_espresso : list Event :=
  cup_taken ++ [KeyE (Some Espresso) (1 # 4) 4000; Frame; Frame; Frame; Frame].

Definition world_pulling : World :=
  run sample_cfg (init sample_cfg) pulling_espresso.

(** The game of [missed_espresso], with the cup served to the
    customer. *)
Definition served_espresso : list Event :=
  missed_espresso ++ [KeyE (Some (CustomerObject 0)) 0 6000].

Definition world_served : World :=
  run sample_cfg (init sample_cfg) served_espresso.

(** An asset manager without loader, with one model configured. *)
Definition sample_assets : AssetManager :=
  {| loaderReady := false; loadedModels := ∅;
     modelPaths := [("chair", Some "models/chair.glb"); ("cafe", None)];
     pendingLoads := 0; onLoadComplete := false; completions := 0 |}.

(** A game in which the customer is one frame away from the
    counter. *)
Definition almost_arrived : list Event :=
  customer_spawned ++ replicate 53 (EnterAnimation 0 2000).

Definition world_arriving : World :=
  run sample_cfg (init sample_cfg) almost_arrived.

(** An asset manager with a loader and two requests in flight. *)
Definition sample_loading : AssetManager :=
  {| loaderReady := true; loadedModels := ∅;
     modelPaths := [("chair", Some "models/chair.glb");
                    ("table", Some "models/table.glb")];
     pendingLoads := 2; onLoadComplete := true; completions := 0 |}.

(** * Properties *)

Section Properties.

Variable cfg : Config.

(** ** Recipe matching *)

Lemma flag_true (contents : gmap string bool) (ingredient : string) :
  flag contents ingredient = true <-> contents !! ingredient = Some true.
Proof.
  unfold flag. destruct (contents !! ingredient) as [[]|]; split; congruence.
Qed.

Lemma recipeMatches_spec (contents : gmap string bool)
    (recipe : list (string * bool)) :
  recipeMatches contents recipe = true <->
  forall ingredient, (ingredient, true) ∈ recipe ->
    flag contents ingredient = true.
Proof.
  induction recipe as [|[ingredient required] rest IH]; simpl.
  - split; [|done]. intros _ i Hi. by apply elem_of_nil in Hi.
  - destruct required; simpl.
    + destruct (flag contents ingredient) eqn:Hflag; simpl.
      * rewrite IH. split.
        -- intros H i Hi. apply elem_of_cons in Hi as [Hi|Hi]; [|by apply H].
           by inversion Hi; subst.
        -- intros H i Hi. apply H. by apply elem_of_cons; right.
      * split; [done|]. intros H.
        rewrite <- Hflag. apply H. by apply elem_of_cons; left.
    + rewrite IH. split.
      * intros H i Hi. apply elem_of_cons in Hi as [Hi|Hi]; [|by apply H].
        inversion Hi.
      * intros H i Hi. apply H. by apply elem_of_cons; right.
Qed.

Lemma drinkMatches_spec (contents : gmap string bool) (l : list MenuItem) :
  drinkMatches cfg contents l = true <->
  exists item recipe,
    item ∈ l /\ item_type item = "drink" /\
    DRINK_RECIPES cfg !! item_id item = Some recipe /\
    recipeMatches contents recipe = true.
Proof.
  induction l as [|item rest IH]; simpl.
  - split; [done|]. intros (i & r & Hi & _). by apply elem_of_nil in Hi.
  - assert (Hrest : drinkMatches cfg contents rest = true ->
      exists item0 recipe, item0 ∈ item :: rest /\ item_type item0 = "drink" /\
        DRINK_RECIPES cfg !! item_id item0 = Some recipe /\
        recipeMatches contents recipe = true).
    { intros H. apply IH in H as (i & r & Hi & H).
      exists i, r. split; [by apply elem_of_cons; right|done]. }
    destruct (String.eqb (item_type item) "drink") eqn:Hty.
    + apply String.eqb_eq in Hty.
      destruct (DRINK_RECIPES cfg !! item_id item) as [recipe|] eqn:Hrec.
      * destruct (recipeMatches contents recipe) eqn:Hm.
        -- split; [|done]. intros _. exists item, recipe.
           split; [by apply elem_of_cons; left|done].
        -- split; [done|]. intros (i & r & Hi & Hd & Hr & Hrm).
           apply elem_of_cons in Hi as [->|Hi].
           ++ congruence.
           ++ apply IH. by exists i, r.
      * split; [done|]. intros (i & r & Hi & Hd & Hr & Hrm).
        apply elem_of_cons in Hi as [->|Hi]; [congruence|].
        apply IH. by exists i, r.
    + apply String.eqb_neq in Hty.
      split; [done|]. intros (i & r & Hi & Hd & Hr & Hrm).
      apply elem_of_cons in Hi as [->|Hi]; [congruence|].
      apply IH. by exists i, r.
Qed.

Lemma recipeMatches_ext (contents contents' : gmap string bool)
    (recipe : list (string * bool)) :
  (forall ingredient, (ingredient, true) ∈ recipe ->
     flag contents ingredient = flag contents' ingredient) ->
  recipeMatches contents recipe = recipeMatches contents' recipe.
Proof.
  intros Hagree. apply eq_true_iff_eq. rewrite !recipeMatches_spec.
  split; intros H i Hi; [rewrite <- Hagree|rewrite Hagree]; auto.
Qed.

Lemma flag_insert_true (contents : gmap string bool) (k ingredient : string) :
  flag contents ingredient = true ->
  flag (<[k := true]> contents) ingredient = true.
Proof.
  rewrite !flag_true. intros H.
  destruct (decide (k = ingredient)) as [->|Hne].
  - apply lookup_insert_eq.
  - by rewrite lookup_insert_ne.
Qed.

Lemma drinkMatches_insert (contents : gmap string bool) (k : string)
    (l : list MenuItem) :
  drinkMatches cfg contents l = true ->
  drinkMatches cfg (<[k := true]> contents) l = true.
Proof.
  rewrite !drinkMatches_spec. intros (i & r & Hi & Hd & Hr & Hrm).
  exists i, r. repeat split; try done.
  apply recipeMatches_spec. intros ing Hing.
  apply flag_insert_true. by apply (proj1 (recipeMatches_spec _ _) Hrm).
Qed.

(** ** Array lookups *)

Lemma findIndex_Some {A : Type} (p : A -> bool) (l : list A) (i : nat) :
  findIndex p l = Some i -> exists x, l !! i = Some x /\ p x = true.
Proof.
  revert i. induction l as [|x rest IH]; intros i; simpl; [done|].
  destruct (p x) eqn:Hp.
  - intros [= <-]. by exists x.
  - destruct (findIndex p rest) as [j|]; simpl; [|done].
    intros [= <-]. destruct (IH j eq_refl) as (y & Hy & Hpy). by exists y.
Qed.

Lemma findOrderIndex_Some (w : World) (c i : nat) :
  findOrderIndex cfg w c = Some i ->
  exists o, activeOrders (gameState w) !! i = Some o /\
    (customer o = c \/ uuid cfg (customer o) = uuid cfg c).
Proof.
  unfold findOrderIndex.
  destruct (findIndex (fun o => Nat.eqb (customer o) c) _) as [j|] eqn:Hj.
  - intros [= <-]. apply findIndex_Some in Hj as (o & Ho & Hp).
    exists o. split; [done|]. left. by apply Nat.eqb_eq.
  - intros Hi. apply findIndex_Some in Hi as (o & Ho & Hp).
    exists o. split; [done|]. right. by apply N.eqb_eq.
Qed.

(** ** What the animation closures leave alone *)

Lemma leaveFrame_frame (w : World) (c : nat) :
  activeOrders (gameState (leaveFrame w c)) = activeOrders (gameState w) /\
  money (gameState (leaveFrame w c)) = money (gameState w) /\
  rating (gameState (leaveFrame w c)) = rating (gameState w) /\
  customersServed (gameState (leaveFrame w c))
    = customersServed (gameState w) /\
  physicsState (leaveFrame w c) = physicsState w /\
  miniGameState (leaveFrame w c) = miniGameState w /\
  nextObject (leaveFrame w c) = nextObject w.
Proof.
  unfold leaveFrame. destruct (objects w !! c) as [u|]; [|done].
  destruct (state u); try done.
  destruct (Qlt_bool _ _); [done|]. simpl.
  by destruct (indexOf c (customers (gameState w))).
Qed.

Lemma leaveFrame_objects_ne (w : World) (c r : nat) :
  r ≠ c -> objects (leaveFrame w c) !! r = objects w !! r.
Proof.
  intros Hne. unfold leaveFrame. destruct (objects w !! c) as [u|]; [|done].
  destruct (state u); try done.
  destruct (Qlt_bool _ _); simpl.
  - by rewrite lookup_insert_ne.
  - destruct (indexOf c (customers (gameState w))); simpl;
      by rewrite lookup_insert_ne.
Qed.

Lemma leaveFrame_state (w : World) (c : nat) :
  state <$> objects (leaveFrame w c) !! c = state <$> objects w !! c.
Proof.
  unfold leaveFrame. destruct (objects w !! c) as [u|] eqn:Hu.
  - destruct (state u) eqn:Hs; try (by rewrite Hu).
    destruct (Qlt_bool _ _); simpl.
    + rewrite lookup_insert_eq. simpl. by rewrite Hs.
    + destruct (indexOf c (customers (gameState w))); simpl;
        rewrite lookup_insert_eq; simpl; by rewrite Hs.
  - by rewrite Hu.
Qed.

Lemma completeOrder_Some (w : World) (i : nat) (quality : Z) (o : Order) :
  activeOrders (gameState w) !! i = Some o ->
  exists w', completeOrder w i quality = Some w'.
Proof. intros H. unfold completeOrder. rewrite H. eauto. Qed.

(** ** Consistency of the order list *)

Lemma consistent_nil (objs : gmap nat Customer) : consistent [] objs.
Proof.
  split; [|constructor]. intros o Ho. by apply elem_of_nil in Ho.
Qed.

(** A customer that is not waiting has no order. *)
Lemma consistent_not_waiting (orders : list Order)
    (objs : gmap nat Customer) (c : nat) :
  consistent orders objs ->
  (forall u, objs !! c = Some u -> state u ≠ Waiting) ->
  forall o, o ∈ orders -> customer o ≠ c.
Proof.
  intros [Hw _] Hc o Ho <-. destruct (Hw o Ho) as (u & Hu & Hs).
  by apply (Hc u).
Qed.

(** Changing one object that no order points at keeps the list
    consistent. *)
Lemma consistent_change (orders : list Order)
    (objs objs' : gmap nat Customer) (c : nat) :
  consistent orders objs ->
  (forall r, r ≠ c -> objs' !! r = objs !! r) ->
  (forall o, o ∈ orders -> customer o ≠ c) ->
  consistent orders objs'.
Proof.
  intros [Hw Hnd] Hsame Hfree. split; [|done].
  intros o Ho. destruct (Hw o Ho) as (u & Hu & Hs).
  exists u. split; [|done]. rewrite Hsame; [done|]. by apply Hfree.
Qed.

Lemma consistent_delete (orders : list Order) (objs : gmap nat Customer)
    (i : nat) (o : Order) :
  consistent orders objs -> orders !! i = Some o ->
  consistent (delete i orders) objs /\
  forall o', o' ∈ delete i orders -> customer o' ≠ customer o.
Proof.
  intros [Hw Hnd] Hi.
  assert (Hsplit : orders = take i orders ++ o :: drop (S i) orders).
  { by rewrite <- (take_drop_middle _ _ _ Hi) at 1. }
  assert (Hdel : delete i orders = take i orders ++ drop (S i) orders).
  { apply delete_take_drop. }
  rewrite Hdel. rewrite Hsplit in Hnd, Hw.
  rewrite fmap_app, fmap_cons in Hnd.
  apply NoDup_app in Hnd as (Hnd1 & Hdisj & Hnd2).
  apply NoDup_cons in Hnd2 as (Hnotin & Hnd2).
  split; [split|].
  - intros o' Ho'. apply Hw. apply elem_of_app in Ho' as [Ho'|Ho'].
    + apply elem_of_app. by left.
    + apply elem_of_app. right. apply elem_of_cons. by right.
  - rewrite fmap_app. apply NoDup_app. split; [done|]. split; [|done].
    intros x Hx Hx'. apply (Hdisj x Hx). apply elem_of_cons. by right.
  - intros o' Ho' Heq. apply elem_of_app in Ho' as [Ho'|Ho'].
    + apply (Hdisj (customer o')).
      * by apply list_elem_of_fmap_2.
      * rewrite Heq. apply elem_of_cons. by left.
    + apply Hnotin. rewrite <- Heq. by apply list_elem_of_fmap_2.
Qed.

Lemma consistent_snoc (orders : list Order) (objs : gmap nat Customer)
    (o : Order) (u : Customer) :
  consistent orders objs ->
  objs !! customer o = Some u -> state u = Waiting ->
  (forall o', o' ∈ orders -> customer o' ≠ customer o) ->
  consistent (orders ++ [o]) objs.
Proof.
  intros [Hw Hnd] Hu Hs Hfree. split.
  - intros o' Ho'. apply elem_of_app in Ho' as [Ho'|Ho']; [by apply Hw|].
    apply list_elem_of_singleton in Ho' as ->. by exists u.
  - rewrite fmap_app. apply NoDup_app. split; [done|]. split.
    + intros x Hx Hx'. apply list_elem_of_singleton in Hx'. subst x.
      apply list_elem_of_fmap in Hx as (o' & Heq & Ho').
      by apply (Hfree o' Ho').
    + simpl. apply NoDup_singleton.
Qed.

(** ** Preservation by the customer animations *)

Lemma allocated_same_domain (w w' : World) :
  allocated w ->
  (forall r, is_Some (objects w' !! r) -> is_Some (objects w !! r)) ->
  (nextObject w <= nextObject w')%nat ->
  allocated w'.
Proof.
  intros Ha Hdom Hnext r u Hr.
  destruct (Hdom r) as [u0 Hu0]; [by eexists|].
  specialize (Ha r u0 Hu0). lia.
Qed.

Lemma leaveFrame_consistent (w : World) (c : nat) :
  orders_consistent w -> orders_consistent (leaveFrame w c).
Proof.
  intros Hc. unfold orders_consistent.
  destruct (leaveFrame_frame w c) as (-> & _).
  destruct (objects w !! c) as [u|] eqn:Hu.
  - destruct (decide (state u = Waiting)) as [Hs|Hs].
    + unfold leaveFrame. by rewrite Hu, Hs.
    + apply (consistent_change _ (objects w) _ c); [done| |].
      * intros r Hr. by apply leaveFrame_objects_ne.
      * apply (consistent_not_waiting _ (objects w)); [done|].
        intros u' Hu'. congruence.
  - unfold leaveFrame. by rewrite Hu.
Qed.

Lemma leaveFrame_allocated (w : World) (c : nat) :
  allocated w -> allocated (leaveFrame w c).
Proof.
  intros Ha. apply (allocated_same_domain w); [done| |].
  - intros r Hr. destruct (decide (r = c)) as [->|Hne].
    + apply (fmap_is_Some state). rewrite <- leaveFrame_state.
      by apply fmap_is_Some.
    + by rewrite <- (leaveFrame_objects_ne w c r).
  - destruct (leaveFrame_frame w c) as (_ & _ & _ & _ & _ & _ & ->). lia.
Qed.

Lemma enterFrame_frame (w : World) (c : nat) (now : Z) :
  money (gameState (enterFrame w c now)) = money (gameState w) /\
  rating (gameState (enterFrame w c now)) = rating (gameState w) /\
  customersServed (gameState (enterFrame w c now))
    = customersServed (gameState w) /\
  customers (gameState (enterFrame w c now)) = customers (gameState w) /\
  physicsState (enterFrame w c now) = physicsState w /\
  miniGameState (enterFrame w c now) = miniGameState w /\
  nextObject (enterFrame w c now) = nextObject w.
Proof.
  unfold enterFrame. destruct (objects w !! c) as [u|]; [|done].
  destruct (state u); try done.
  destruct (targetPos u) as [[tx tz]|]; [|done].
  destruct (Qlt_bool _ _); [done|].
  by destruct (definedItems (order u)).
Qed.

Lemma enterFrame_objects_ne (w : World) (c r : nat) (now : Z) :
  r ≠ c -> objects (enterFrame w c now) !! r = objects w !! r.
Proof.
  intros Hne. unfold enterFrame. destruct (objects w !! c) as [u|]; [|done].
  destruct (state u); try done.
  destruct (targetPos u) as [[tx tz]|]; [|done].
  destruct (Qlt_bool _ _); simpl.
  - by rewrite lookup_insert_ne.
  - destruct (definedItems (order u)); simpl; by rewrite lookup_insert_ne.
Qed.

Lemma enterFrame_domain (w : World) (c r : nat) (now : Z) :
  is_Some (objects (enterFrame w c now) !! r) -> is_Some (objects w !! r).
Proof.
  destruct (decide (r = c)) as [->|Hne].
  - unfold enterFrame. destruct (objects w !! c) as [u|] eqn:Hu.
    + intros _. by eexists.
    + by rewrite Hu.
  - by rewrite enterFrame_objects_ne.
Qed.

(** The closure either moves the customer, who stays entering, or
    makes it wait and registers its order, or does nothing. *)
Lemma enterFrame_cases (w : World) (c : nat) (now : Z) :
  (activeOrders (gameState (enterFrame w c now))
     = activeOrders (gameState w) /\
   ((enterFrame w c now = w) \/
    (exists u u', objects w !! c = Some u /\ state u = Entering /\
       objects (enterFrame w c now) !! c = Some u' /\
       (state u' = Entering \/
        state u' = Waiting /\ definedItems (order u) = None))))
  \/
  (exists u l, objects w !! c = Some u /\ state u = Entering /\
     definedItems (order u) = Some l /\
     objects (enterFrame w c now) !! c = Some (with_state u Waiting) /\
     activeOrders (gameState (enterFrame w c now))
       = activeOrders (gameState w)
           ++ [{| customer := c; items := l; startTime := now |}]).
Proof.
  unfold enterFrame. destruct (objects w !! c) as [u|] eqn:Hu; [|by left; auto].
  destruct (state u) eqn:Hs; try (by left; auto).
  destruct (targetPos u) as [[tx tz]|]; [|by left; auto].
  destruct (Qlt_bool _ _); simpl.
  - left. split; [done|]. right. eexists u, _. rewrite lookup_insert_eq.
    repeat split; try done. left. simpl. done.
  - destruct (definedItems (order u)) as [l|] eqn:Hd; simpl.
    + right. exists u, l. rewrite lookup_insert_eq. done.
    + left. split; [done|]. right. eexists u, _. rewrite lookup_insert_eq.
      repeat split; try done. by right.
Qed.

Lemma enterFrame_consistent (w : World) (c : nat) (now : Z) :
  orders_consistent w -> orders_consistent (enterFrame w c now).
Proof.
  intros Hc. unfold orders_consistent.
  assert (Hfree : forall u, objects w !! c = Some u -> state u = Entering ->
            forall o, o ∈ activeOrders (gameState w) -> customer o ≠ c).
  { intros u Hu Hs. apply (consistent_not_waiting _ (objects w)); [done|].
    intros u' Hu'. congruence. }
  destruct (enterFrame_cases w c now)
    as [(-> & [-> | (u & u' & Hu & Hs & Hu' & _)])
       | (u & l & Hu & Hs & Hd & Hu' & ->)].
  - done.
  - apply (consistent_change _ (objects w) _ c); [done| |by eapply Hfree].
    intros r Hr. by apply enterFrame_objects_ne.
  - eapply consistent_snoc; [| apply Hu' | done | by eapply Hfree].
    apply (consistent_change _ (objects w) _ c); [done| |by eapply Hfree].
    intros r Hr. by apply enterFrame_objects_ne.
Qed.

Lemma enterFrame_allocated (w : World) (c : nat) (now : Z) :
  allocated w -> allocated (enterFrame w c now).
Proof.
  intros Ha. apply (allocated_same_domain w); [done| |].
  - intros r. apply enterFrame_domain.
  - destruct (enterFrame_frame w c now) as (_ & _ & _ & _ & _ & _ & ->). lia.
Qed.

(** ** Completing an order *)

Lemma completeOrder_effect (w w' : World) (i : nat) (quality : Z)
    (o : Order) :
  activeOrders (gameState w) !! i = Some o ->
  completeOrder w i quality = Some w' ->
  let payment := orderPayment (gameState w) o in
  let tip := orderTip payment quality in
  activeOrders (gameState w') = delete i (activeOrders (gameState w)) /\
  money (gameState w') = money (gameState w) + (payment + inject_Z tip) /\
  rating (gameState w')
    = Qmax 1 (Qmin 5 (rating (gameState w) + ratingChange quality)) /\
  customersServed (gameState w') = (customersServed (gameState w) + 1)%Z /\
  physicsState w' = physicsState w /\
  miniGameState w' = miniGameState w /\
  nextObject w' = nextObject w /\
  (forall r, r ≠ customer o -> objects w' !! r = objects w !! r) /\
  state <$> objects w' !! customer o
    = (fun _ => Leaving) <$> objects w !! customer o.
Proof.
  intros Hi. unfold completeOrder. rewrite Hi. intros [= <-].
  unfold animateCustomerLeave.
  match goal with |- context [leaveFrame ?w0 _] => set (w1 := w0) end.
  destruct (leaveFrame_frame w1 (customer o))
    as (-> & -> & -> & -> & -> & -> & ->).
  repeat split; try done.
  - intros r Hr. rewrite leaveFrame_objects_ne by done.
    subst w1; simpl. by rewrite lookup_alter_ne.
  - rewrite leaveFrame_state. subst w1; simpl. rewrite lookup_alter_eq.
    by destruct (objects w !! customer o).
Qed.

Lemma completeOrder_consistent (w w' : World) (i : nat) (quality : Z) :
  orders_consistent w -> completeOrder w i quality = Some w' ->
  orders_consistent w'.
Proof.
  intros Hc. unfold completeOrder.
  destruct (activeOrders (gameState w) !! i) as [o|] eqn:Hi; [|done].
  intros [= <-]. unfold animateCustomerLeave.
  apply leaveFrame_consistent. unfold orders_consistent; simpl.
  destruct (consistent_delete _ _ _ _ Hc Hi) as [Hdel Hfree].
  apply (consistent_change _ (objects w) _ (customer o)); [done| |done].
  intros r Hr. by rewrite lookup_alter_ne.
Qed.

Lemma completeOrder_allocated (w w' : World) (i : nat) (quality : Z) :
  allocated w -> completeOrder w i quality = Some w' -> allocated w'.
Proof.
  intros Ha. unfold completeOrder.
  destruct (activeOrders (gameState w) !! i) as [o|] eqn:Hi; [|done].
  intros [= <-]. unfold animateCustomerLeave.
  apply leaveFrame_allocated.
  apply (allocated_same_domain w); [done| |simpl; lia].
  intros r. simpl. destruct (decide (r = customer o)) as [->|Hne].
  - rewrite lookup_alter_eq. by rewrite fmap_is_Some.
  - by rewrite lookup_alter_ne.
Qed.

(** A call either changes nothing or completes an order and empties
    the hand. *)
Lemma serveToCustomer_cases (w : World) (c : nat) :
  (fst (serveToCustomer cfg w c) = w /\
   snd (serveToCustomer cfg w c) ≠ Served) \/
  (exists held i o w',
     grabbedObject (physicsState w) = Some held /\
     stillEntering w c = false /\
     findOrderIndex cfg w c = Some i /\
     activeOrders (gameState w) !! i = Some o /\
     matchFound cfg held o = true /\
     completeOrder w i (heldQuality held) = Some w' /\
     serveToCustomer cfg w c
       = (with_physicsState w'
            {| grabbedObject := None; isGrabbing := false |}, Served)).
Proof.
  unfold serveToCustomer.
  destruct (grabbedObject (physicsState w)) as [held|] eqn:Hheld;
    [|by left].
  destruct (stillEntering w c) eqn:Hent; [by left|].
  destruct (findOrderIndex cfg w c) as [i|] eqn:Hidx.
  2:{ left. split; [done|]. simpl. by destruct (objects w !! c). }
  destruct (activeOrders (gameState w) !! i) as [o|] eqn:Ho; [|by left].
  destruct (matchFound cfg held o) eqn:Hm; [|by left].
  destruct (completeOrder_Some w i (heldQuality held) o Ho) as [w' Hw'].
  rewrite Hw'. right. by exists held, i, o, w'.
Qed.

Lemma serveToCustomer_consistent (w : World) (c : nat) :
  orders_consistent w -> orders_consistent (fst (serveToCustomer cfg w c)).
Proof.
  intros Hc.
  destruct (serveToCustomer_cases w c)
    as [[-> _] | (held & i & o & w' & _ & _ & _ & _ & _ & Hw' & ->)];
    [done|].
  simpl. by apply (completeOrder_consistent w w' i (heldQuality held)).
Qed.

Lemma serveToCustomer_allocated (w : World) (c : nat) :
  allocated w -> allocated (fst (serveToCustomer cfg w c)).
Proof.
  intros Ha.
  destruct (serveToCustomer_cases w c)
    as [[-> _] | (held & i & o & w' & _ & _ & _ & _ & _ & Hw' & ->)];
    [done|].
  simpl. by apply (completeOrder_allocated w w' i (heldQuality held)).
Qed.

(** ** Spawning *)

Lemma spawnCustomer_consistent (w : World) (rType rDrink rChance rPastry : Q)
    (now : Z) :
  orders_consistent w -> allocated w ->
  orders_consistent (spawnCustomer cfg w rType rDrink rChance rPastry now).
Proof.
  intros Hc Ha. unfold spawnCustomer.
  destruct (_ <=? _)%nat; [done|].
  destruct (pick rType (CUSTOMER_TYPES cfg)) as [ty|]; [|done].
  unfold animateCustomerEnter. apply enterFrame_consistent.
  unfold orders_consistent; simpl.
  assert (Hfresh : objects w !! nextObject w = None).
  { destruct (objects w !! nextObject w) as [u|] eqn:Hu; [|done].
    specialize (Ha _ _ Hu). lia. }
  apply (consistent_change _ (objects w) _ (nextObject w)); [done| |].
  - intros r Hr. rewrite lookup_alter_ne by done.
    by rewrite lookup_insert_ne.
  - apply (consistent_not_waiting _ (objects w)); [done|]. congruence.
Qed.

Lemma spawnCustomer_allocated (w : World) (rType rDrink rChance rPastry : Q)
    (now : Z) :
  allocated w ->
  allocated (spawnCustomer cfg w rType rDrink rChance rPastry now).
Proof.
  intros Ha. unfold spawnCustomer.
  destruct (_ <=? _)%nat; [done|].
  destruct (pick rType (CUSTOMER_TYPES cfg)) as [ty|]; [|done].
  unfold animateCustomerEnter. apply enterFrame_allocated.
  intros r u. simpl.
  destruct (decide (r = nextObject w)) as [->|Hne]; [lia|].
  rewrite lookup_alter_ne by done. rewrite lookup_insert_ne by done.
  intros Hu. specialize (Ha _ _ Hu). lia.
Qed.

(** ** The key handler and the machine *)

Lemma handleMiniGameInput_frame (w : World) (now : Z) :
  gameState (handleMiniGameInput w now) = gameState w /\
  objects (handleMiniGameInput w now) = objects w /\
  nextObject (handleMiniGameInput w now) = nextObject w.
Proof.
  unfold handleMiniGameInput. destruct (negb _); [done|].
  destruct (mg_type (miniGameState w)) as [[]|]; try done.
  by destruct (Qle_bool _ _).
Qed.

(** Pressing the key either leaves the customers and their orders
    alone or serves a customer. *)
Lemma tryInteract_cases (w : World) (target : option Target) (r : Q)
    (now : Z) :
  (gameState (tryInteract cfg w target r now) = gameState w /\
   objects (tryInteract cfg w target r now) = objects w /\
   nextObject (tryInteract cfg w target r now) = nextObject w) \/
  (exists c, tryInteract cfg w target r now = fst (serveToCustomer cfg w c)).
Proof.
  unfold tryInteract.
  destruct (active (miniGameState w)).
  { left. apply handleMiniGameInput_frame. }
  destruct (isGrabbing (physicsState w)).
  - destruct target as [t|].
    + destruct (grabbedObject (physicsState w)) as [held|] eqn:Hheld;
        [|by left].
      destruct t; try (left; unfold dropItem, trashItem; rewrite ?Hheld;
                       by destruct (isCup held)).
      right. by eexists.
    + left. unfold dropItem.
      by destruct (grabbedObject (physicsState w)).
  - left. destruct target as [[]|]; done.
Qed.

Lemma unchanged_consistent (w w' : World) :
  gameState w' = gameState w -> objects w' = objects w ->
  orders_consistent w -> orders_consistent w'.
Proof. unfold orders_consistent. by intros -> ->. Qed.

Lemma unchanged_allocated (w w' : World) :
  objects w' = objects w -> nextObject w' = nextObject w ->
  allocated w -> allocated w'.
Proof. unfold allocated. by intros -> ->. Qed.

Lemma step_consistent (w : World) (e : Event) :
  orders_consistent w -> allocated w ->
  orders_consistent (step cfg w e) /\ allocated (step cfg w e).
Proof.
  intros Hc Ha. destruct e; simpl.
  - split; [apply consistent_nil|done].
  - split; [apply consistent_nil|done].
  - split; [by apply spawnCustomer_consistent|by apply spawnCustomer_allocated].
  - split; [by apply enterFrame_consistent|by apply enterFrame_allocated].
  - split; [by apply leaveFrame_consistent|by apply leaveFrame_allocated].
  - done.
  - destruct (isPlaying (gameState w)); [|done].
    destruct (tryInteract_cases w target r now) as [(Hg & Ho & Hn)|[c ->]].
    + split; [by apply (unchanged_consistent w)|by apply (unchanged_allocated w)].
    + split; [by apply serveToCustomer_consistent
             |by apply serveToCustomer_allocated].
  - destruct (isPlaying (gameState w)); [|done].
    destruct (active (miniGameState w)); [done|]. by destruct shopOpen.
  - unfold updateMiniGame. destruct (negb _); [done|].
    destruct (mg_type (miniGameState w)) as [[]|]; try done.
    by destruct (Qlt_bool _ _).
Qed.

(** In every reachable state the order list is consistent. *)
Lemma reachable_consistent (w : World) :
  reachable cfg w -> orders_consistent w /\ allocated w.
Proof.
  induction 1 as [|w e _ [IHc IHa] _].
  - split; [apply consistent_nil|]. intros c u Hu. simpl in Hu.
    by rewrite lookup_empty in Hu.
  - by apply step_consistent.
Qed.

Lemma run_reachable (es : list Event) (w : World) :
  reachable cfg w -> forallb event_ok es = true ->
  reachable cfg (run cfg w es).
Proof.
  revert w. induction es as [|e es IH]; intros w Hw Hok; simpl; [done|].
  simpl in Hok. apply andb_true_iff in Hok as [He Hes].
  apply IH; [|done]. by constructor.
Qed.

(** ** Matching the held item against the order *)

(** C1.  In [serveToCustomer], a held pastry matches iff the order
    has at least one pastry item; a held cup matches iff some drink
    item of the order has a recipe all of whose required ingredients
    are flagged true in the cup's contents; two cups that agree on the
    required ingredients get the same verdict, so flags the recipes do
    not require never make the match fail; and once the call has
    found the order, it serves exactly when the item matches. *)
Theorem serveToCustomer_match (o : Order) :
  (forall q,
     matchFound cfg (Pastry q) o = true <->
     exists item, item ∈ items o /\ item_type item = "pastry") /\
  (forall contents q,
     matchFound cfg (Cup contents q) o = true <->
     exists item recipe,
       item ∈ items o /\ item_type item = "drink" /\
       DRINK_RECIPES cfg !! item_id item = Some recipe /\
       forall ingredient, (ingredient, true) ∈ recipe ->
         contents !! ingredient = Some true) /\
  (forall contents contents' q q',
     (forall item recipe ingredient,
        item ∈ items o -> item_type item = "drink" ->
        DRINK_RECIPES cfg !! item_id item = Some recipe ->
        (ingredient, true) ∈ recipe ->
        flag contents ingredient = flag contents' ingredient) ->
     matchFound cfg (Cup contents q) o = matchFound cfg (Cup contents' q') o) /\
  (forall w c held i,
     grabbedObject (physicsState w) = Some held ->
     stillEntering w c = false ->
     findOrderIndex cfg w c = Some i ->
     activeOrders (gameState w) !! i = Some o ->
     (snd (serveToCustomer cfg w c) = Served <->
      matchFound cfg held o = true)).
Proof.
  split; [|split; [|split]].
  - intros q. simpl. rewrite existsb_exists. split.
    + intros (item & Hin & Hty). exists item.
      split; [by apply list_elem_of_In|by apply String.eqb_eq].
    + intros (item & Hin & Hty). exists item.
      split; [by apply list_elem_of_In|by apply String.eqb_eq].
  - intros contents q. simpl. rewrite drinkMatches_spec. split.
    + intros (item & recipe & Hin & Hty & Hrec & Hm).
      exists item, recipe. repeat split; try done.
      intros ing Hing. apply flag_true.
      by apply (proj1 (recipeMatches_spec _ _) Hm).
    + intros (item & recipe & Hin & Hty & Hrec & Hm).
      exists item, recipe. repeat split; try done.
      apply recipeMatches_spec. intros ing Hing. apply flag_true. auto.
  - intros contents contents' q q' Hagree. simpl.
    apply eq_true_iff_eq. rewrite !drinkMatches_spec.
    split; intros (item & recipe & Hin & Hty & Hrec & Hm);
      exists item, recipe; repeat split; try done.
    + rewrite <- Hm. symmetry. apply recipeMatches_ext. eauto.
    + rewrite <- Hm. apply recipeMatches_ext. eauto.
  - intros w c held i Hheld Hent Hidx Ho.
    unfold serveToCustomer. rewrite Hheld, Hent, Hidx, Ho.
    destruct (matchFound cfg held o); [|done].
    destruct (completeOrder_Some w i (heldQuality held) o Ho) as [w' ->].
    done.
Qed.

(** C9.  Recipe matching is monotonic in the cup's contents: when a
    cup matches an order, the cup with one more flag set to true, as
    [addToCup] sets it, still matches. *)
Theorem matchFound_monotonic (o : Order) (contents : gmap string bool)
    (q : Z) (ingredient : string) :
  matchFound cfg (Cup contents q) o = true ->
  matchFound cfg (Cup (<[ingredient := true]> contents) q) o = true /\
  matchFound cfg (addToCup (Cup contents q) ingredient) o = true.
Proof.
  simpl. intros H. split; by apply drinkMatches_insert.
Qed.

(** ** Serving *)

(** C2.  In a state whose order list is consistent, every call to
    [serveToCustomer] either succeeds, removing exactly the order it
    found from [activeOrders], turning exactly that order's customer
    from waiting to leaving and emptying the hand, or is rejected for
    one of the four reasons and leaves the whole state as it was. *)
Theorem serveToCustomer_outcomes (w : World) (c : nat) :
  orders_consistent w ->
  let w' := fst (serveToCustomer cfg w c) in
  let out := snd (serveToCustomer cfg w c) in
  (out = Served /\
   exists held i o u,
     grabbedObject (physicsState w) = Some held /\
     stillEntering w c = false /\
     matchFound cfg held o = true /\
     activeOrders (gameState w) !! i = Some o /\
     (customer o = c \/ uuid cfg (customer o) = uuid cfg c) /\
     objects w !! customer o = Some u /\ state u = Waiting /\
     activeOrders (gameState w') = delete i (activeOrders (gameState w)) /\
     S (length (activeOrders (gameState w')))
       = length (activeOrders (gameState w)) /\
     state <$> objects w' !! customer o = Some Leaving /\
     (forall r, r ≠ customer o -> objects w' !! r = objects w !! r) /\
     physicsState w' = {| grabbedObject := None; isGrabbing := false |})
  \/
  (w' = w /\
   ((out = NothingToServe /\ grabbedObject (physicsState w) = None) \/
    (out = StillWalking /\ stillEntering w c = true) \/
    ((out = OrderPending \/ out = NoOrder) /\
     findOrderIndex cfg w c = None) \/
    (out = WrongItem /\
     exists held i o,
       grabbedObject (physicsState w) = Some held /\
       findOrderIndex cfg w c = Some i /\
       activeOrders (gameState w) !! i = Some o /\
       matchFound cfg held o = false))).
Proof.
  intros Hc. simpl. unfold serveToCustomer.
  destruct (grabbedObject (physicsState w)) as [held|] eqn:Hheld.
  2:{ right. split; [done|]. by left. }
  destruct (stillEntering w c) eqn:Hent.
  { right. split; [done|]. right. by left. }
  destruct (findOrderIndex cfg w c) as [i|] eqn:Hidx.
  2:{ right. split; [done|]. right. right. left. split; [|done].
      simpl. destruct (objects w !! c); auto. }
  destruct (findOrderIndex_Some w c i Hidx) as (o & Ho & Hwho).
  rewrite Ho.
  destruct (matchFound cfg held o) eqn:Hm.
  2:{ right. split; [done|]. right. right. right. split; [done|].
      by exists held, i, o. }
  destruct (completeOrder_Some w i (heldQuality held) o Ho) as [w' Hw'].
  rewrite Hw'. simpl. left. split; [done|].
  destruct (completeOrder_effect w w' i (heldQuality held) o Ho Hw')
    as (Hord & _ & _ & _ & _ & _ & _ & Hothers & Hstate).
  destruct Hc as [Hwait _].
  destruct (Hwait o) as (u & Hu & Hs).
  { apply list_elem_of_lookup. by exists i. }
  exists held, i, o, u. repeat split; try done.
  - rewrite Hord. rewrite length_delete by eauto.
    apply lookup_lt_Some in Ho. lia.
  - rewrite Hstate, Hu. done.
Qed.

(** ** Payment, tip and rating *)

Lemma itemPrice_charged (g : GameState) (item : MenuItem) :
  itemPrice g item = chargedPrice g item.
Proof.
  unfold itemPrice, chargedPrice, listedPrice.
  by destruct (menuPrices g !! item_id item) as [p|].
Qed.

Lemma chargedPrice_listed (g : GameState) (item : MenuItem) :
  (forall id p, menuPrices g !! id = Some p -> ~ p == 0) ->
  chargedPrice g item = listedPrice g item.
Proof.
  intros Hpos. unfold chargedPrice, listedPrice.
  destruct (menuPrices g !! item_id item) as [p|] eqn:Hp; [|done].
  destruct (Qeq_bool p 0) eqn:Hz; [|done].
  apply Qeq_bool_iff in Hz. by destruct (Hpos _ _ Hp).
Qed.

Lemma foldl_payment (g : GameState) (l : list MenuItem) (a : Q) :
  foldl (fun sum item => sum + itemPrice g item) a l
  == a + Qsum (chargedPrice g <$> l).
Proof.
  revert a. induction l as [|item rest IH]; intros a; simpl.
  - ring.
  - rewrite IH. unfold Qsum. simpl.
    rewrite (itemPrice_charged g item). symmetry. apply Qplus_assoc.
Qed.

Lemma clamp_bounds (x : Q) : 1 <= clamp x 1 5 <= 5.
Proof.
  unfold clamp. split.
  - apply Q.le_max_l.
  - apply Q.max_lub; [discriminate|apply Q.le_min_l].
Qed.

(** C3, amended.  [completeOrder(order, quality)] takes as payment
    the sum, over the order's items, of the menu price of the item,
    with 4 in place of a price that is not listed or is 0 (so that,
    when no listed price is 0, it is the sum of the menu prices with
    4 for an unlisted item); the tip is the floor of
    payment * 0.2 * m with m = 1.3 from quality 80, 1.1 from quality
    50 and 0.8 below; money grows by payment + tip,
    [customersServed] by exactly 1, and the rating moves by +0.1, 0
    or -0.1 on the same thresholds and is clamped to [1, 5]; a
    payment of 5 at quality 90 gives tip 1 and total 6. *)
Theorem completeOrder_accounting (w : World) (i : nat) (o : Order)
    (quality : Z) :
  activeOrders (gameState w) !! i = Some o ->
  exists w',
    completeOrder w i quality = Some w' /\
    let payment := orderPayment (gameState w) o in
    let tip := orderTip payment quality in
    payment == Qsum (chargedPrice (gameState w) <$> items o) /\
    ((forall id p, menuPrices (gameState w) !! id = Some p -> ~ p == 0) ->
     payment == Qsum (listedPrice (gameState w) <$> items o)) /\
    ((80 <= quality)%Z ->
       tip = Qfloor (payment * (2 # 10) * (13 # 10)) /\
       rating (gameState w')
         = clamp (rating (gameState w) + (1 # 10)) 1 5) /\
    ((50 <= quality < 80)%Z ->
       tip = Qfloor (payment * (2 # 10) * (11 # 10)) /\
       rating (gameState w') = clamp (rating (gameState w) + 0) 1 5) /\
    ((quality < 50)%Z ->
       tip = Qfloor (payment * (2 # 10) * (8 # 10)) /\
       rating (gameState w')
         = clamp (rating (gameState w) + - (1 # 10)) 1 5) /\
    money (gameState w')
      = money (gameState w) + (payment + inject_Z tip) /\
    customersServed (gameState w')
      = (customersServed (gameState w) + 1)%Z /\
    1 <= rating (gameState w') <= 5 /\
    (payment == 5 -> quality = 90%Z ->
       tip = 1%Z /\ payment + inject_Z tip == 6).
Proof.
  intros Ho.
  destruct (completeOrder_Some w i quality o Ho) as [w' Hw'].
  exists w'. split; [done|].
  destruct (completeOrder_effect w w' i quality o Ho Hw')
    as (_ & Hmoney & Hrating & Hserved & _).
  cbv zeta.
  split; [unfold orderPayment; rewrite foldl_payment; ring|].
  split.
  { intros Hpos. unfold orderPayment. rewrite foldl_payment.
    assert (Hmap : chargedPrice (gameState w) <$> items o
                   = listedPrice (gameState w) <$> items o).
    { apply list_fmap_ext. intros _ item _.
      by apply chargedPrice_listed. }
    rewrite Hmap. ring. }
  repeat split.
  - unfold orderTip, tipMultiplier.
    destruct (80 <=? quality)%Z eqn:E; [done|]. lia.
  - rewrite Hrating. unfold ratingChange, clamp.
    destruct (80 <=? quality)%Z eqn:E; [done|]. lia.
  - unfold orderTip, tipMultiplier.
    destruct (80 <=? quality)%Z eqn:E; [lia|].
    destruct (50 <=? quality)%Z eqn:E'; [done|]. lia.
  - rewrite Hrating. unfold ratingChange, clamp.
    destruct (80 <=? quality)%Z eqn:E; [lia|].
    destruct (50 <=? quality)%Z eqn:E'; [done|]. lia.
  - unfold orderTip, tipMultiplier.
    destruct (80 <=? quality)%Z eqn:E; [lia|].
    destruct (50 <=? quality)%Z eqn:E'; [lia|]. done.
  - rewrite Hrating. unfold ratingChange, clamp.
    destruct (80 <=? quality)%Z eqn:E; [lia|].
    destruct (50 <=? quality)%Z eqn:E'; [lia|]. done.
  - done.
  - done.
  - rewrite Hrating. apply clamp_bounds.
  - rewrite Hrating. apply clamp_bounds.
  - subst quality. unfold orderTip.
    change (tipMultiplier 90) with (13 # 10).
    rewrite (Qfloor_comp _ (5 * (2 # 10) * (13 # 10))); [done|].
    by rewrite H.
  - subst quality. unfold orderTip.
    change (tipMultiplier 90) with (13 # 10).
    rewrite (Qfloor_comp _ (5 * (2 # 10) * (13 # 10))) by (by rewrite H).
    rewrite H. reflexivity.
Qed.

(** ** Comparisons *)

Lemma Qlt_bool_iff (x y : Q) : Qlt_bool x y = true <-> x < y.
Proof.
  unfold Qlt_bool. rewrite negb_true_iff. split.
  - intros H. apply Qnot_le_lt. intros Hle.
    apply Qle_bool_iff in Hle. congruence.
  - intros H. destruct (Qle_bool y x) eqn:E; [|done].
    apply Qle_bool_iff in E. by apply Qlt_not_le in H.
Qed.

Lemma Qle_bool_false (x y : Q) : Qle_bool x y = false <-> y < x.
Proof.
  rewrite <- Qlt_bool_iff. unfold Qlt_bool. by rewrite negb_true_iff.
Qed.


(** ** Rounding to double precision *)















(** ** The timing game *)




(** ** The tap game *)

Lemma tap_input (w : World) (now : Z) :
  active (miniGameState w) = true ->
  mg_type (miniGameState w) = Some Tap ->
  let m := miniGameState w in
  let m' := miniGameState (handleMiniGameInput w now) in
  tapProgress m' = tapProgress m + 1 /\
  tapRequired m' = tapRequired m /\
  (tapRequired m <= tapProgress m + 1 ->
     active m' = false /\
     mg_quality m' = tapQuality (now - mg_startTime m)) /\
  (tapProgress m + 1 < tapRequired m ->
     active m' = true /\ mg_quality m' = mg_quality m).
Proof.
  intros Ha Ht. cbv zeta. unfold handleMiniGameInput. rewrite Ha, Ht. simpl.
  destruct (Qle_bool _ _) eqn:E; simpl.
  - apply Qle_bool_iff in E. repeat split; try done; intros; exfalso; lra.
  - apply Qle_bool_false in E. repeat split; try done; intros; exfalso; lra.
Qed.

Lemma tap_tick (w : World) :
  active (miniGameState w) = true ->
  mg_type (miniGameState w) = Some Tap ->
  let m := miniGameState w in
  let m' := miniGameState (updateMiniGame w) in
  (0 < tapProgress m -> tapProgress m' = tapProgress m - (3 # 100)) /\
  (tapProgress m <= 0 -> tapProgress m' = tapProgress m) /\
  tapRequired m' = tapRequired m /\
  active m' = true /\ mg_quality m' = mg_quality m.
Proof.
  intros Ha Ht. cbv zeta. unfold updateMiniGame. rewrite Ha, Ht. simpl.
  destruct (Qlt_bool _ _) eqn:E; simpl.
  - apply Qlt_bool_iff in E. repeat split; try done; intros; exfalso; lra.
  - apply not_true_iff_false in E. rewrite Qlt_bool_iff in E.
    repeat split; try done; intros; exfalso; by apply E.
Qed.

Lemma tapQuality_cases (elapsed : Z) :
  ((elapsed < 2000)%Z -> tapQuality elapsed = 100%Z) /\
  ((2000 <= elapsed < 3500)%Z -> tapQuality elapsed = 70%Z) /\
  ((3500 <= elapsed)%Z -> tapQuality elapsed = 40%Z).
Proof.
  unfold tapQuality.
  destruct (elapsed <? 2000)%Z eqn:E1; destruct (elapsed <? 3500)%Z eqn:E2;
    repeat split; intros; try done; lia.
Qed.

(** ** What the player's actions preserve *)

Lemma spawnCustomer_frame (w : World) (rType rDrink rChance rPastry : Q)
    (now : Z) :
  physicsState (spawnCustomer cfg w rType rDrink rChance rPastry now)
    = physicsState w /\
  miniGameState (spawnCustomer cfg w rType rDrink rChance rPastry now)
    = miniGameState w.
Proof.
  unfold spawnCustomer. destruct (_ <=? _)%nat; [done|].
  destruct (pick rType (CUSTOMER_TYPES cfg)) as [ty|]; [|done].
  unfold animateCustomerEnter.
  match goal with |- context [enterFrame ?w0 _ _] => set (w1 := w0) end.
  destruct (enterFrame_frame w1 (nextObject w) now)
    as (_ & _ & _ & _ & -> & -> & _).
  done.
Qed.

Lemma serveToCustomer_frame (w : World) (c : nat) :
  miniGameState (fst (serveToCustomer cfg w c)) = miniGameState w /\
  (physicsState (fst (serveToCustomer cfg w c)) = physicsState w \/
   grabbedObject (physicsState (fst (serveToCustomer cfg w c))) = None).
Proof.
  destruct (serveToCustomer_cases w c)
    as [[-> _] | (held & i & o & w' & _ & _ & _ & Ho & _ & Hw' & ->)];
    [by auto|].
  simpl. split; [|by right].
  by destruct (completeOrder_effect w w' i (heldQuality held) o Ho Hw')
    as (_ & _ & _ & _ & _ & -> & _).
Qed.

Lemma handleMiniGameInput_tap_bounded (w : World) (now : Z) :
  tap_bounded w -> tap_bounded (handleMiniGameInput w now).
Proof.
  intros [Hlow Hreq]. unfold handleMiniGameInput.
  destruct (negb _); [done|].
  destruct (mg_type (miniGameState w)) as [[]|]; try done.
  destruct (Qle_bool _ _); unfold tap_bounded; simpl;
    (split; [lra|done]).
Qed.

Lemma handleMiniGameInput_held (w : World) (now : Z) :
  held_untouched w -> held_untouched (handleMiniGameInput w now).
Proof.
  intros Hh.
  assert (Hend : forall w0, held_untouched w0 ->
            held_untouched (endMiniGame w0)).
  { intros w0 H0 held. unfold endMiniGame; simpl.
    destruct (callback (miniGameState w0)); simpl; [|by apply H0].
    destruct (grabbedObject (physicsState w0)) as [h|] eqn:Hg; [|done].
    simpl. intros [= <-]. specialize (H0 h Hg). by destruct h. }
  unfold handleMiniGameInput. destruct (negb _); [done|].
  destruct (mg_type (miniGameState w)) as [[]|]; try done.
  - by apply Hend.
  - destruct (Qle_bool _ _); [by apply Hend|done].
Qed.

Lemma tryInteract_player (w : World) (target : option Target) (r : Q)
    (now : Z) :
  tap_bounded w -> held_untouched w ->
  tap_bounded (tryInteract cfg w target r now) /\
  held_untouched (tryInteract cfg w target r now).
Proof.
  intros Ht Hh. unfold tryInteract.
  destruct (active (miniGameState w)).
  { split; [by apply handleMiniGameInput_tap_bounded
           |by apply handleMiniGameInput_held]. }
  assert (Hnone : forall w0, grabbedObject (physicsState w0) = None ->
            held_untouched w0).
  { intros w0 H0 held. by rewrite H0. }
  destruct (isGrabbing (physicsState w)).
  - destruct target as [t|].
    + destruct (grabbedObject (physicsState w)) as [held|] eqn:Hheld;
        [|done].
      destruct t; unfold dropItem, trashItem; rewrite ?Hheld;
        try (split; [done|by apply Hnone]).
      * destruct (isCup held); [|done]. split; [|done].
        destruct Ht as [_ Hreq]. unfold tap_bounded; simpl.
        split; [reflexivity|done].
      * destruct (isCup held); [|done]. split; [|done].
        destruct Ht as [_ Hreq]. unfold tap_bounded; simpl.
        split; [reflexivity|done].
      * destruct (isCup held); [|done]. split; [done|].
        intros h; simpl. intros [= <-]. specialize (Hh held Hheld).
        by destruct held.
      * destruct (serveToCustomer_frame w c) as [Hm Hp]. split.
        -- unfold tap_bounded. by rewrite Hm.
        -- destruct Hp as [Hp|Hp]; [|by apply Hnone].
           unfold held_untouched. by rewrite Hp.
    + unfold dropItem.
      destruct (grabbedObject (physicsState w)); [|done].
      split; [done|by apply Hnone].
  - destruct target as [[]|]; try done.
    + split; [done|]. intros h; simpl. by intros [= <-].
    + split; [done|]. intros h; simpl. by intros [= <-].
Qed.

Lemma step_player (w : World) (e : Event) :
  tap_bounded w -> held_untouched w ->
  tap_bounded (step cfg w e) /\ held_untouched (step cfg w e).
Proof.
  intros Ht Hh. destruct e; simpl; try done.
  - destruct (spawnCustomer_frame w rType rDrink rChance rPastry now)
      as [Hp Hm].
    unfold tap_bounded, held_untouched. by rewrite Hp, Hm.
  - destruct (enterFrame_frame w c now) as (_ & _ & _ & _ & Hp & Hm & _).
    unfold tap_bounded, held_untouched. by rewrite Hp, Hm.
  - destruct (leaveFrame_frame w c) as (_ & _ & _ & _ & Hp & Hm & _).
    unfold tap_bounded, held_untouched. by rewrite Hp, Hm.
  - destruct (isPlaying (gameState w)); [|done].
    by apply tryInteract_player.
  - destruct (isPlaying (gameState w)); [|done].
    destruct (active (miniGameState w)); [done|]. by destruct shopOpen.
  - split; [|by (unfold updateMiniGame; destruct (negb _);
                 [|destruct (mg_type (miniGameState w)) as [[]|];
                   [| destruct (Qlt_bool _ _) |]])].
    destruct Ht as [Hlow Hreq]. unfold updateMiniGame.
    destruct (negb _); [done|].
    destruct (mg_type (miniGameState w)) as [[]|]; try done.
    destruct (Qlt_bool _ _) eqn:E; [|done].
    apply Qlt_bool_iff in E. unfold tap_bounded; simpl.
    split; [lra|done].
Qed.

Lemma reachable_player (w : World) :
  reachable cfg w -> tap_bounded w /\ held_untouched w.
Proof.
  induction 1 as [|w e _ [IHt IHh] _].
  - split; [by split|]. intros h Hh. done.
  - by apply step_player.
Qed.

(** C7, amended.  In the tap game each input adds exactly 1 to the
    counter; each update tick takes 0.03 off while the counter is
    above 0 and never ends the game or sets the quality, so the
    counter can dip below 0 but stays above -0.03; the game ends
    exactly on the input that brings the counter to the threshold,
    which is 12, with quality 100 if fewer than 2000 ms have passed
    since the start, 70 if fewer than 3500, else 40. *)
Theorem tap_game_counter :
  (forall w now,
     active (miniGameState w) = true ->
     mg_type (miniGameState w) = Some Tap ->
     let m := miniGameState w in
     let m' := miniGameState (handleMiniGameInput w now) in
     tapProgress m' = tapProgress m + 1 /\
     (tapRequired m <= tapProgress m + 1 ->
        active m' = false /\
        mg_quality m' = tapQuality (now - mg_startTime m)) /\
     (tapProgress m + 1 < tapRequired m ->
        active m' = true /\ mg_quality m' = mg_quality m)) /\
  (forall elapsed,
     ((elapsed < 2000)%Z -> tapQuality elapsed = 100%Z) /\
     ((2000 <= elapsed < 3500)%Z -> tapQuality elapsed = 70%Z) /\
     ((3500 <= elapsed)%Z -> tapQuality elapsed = 40%Z)) /\
  (forall w,
     active (miniGameState w) = true ->
     mg_type (miniGameState w) = Some Tap ->
     let m := miniGameState w in
     let m' := miniGameState (updateMiniGame w) in
     (0 < tapProgress m -> tapProgress m' = tapProgress m - (3 # 100)) /\
     (tapProgress m <= 0 -> tapProgress m' = tapProgress m) /\
     active m' = true /\ mg_quality m' = mg_quality m) /\
  (forall w,
     reachable cfg w ->
     - (3 # 100) < tapProgress (miniGameState w) /\
     tapRequired (miniGameState w) = 12).
Proof.
  split; [|split; [|split]].
  - intros w now Ha Ht. cbv zeta.
    destruct (tap_input w now Ha Ht) as (H1 & _ & H2 & H3). auto.
  - apply tapQuality_cases.
  - intros w Ha Ht. cbv zeta.
    destruct (tap_tick w Ha Ht) as (H1 & H2 & _ & H3 & H4). auto.
  - intros w Hw. by destruct (reachable_player w Hw) as [Ht _].
Qed.

(** ** The shop *)

Lemma buyUpgrade_cases (w : World) (u : Upgrade) :
  (money (gameState w) < price u /\ buyUpgrade w u = w) \/
  (price u <= money (gameState w) /\
   exists w1,
     buyUpgrade w u
       = match effect u with Some f => f w1 | None => w1 end /\
     money (gameState w1) = money (gameState w) - price u /\
     ownedUpgrades (gameState w1)
       = Some (match ownedUpgrades (gameState w) with
               | Some l => l
               | None => []
               end ++ [upgrade_id u]) /\
     rating (gameState w1) = rating (gameState w) /\
     customersServed (gameState w1) = customersServed (gameState w) /\
     activeOrders (gameState w1) = activeOrders (gameState w) /\
     customers (gameState w1) = customers (gameState w) /\
     physicsState w1 = physicsState w /\
     miniGameState w1 = miniGameState w /\
     objects w1 = objects w).
Proof.
  unfold buyUpgrade. destruct (Qlt_bool _ _) eqn:E.
  - left. by apply Qlt_bool_iff in E.
  - right. apply not_true_iff_false in E. rewrite Qlt_bool_iff in E.
    split; [by apply Qnot_lt_le|]. eexists. split; [reflexivity|]. done.
Qed.

(** C8.  [buyUpgrade] rejects the purchase when money < price and
    then leaves the whole state, money and [ownedUpgrades] included,
    as it was; so, starting from non-negative money, no sequence of
    [buyUpgrade] calls makes money negative, as long as the effect
    closures of the upgrades do not themselves make it negative. *)
Theorem buyUpgrade_money_never_negative :
  (forall w u, money (gameState w) < price u -> buyUpgrade w u = w) /\
  (forall us w,
     0 <= money (gameState w) ->
     Forall (fun u => forall f w1, effect u = Some f ->
               0 <= money (gameState w1) ->
               0 <= money (gameState (f w1))) us ->
     0 <= money (gameState (foldl buyUpgrade w us))).
Proof.
  split.
  - intros w u Hlt. by destruct (buyUpgrade_cases w u) as [[_ ->]|[Hle _]];
      [|apply Qle_not_lt in Hle].
  - intros us w Hw Hus.
    revert w Hw. induction Hus as [|u us Hu _ IH]; intros w Hw; simpl;
      [done|].
    apply IH.
    destruct (buyUpgrade_cases w u)
      as [[_ ->]|(Hle & w1 & -> & Hm & _)]; [done|].
    assert (H1 : 0 <= money (gameState w1)) by (rewrite Hm; lra).
    destruct (effect u) as [f|] eqn:Hf; [|done]. by apply (Hu f).
Qed.

(** C10.  [buyUpgrade] makes no ownership check: called for an
    upgrade that is already in [ownedUpgrades], with money >= price,
    it deducts the price again and appends the id once more, so the
    list handed to the effect closure, if there is one, holds the id
    twice. *)
Theorem buyUpgrade_owned_again (w : World) (u : Upgrade)
    (owned : list string) :
  ownedUpgrades (gameState w) = Some owned ->
  upgrade_id u ∈ owned ->
  price u <= money (gameState w) ->
  exists w1,
    buyUpgrade w u = match effect u with Some f => f w1 | None => w1 end /\
    money (gameState w1) = money (gameState w) - price u /\
    ownedUpgrades (gameState w1) = Some (owned ++ [upgrade_id u]) /\
    ~ NoDup (owned ++ [upgrade_id u]).
Proof.
  intros Hown Hin Hle.
  destruct (buyUpgrade_cases w u) as [[Hlt _]|(_ & w1 & Hb & Hm & Ho & _)].
  { by apply Qle_not_lt in Hle. }
  exists w1. rewrite Hown in Ho. repeat split; try done.
  intros Hnd. apply NoDup_app in Hnd as (_ & Hdisj & _).
  apply (Hdisj _ Hin). by apply list_elem_of_singleton.
Qed.

(** ** When the order appears *)

Lemma enterFrame_order (w : World) (c : nat) (now : Z) :
  order <$> objects (enterFrame w c now) !! c = order <$> objects w !! c.
Proof.
  unfold enterFrame. destruct (objects w !! c) as [u|] eqn:Hu.
  - destruct (state u); try (by rewrite Hu).
    destruct (targetPos u) as [[tx tz]|]; [|by rewrite Hu].
    destruct (Qlt_bool _ _); simpl.
    + by rewrite lookup_insert_eq.
    + destruct (definedItems (order u)); simpl; by rewrite lookup_insert_eq.
  - by rewrite Hu.
Qed.

Lemma generateOrder_nonempty (rDrink rChance rPastry : Q) :
  generateOrder cfg rDrink rChance rPastry ≠ [].
Proof. unfold generateOrder. by destruct (Qlt_bool _ _). Qed.

(** C5, amended.  The order content of a customer is produced by the
    order generator when the customer is spawned and is carried by the
    customer from then on, also while it is entering.  The animation
    frame that turns the customer from entering to waiting registers
    the order in [activeOrders], with that content, when none of its
    items is undefined, and registers nothing when one is; a frame
    that leaves the customer entering registers nothing, and a frame
    of a customer that is not entering changes nothing at all.  In
    every reachable state a customer that is entering has no order in
    [activeOrders]. *)
Theorem order_generated_at_spawn_registered_on_arrival :
  (forall w rType rDrink rChance rPastry now ty,
     (length (customers (gameState w)) < MAX_CUSTOMERS cfg)%nat ->
     pick rType (CUSTOMER_TYPES cfg) = Some ty ->
     exists u,
       objects (spawnCustomer cfg w rType rDrink rChance rPastry now)
         !! nextObject w = Some u /\
       order u = generateOrder cfg rDrink rChance rPastry /\
       order u ≠ []) /\
  (forall w c now u,
     objects w !! c = Some u -> state u = Entering ->
     let w' := enterFrame w c now in
     (state <$> objects w' !! c = Some Entering /\
      activeOrders (gameState w') = activeOrders (gameState w)) \/
     (state <$> objects w' !! c = Some Waiting /\
      activeOrders (gameState w')
        = match definedItems (order u) with
          | Some l =>
              activeOrders (gameState w)
                ++ [{| customer := c; items := l; startTime := now |}]
          | None => activeOrders (gameState w)
          end)) /\
  (forall w c now,
     (forall u, objects w !! c = Some u -> state u <> Entering) ->
     enterFrame w c now = w) /\
  (forall w,
     reachable cfg w ->
     forall c u, objects w !! c = Some u -> state u = Entering ->
     forall o, o ∈ activeOrders (gameState w) -> customer o ≠ c).
Proof.
  split; [|split; [|split]].
  - intros w rType rDrink rChance rPastry now ty Hlen Hty.
    unfold spawnCustomer.
    destruct (_ <=? _)%nat eqn:E; [apply Nat.leb_le in E; lia|].
    rewrite Hty. unfold animateCustomerEnter.
    match goal with |- context [enterFrame ?w0 _ _] => set (w1 := w0) end.
    pose proof (enterFrame_order w1 (nextObject w) now) as Hord.
    assert (Hnew : order <$> objects w1 !! nextObject w
                   = Some (generateOrder cfg rDrink rChance rPastry)).
    { subst w1. simpl. rewrite lookup_alter_eq.
      by rewrite lookup_insert_eq. }
    rewrite Hnew in Hord.
    destruct (objects (enterFrame w1 (nextObject w) now) !! nextObject w)
      as [u|]; [|done].
    simpl in Hord. injection Hord as Hord.
    exists u. split; [done|]. split; [done|]. rewrite Hord.
    apply generateOrder_nonempty.
  - intros w c now u Hu Hs. cbv zeta. unfold enterFrame.
    rewrite Hu, Hs.
    destruct (targetPos u) as [[tx tz]|];
      [|by left; rewrite Hu; simpl; rewrite Hs].
    destruct (Qlt_bool _ _); simpl.
    + left. rewrite lookup_insert_eq. simpl. by rewrite Hs.
    + right. destruct (definedItems (order u)) as [l|]; simpl;
        by rewrite lookup_insert_eq.
  - intros w c now Hne. unfold enterFrame.
    destruct (objects w !! c) as [u|] eqn:Hu; [|done].
    specialize (Hne u eq_refl). by destruct (state u).
  - intros w Hw c u Hu Hs.
    destruct (reachable_consistent w Hw) as [Hc _].
    apply (consistent_not_waiting _ (objects w)); [done|].
    intros u' Hu'. congruence.
Qed.

End Properties.

(** * Further properties of the machine *)

Section Machine.

Variable cfg : Config.

(** ** The hand and the open mini-game *)

Lemma endMiniGame_hand (w : World) :
  hand_consistent w -> hand_consistent (endMiniGame w).
Proof.
  unfold hand_consistent, endMiniGame; simpl. intros H.
  destruct (callback (miniGameState w)); simpl; [|done].
  rewrite H. by destruct (grabbedObject (physicsState w)).
Qed.

Lemma handleMiniGameInput_hand (w : World) (now : Z) :
  hand_consistent w -> game_holds_cup w ->
  hand_consistent (handleMiniGameInput w now) /\
  game_holds_cup (handleMiniGameInput w now).
Proof.
  intros Hh Hg. unfold handleMiniGameInput.
  destruct (active (miniGameState w)) eqn:Ha; simpl; [|done].
  destruct (mg_type (miniGameState w)) as [[]|] eqn:Ht; [| |done].
  - split; [by apply endMiniGame_hand|]. intros Hact. simpl in Hact. done.
  - destruct (Qle_bool _ _).
    + split; [by apply endMiniGame_hand|]. intros Hact. simpl in Hact. done.
    + split; [done|]. intros _. specialize (Hg Ha). simpl. rewrite ?Ht in *. exact Hg.
Qed.

Lemma serveToCustomer_hand (w : World) (c : nat) :
  hand_consistent w -> hand_consistent (fst (serveToCustomer cfg w c)).
Proof.
  intros Hh.
  destruct (serveToCustomer_cases cfg w c)
    as [[-> _] | (held & i & o & w' & _ & _ & _ & _ & _ & _ & ->)]; done.
Qed.

Lemma tryInteract_hand (w : World) (target : option Target) (r : Q)
    (now : Z) :
  hand_consistent w -> game_holds_cup w ->
  hand_consistent (tryInteract cfg w target r now) /\
  game_holds_cup (tryInteract cfg w target r now).
Proof.
  intros Hh Hg. unfold tryInteract.
  destruct (active (miniGameState w)) eqn:Ha.
  { by apply handleMiniGameInput_hand. }
  assert (Hidle : forall w', miniGameState w' = miniGameState w ->
            game_holds_cup w').
  { intros w' Hm Hact. rewrite Hm in Hact. congruence. }
  assert (Hempty : forall w', grabbedObject (physicsState w') = None ->
            isGrabbing (physicsState w') = false -> hand_consistent w').
  { intros w' H1 H2. unfold hand_consistent. by rewrite H1, H2. }
  assert (Hfull : forall w' held, grabbedObject (physicsState w') = Some held ->
            isGrabbing (physicsState w') = true -> hand_consistent w').
  { intros w' held H1 H2. unfold hand_consistent. by rewrite H1, H2. }
  destruct (isGrabbing (physicsState w)) eqn:Hgrab.
  - destruct (grabbedObject (physicsState w)) as [held|] eqn:Hheld.
    2:{ unfold hand_consistent in Hh. rewrite Hgrab, Hheld in Hh. done. }
    destruct target as [t|].
    + destruct t; unfold dropItem, trashItem; rewrite ?Hheld;
        try (split; [by apply Hempty|by apply Hidle]).
      * destruct held as [contents q|q]; simpl; [|by split].
        split; [by apply (Hfull _ (Cup contents q))|].
        intros _. simpl. split; [by eauto|by left].
      * destruct held as [contents q|q]; simpl; [|by split].
        split; [by apply (Hfull _ (Cup contents q))|].
        intros _. simpl. split; [by eauto|by right].
      * destruct (isCup held); [|by split].
        split; [by eapply Hfull|by apply Hidle].
      * split; [by apply serveToCustomer_hand|].
        apply Hidle. by destruct (serveToCustomer_frame cfg w c).
    + unfold dropItem. rewrite Hheld.
      split; [by apply Hempty|by apply Hidle].
  - destruct target as [[]|]; try (by split).
    + split; [by eapply Hfull|by apply Hidle].
    + split; [by eapply Hfull|by apply Hidle].
Qed.

Lemma step_hand (w : World) (e : Event) :
  hand_consistent w -> game_holds_cup w ->
  hand_consistent (step cfg w e) /\ game_holds_cup (step cfg w e).
Proof.
  intros Hh Hg. destruct e; simpl; try done.
  - destruct (spawnCustomer_frame cfg w rType rDrink rChance rPastry now)
      as [Hp Hm].
    unfold hand_consistent, game_holds_cup. by rewrite Hp, Hm.
  - destruct (enterFrame_frame w c now) as (_ & _ & _ & _ & Hp & Hm & _).
    unfold hand_consistent, game_holds_cup. by rewrite Hp, Hm.
  - destruct (leaveFrame_frame w c) as (_ & _ & _ & _ & Hp & Hm & _).
    unfold hand_consistent, game_holds_cup. by rewrite Hp, Hm.
  - destruct (isPlaying (gameState w)); [|done].
    by apply tryInteract_hand.
  - destruct (isPlaying (gameState w)); [|done].
    destruct (active (miniGameState w)); [|by destruct shopOpen].
    split; [done|]. intros Hact. simpl in Hact. done.
  - unfold updateMiniGame.
    destruct (active (miniGameState w)) eqn:Ha; simpl; [|done].
    destruct (mg_type (miniGameState w)) as [[]|] eqn:Ht; [| |done].
    + split; [done|]. intros _. specialize (Hg Ha). simpl. rewrite ?Ht in *. exact Hg.
    + destruct (Qlt_bool _ _); [|done].
      split; [done|]. intros _. specialize (Hg Ha). simpl. rewrite ?Ht in *. exact Hg.
Qed.

Lemma reachable_hand (w : World) :
  reachable cfg w -> hand_consistent w /\ game_holds_cup w.
Proof.
  induction 1 as [|w e _ [IHh IHg] _].
  - split; [done|]. intros Hact. simpl in Hact. done.
  - by apply step_hand.
Qed.

(** ** The marker of the timing game *)

Lemma handleMiniGameInput_marker (w : World) (now : Z) :
  markerPos (miniGameState (handleMiniGameInput w now))
    = markerPos (miniGameState w) /\
  markerDirection (miniGameState (handleMiniGameInput w now))
    = markerDirection (miniGameState w).
Proof.
  unfold handleMiniGameInput. destruct (negb _); [done|].
  destruct (mg_type (miniGameState w)) as [[]|]; try done.
  by destruct (Qle_bool _ _).
Qed.

Lemma marker_bounded_start (w : World) :
  markerPos (miniGameState w) = 0 ->
  markerDirection (miniGameState w) = 1 -> marker_bounded w.
Proof.
  intros Hp Hd. unfold marker_bounded. rewrite Hp, Hd. left.
  repeat split; reflexivity.
Qed.

Lemma marker_bounded_same (w w' : World) :
  markerPos (miniGameState w') = markerPos (miniGameState w) ->
  markerDirection (miniGameState w') = markerDirection (miniGameState w) ->
  marker_bounded w -> marker_bounded w'.
Proof. unfold marker_bounded. by intros -> ->. Qed.

Lemma tryInteract_marker (w : World) (target : option Target) (r : Q)
    (now : Z) :
  marker_bounded w -> marker_bounded (tryInteract cfg w target r now).
Proof.
  intros Hm. unfold tryInteract.
  destruct (active (miniGameState w)).
  { destruct (handleMiniGameInput_marker w now) as [Hp Hd].
    by apply (marker_bounded_same w). }
  destruct (isGrabbing (physicsState w)).
  - destruct target as [t|].
    + destruct (grabbedObject (physicsState w)) as [held|] eqn:Hheld;
        [|done].
      destruct t; unfold dropItem, trashItem; rewrite ?Hheld; try done.
      * destruct (isCup held); [|done]. by apply marker_bounded_start.
      * destruct (isCup held); [|done]. by apply marker_bounded_start.
      * by destruct (isCup held).
      * destruct (serveToCustomer_frame cfg w c) as [Hsame _].
        apply (marker_bounded_same w); [by rewrite Hsame|by rewrite Hsame|done].
    + unfold dropItem. by destruct (grabbedObject (physicsState w)).
  - by destruct target as [[]|].
Qed.

Lemma updateMiniGame_marker (w : World) :
  marker_bounded w -> marker_bounded (updateMiniGame w).
Proof.
  intros Hm. unfold updateMiniGame. destruct (negb _); [done|].
  destruct (mg_type (miniGameState w)) as [[]|]; [| |done].
  2:{ by destruct (Qlt_bool _ _). }
  unfold marker_bounded in *; simpl.
  set (p := markerPos (miniGameState w)) in *.
  set (d := markerDirection (miniGameState w)) in *.
  destruct (Qle_bool 100 (p + d * (12 # 10))) eqn:Ehigh;
    destruct (Qle_bool (p + d * (12 # 10)) 0) eqn:Elow; simpl;
    try apply Qle_bool_iff in Ehigh; try apply Qle_bool_false in Ehigh;
    try apply Qle_bool_iff in Elow; try apply Qle_bool_false in Elow;
    destruct Hm as [(Hd & H1 & H2)|(Hd & H1 & H2)];
    try (exfalso; lra);
    try (left; repeat split; lra);
    try (right; repeat split; lra).
Qed.

Lemma step_marker (w : World) (e : Event) :
  marker_bounded w -> marker_bounded (step cfg w e).
Proof.
  intros Hm. destruct e; simpl; try done.
  - destruct (spawnCustomer_frame cfg w rType rDrink rChance rPastry now)
      as [_ Hs].
    apply (marker_bounded_same w); [by rewrite Hs|by rewrite Hs|done].
  - destruct (enterFrame_frame w c now) as (_ & _ & _ & _ & _ & Hs & _).
    apply (marker_bounded_same w); [by rewrite Hs|by rewrite Hs|done].
  - destruct (leaveFrame_frame w c) as (_ & _ & _ & _ & _ & Hs & _).
    apply (marker_bounded_same w); [by rewrite Hs|by rewrite Hs|done].
  - destruct (isPlaying (gameState w)); [|done]. by apply tryInteract_marker.
  - destruct (isPlaying (gameState w)); [|done].
    destruct (active (miniGameState w)); [done|]. by destruct shopOpen.
  - by apply updateMiniGame_marker.
Qed.

Lemma reachable_marker (w : World) :
  reachable cfg w -> marker_bounded w.
Proof.
  induction 1 as [|w e _ IH _]; [|by apply step_marker].
  by apply marker_bounded_start.
Qed.

(** ** The rating *)

Lemma spawnCustomer_account (w : World) (rType rDrink rChance rPastry : Q)
    (now : Z) :
  let w' := spawnCustomer cfg w rType rDrink rChance rPastry now in
  money (gameState w') = money (gameState w) /\
  rating (gameState w') = rating (gameState w) /\
  customersServed (gameState w') = customersServed (gameState w).
Proof.
  cbv zeta. unfold spawnCustomer. destruct (_ <=? _)%nat; [done|].
  destruct (pick rType (CUSTOMER_TYPES cfg)) as [ty|]; [|done].
  unfold animateCustomerEnter.
  match goal with |- context [enterFrame ?w0 _ _] => set (w1 := w0) end.
  destruct (enterFrame_frame w1 (nextObject w) now)
    as (-> & -> & -> & _).
  done.
Qed.

Lemma serveToCustomer_rating (w : World) (c : nat) :
  held_untouched w -> rating (gameState w) = 5 ->
  rating (gameState (fst (serveToCustomer cfg w c))) = 5.
Proof.
  intros Hh Hr.
  destruct (serveToCustomer_cases cfg w c)
    as [[-> _] | (held & i & o & w' & Hheld & _ & _ & Ho & _ & Hw' & ->)];
    [done|].
  simpl.
  destruct (completeOrder_effect w w' i (heldQuality held) o Ho Hw')
    as (_ & _ & -> & _).
  rewrite Hr. unfold heldQuality.
  specialize (Hh held Hheld). destruct held; simpl in Hh; by rewrite Hh.
Qed.

Lemma step_rating (w : World) (e : Event) :
  held_untouched w -> rating (gameState w) = 5 ->
  rating (gameState (step cfg w e)) = 5.
Proof.
  intros Hh Hr. destruct e; simpl; try done.
  - by destruct (spawnCustomer_account w rType rDrink rChance rPastry now)
      as (_ & -> & _).
  - by destruct (enterFrame_frame w c now) as (_ & -> & _).
  - by destruct (leaveFrame_frame w c) as (_ & _ & -> & _).
  - destruct (isPlaying (gameState w)); [|done].
    destruct (tryInteract_cases cfg w target r now) as [(-> & _)|[c0 ->]];
      [done|].
    by apply serveToCustomer_rating.
  - destruct (isPlaying (gameState w)); [|done].
    destruct (active (miniGameState w)); [done|]. by destruct shopOpen.
  - unfold updateMiniGame. destruct (negb _); [done|].
    destruct (mg_type (miniGameState w)) as [[]|]; try done.
    by destruct (Qlt_bool _ _).
Qed.

Lemma reachable_rating (w : World) :
  reachable cfg w -> rating (gameState w) = 5.
Proof.
  induction 1 as [|w e Hw IH _]; [done|].
  apply step_rating; [|done]. by destruct (reachable_player cfg w Hw).
Qed.

(** ** The queue *)

Lemma leaveFrame_customers (w : World) (c : nat) :
  customers (gameState (leaveFrame w c))
    `sublist_of` customers (gameState w).
Proof.
  unfold leaveFrame. destruct (objects w !! c) as [u|]; [|done].
  destruct (state u); try done.
  destruct (Qlt_bool _ _); [done|]. simpl.
  destruct (indexOf c (customers (gameState w))); [|done].
  simpl. apply sublist_delete.
Qed.

(** The two stages of [completeOrder]: the bookkeeping, which keeps
    the order list consistent, and the first frame of the leaving
    animation. *)
Lemma completeOrder_stages (w w' : World) (i : nat) (quality : Z)
    (o : Order) :
  orders_consistent w ->
  activeOrders (gameState w) !! i = Some o ->
  completeOrder w i quality = Some w' ->
  exists w1,
    w' = leaveFrame w1 (customer o) /\
    orders_consistent w1 /\
    activeOrders (gameState w1) = delete i (activeOrders (gameState w)) /\
    objects w1
      = alter (fun u => with_state u Leaving) (customer o) (objects w) /\
    customers (gameState w1) = customers (gameState w) /\
    nextObject w1 = nextObject w /\
    forall o', o' ∈ delete i (activeOrders (gameState w)) ->
      customer o' ≠ customer o.
Proof.
  intros Hc Hi. unfold completeOrder. rewrite Hi. intros [= <-].
  unfold animateCustomerLeave. eexists. split; [reflexivity|].
  destruct (consistent_delete _ _ _ _ Hc Hi) as [Hdel Hfree].
  repeat split; try done.
  - apply (consistent_change _ (objects w) _ (customer o)); [done| |done].
    intros r Hr. simpl. by rewrite lookup_alter_ne.
  - by destruct Hdel.
Qed.

Lemma completeOrder_customers (w w' : World) (i : nat) (quality : Z) :
  completeOrder w i quality = Some w' ->
  customers (gameState w') `sublist_of` customers (gameState w).
Proof.
  unfold completeOrder.
  destruct (activeOrders (gameState w) !! i) as [o|]; [|done].
  intros [= <-]. unfold animateCustomerLeave.
  etrans; [apply leaveFrame_customers|]. done.
Qed.

Lemma serveToCustomer_customers (w : World) (c : nat) :
  customers (gameState (fst (serveToCustomer cfg w c)))
    `sublist_of` customers (gameState w) /\
  nextObject (fst (serveToCustomer cfg w c)) = nextObject w.
Proof.
  destruct (serveToCustomer_cases cfg w c)
    as [[-> _] | (held & i & o & w' & _ & _ & _ & Ho & _ & Hw' & ->)];
    [done|].
  simpl. split; [by eapply completeOrder_customers|].
  by destruct (completeOrder_effect w w' i (heldQuality held) o Ho Hw')
    as (_ & _ & _ & _ & _ & _ & -> & _).
Qed.

Lemma queue_bounded_sublist (w w' : World) :
  queue_bounded cfg w ->
  customers (gameState w') `sublist_of` customers (gameState w) ->
  nextObject w' = nextObject w ->
  queue_bounded cfg w'.
Proof.
  intros (Hnd & Hlen & Hlt) Hsub Hnext. split; [|split].
  - by eapply sublist_NoDup.
  - apply sublist_length in Hsub. lia.
  - intros c Hc. rewrite Hnext. apply Hlt. by eapply elem_of_sublist.
Qed.

Lemma spawnCustomer_queue (w : World) (rType rDrink rChance rPastry : Q)
    (now : Z) :
  queue_bounded cfg w ->
  queue_bounded cfg (spawnCustomer cfg w rType rDrink rChance rPastry now).
Proof.
  intros (Hnd & Hlen & Hlt). unfold spawnCustomer.
  destruct (_ <=? _)%nat eqn:Hcap; [done|].
  apply Nat.leb_gt in Hcap.
  destruct (pick rType (CUSTOMER_TYPES cfg)) as [ty|]; [|done].
  unfold animateCustomerEnter.
  match goal with |- context [enterFrame ?w0 _ _] => set (w1 := w0) end.
  unfold queue_bounded.
  destruct (enterFrame_frame w1 (nextObject w) now)
    as (_ & _ & _ & -> & _ & _ & ->).
  subst w1; simpl. split; [|split].
  - apply NoDup_app. split; [done|]. split; [|apply NoDup_singleton].
    intros x Hx Hx'. apply list_elem_of_singleton in Hx'. subst x.
    specialize (Hlt _ Hx). lia.
  - rewrite length_app. simpl. lia.
  - intros c Hc. apply elem_of_app in Hc as [Hc|Hc].
    + specialize (Hlt _ Hc). lia.
    + apply list_elem_of_singleton in Hc. subst c. lia.
Qed.

Lemma step_queue (w : World) (e : Event) :
  queue_bounded cfg w -> queue_bounded cfg (step cfg w e).
Proof.
  intros Hq. destruct e; simpl; try done.
  - split; [constructor|]. split; [simpl; lia|].
    intros c Hc. by apply elem_of_nil in Hc.
  - split; [constructor|]. split; [simpl; lia|].
    intros c Hc. by apply elem_of_nil in Hc.
  - by apply spawnCustomer_queue.
  - destruct (enterFrame_frame w c now) as (_ & _ & _ & Hc & _ & _ & Hn).
    apply (queue_bounded_sublist w); [done| |done]. by rewrite Hc.
  - destruct (leaveFrame_frame w c) as (_ & _ & _ & _ & _ & _ & Hn).
    apply (queue_bounded_sublist w); [done| |done].
    apply leaveFrame_customers.
  - destruct (isPlaying (gameState w)); [|done].
    destruct (tryInteract_cases cfg w target r now)
      as [(Hg & _ & Hn)|[c0 ->]].
    + apply (queue_bounded_sublist w); [done| |done]. by rewrite Hg.
    + destruct (serveToCustomer_customers w c0) as [Hsub Hn].
      by apply (queue_bounded_sublist w).
  - destruct (isPlaying (gameState w)); [|done].
    destruct (active (miniGameState w)); [done|]. by destruct shopOpen.
  - unfold updateMiniGame. destruct (negb _); [done|].
    destruct (mg_type (miniGameState w)) as [[]|]; try done.
    by destruct (Qlt_bool _ _).
Qed.

Lemma reachable_queue (w : World) :
  reachable cfg w -> queue_bounded cfg w.
Proof.
  induction 1 as [|w e _ IH _]; [|by apply step_queue].
  split; [constructor|]. split; [simpl; lia|].
  intros c Hc. by apply elem_of_nil in Hc.
Qed.

(** ** The life of a customer object *)

Lemma later_stage_refl (u : Customer) : later_stage u u.
Proof. by split. Qed.

Lemma later_stage_trans (u1 u2 u3 : Customer) :
  later_stage u1 u2 -> later_stage u2 u3 -> later_stage u1 u3.
Proof.
  intros (H1 & H2 & H3) (H4 & H5 & H6). split; [lia|]. split; congruence.
Qed.

Lemma enterFrame_later (w : World) (c' c : nat) (now : Z) (u : Customer) :
  objects w !! c = Some u ->
  exists u', objects (enterFrame w c' now) !! c = Some u' /\
    later_stage u u'.
Proof.
  intros Hu. destruct (decide (c = c')) as [<-|Hne].
  2:{ exists u. by rewrite enterFrame_objects_ne. }
  unfold enterFrame. rewrite Hu.
  destruct (state u) eqn:Hs; try (exists u; by rewrite Hu).
  destruct (targetPos u) as [[tx tz]|]; [|exists u; by rewrite Hu].
  destruct (Qlt_bool _ _); simpl.
  - eexists. rewrite lookup_insert_eq. split; [done|].
    split; simpl; [lia|done].
  - destruct (definedItems (order u)); simpl;
      (eexists; rewrite lookup_insert_eq; split; [done|];
       split; simpl; [rewrite Hs; simpl; lia|done]).
Qed.

Lemma leaveFrame_later (w : World) (c' c : nat) (u : Customer) :
  objects w !! c = Some u ->
  exists u', objects (leaveFrame w c') !! c = Some u' /\
    later_stage u u'.
Proof.
  intros Hu. destruct (decide (c = c')) as [<-|Hne].
  2:{ exists u. by rewrite leaveFrame_objects_ne. }
  unfold leaveFrame. rewrite Hu.
  destruct (state u) eqn:Hs; try (exists u; by rewrite Hu).
  destruct (Qlt_bool _ _); simpl.
  - eexists. rewrite lookup_insert_eq. split; [done|].
    split; simpl; [lia|done].
  - destruct (indexOf c (customers (gameState w))); simpl;
      (eexists; rewrite lookup_insert_eq; split; [done|];
       split; simpl; [lia|done]).
Qed.

Lemma completeOrder_later (w w' : World) (i : nat) (quality : Z) (c : nat)
    (u : Customer) :
  completeOrder w i quality = Some w' ->
  objects w !! c = Some u ->
  exists u', objects w' !! c = Some u' /\ later_stage u u'.
Proof.
  unfold completeOrder.
  destruct (activeOrders (gameState w) !! i) as [o|]; [|done].
  intros [= <-] Hu. unfold animateCustomerLeave.
  match goal with |- context [leaveFrame ?w0 _] => set (w1 := w0) end.
  assert (H1 : exists u1, objects w1 !! c = Some u1 /\ later_stage u u1).
  { subst w1; simpl. destruct (decide (c = customer o)) as [->|Hne].
    - rewrite lookup_alter_eq, Hu. simpl. eexists. split; [done|].
      split; simpl; [destruct (state u); simpl; lia|done].
    - rewrite lookup_alter_ne by done. exists u. by split. }
  destruct H1 as (u1 & Hu1 & Hl1).
  destruct (leaveFrame_later w1 (customer o) c u1 Hu1) as (u' & Hu' & Hl').
  exists u'. split; [done|]. by eapply later_stage_trans.
Qed.

Lemma spawnCustomer_later (w : World) (rType rDrink rChance rPastry : Q)
    (now : Z) (c : nat) (u : Customer) :
  allocated w -> objects w !! c = Some u ->
  exists u',
    objects (spawnCustomer cfg w rType rDrink rChance rPastry now) !! c
      = Some u' /\
    later_stage u u'.
Proof.
  intros Ha Hu. unfold spawnCustomer.
  destruct (_ <=? _)%nat; [by exists u|].
  destruct (pick rType (CUSTOMER_TYPES cfg)) as [ty|]; [|by exists u].
  unfold animateCustomerEnter. apply enterFrame_later. simpl.
  specialize (Ha _ _ Hu).
  rewrite lookup_alter_ne by lia. by rewrite lookup_insert_ne by lia.
Qed.

Lemma step_later (w : World) (e : Event) (c : nat) (u : Customer) :
  allocated w -> objects w !! c = Some u ->
  exists u', objects (step cfg w e) !! c = Some u' /\ later_stage u u'.
Proof.
  intros Ha Hu. destruct e; simpl; try (by exists u).
  - by apply spawnCustomer_later.
  - by apply enterFrame_later.
  - by apply leaveFrame_later.
  - destruct (isPlaying (gameState w)); [|by exists u].
    destruct (tryInteract_cases cfg w target r now)
      as [(_ & -> & _)|[c0 ->]]; [by exists u|].
    destruct (serveToCustomer_cases cfg w c0)
      as [[-> _] | (held & i & o & w' & _ & _ & _ & _ & _ & Hw' & ->)];
      [by exists u|].
    simpl. by apply (completeOrder_later w w' i (heldQuality held)).
  - destruct (isPlaying (gameState w)); [|by exists u].
    destruct (active (miniGameState w)); [by exists u|].
    destruct shopOpen; by exists u.
  - exists u. split; [|done]. unfold updateMiniGame.
    destruct (negb _); [done|].
    destruct (mg_type (miniGameState w)) as [[]|]; try done.
    by destruct (Qlt_bool _ _).
Qed.

Lemma run_allocated (es : list Event) (w : World) :
  orders_consistent w -> allocated w ->
  orders_consistent (run cfg w es) /\ allocated (run cfg w es).
Proof.
  revert w. induction es as [|e es IH]; intros w Hc Ha; simpl; [done|].
  destruct (step_consistent cfg w e Hc Ha) as [Hc' Ha']. by apply IH.
Qed.

Lemma run_later (es : list Event) (w : World) (c : nat) (u : Customer) :
  orders_consistent w -> allocated w -> objects w !! c = Some u ->
  exists u', objects (run cfg w es) !! c = Some u' /\ later_stage u u'.
Proof.
  revert w u. induction es as [|e es IH]; intros w u Hc Ha Hu; simpl.
  - exists u. by split.
  - destruct (step_later w e c u Ha Hu) as (u1 & Hu1 & Hl1).
    destruct (step_consistent cfg w e Hc Ha) as [Hc' Ha'].
    destruct (IH _ u1 Hc' Ha' Hu1) as (u' & Hu' & Hl').
    exists u'. split; [done|]. by eapply later_stage_trans.
Qed.

(** ** Orders and the customers they belong to *)

Lemma carry_change (orders : list Order) (objs objs' : gmap nat Customer)
    (c : nat) :
  (forall o, o ∈ orders ->
     exists u, objs !! customer o = Some u /\
       definedItems (order u) = Some (items o)) ->
  (forall r, r ≠ c -> objs' !! r = objs !! r) ->
  (forall o, o ∈ orders -> customer o ≠ c) ->
  forall o, o ∈ orders ->
    exists u, objs' !! customer o = Some u /\
      definedItems (order u) = Some (items o).
Proof.
  intros Hcarry Hsame Hfree o Ho.
  destruct (Hcarry o Ho) as (u & Hu & Hd). exists u.
  split; [|done]. rewrite Hsame; [done|]. by apply Hfree.
Qed.

Lemma enterFrame_content (w : World) (c : nat) (now : Z) :
  orders_consistent w -> orders_carry_content w ->
  orders_carry_content (enterFrame w c now).
Proof.
  intros Hc Hcarry. unfold orders_carry_content.
  assert (Hfree : forall u, objects w !! c = Some u -> state u = Entering ->
            forall o, o ∈ activeOrders (gameState w) -> customer o ≠ c).
  { intros u Hu Hs. apply (consistent_not_waiting _ (objects w)); [done|].
    intros u' Hu'. congruence. }
  destruct (enterFrame_cases w c now)
    as [(-> & [-> | (u & u' & Hu & Hs & Hu' & _)])
       | (u & l & Hu & Hs & Hd & Hu' & ->)].
  - done.
  - apply (carry_change _ (objects w) _ c); [done| |by eapply Hfree].
    intros r Hr. by apply enterFrame_objects_ne.
  - intros o Ho. apply elem_of_app in Ho as [Ho|Ho].
    + revert o Ho.
      apply (carry_change _ (objects w) _ c); [done| |by eapply Hfree].
      intros r Hr. by apply enterFrame_objects_ne.
    + apply list_elem_of_singleton in Ho as ->. simpl.
      eexists. split; [exact Hu'|done].
Qed.

Lemma leaveFrame_content (w : World) (c : nat) :
  orders_consistent w -> orders_carry_content w ->
  orders_carry_content (leaveFrame w c).
Proof.
  intros Hc Hcarry. unfold orders_carry_content.
  destruct (leaveFrame_frame w c) as (-> & _).
  destruct (objects w !! c) as [u|] eqn:Hu.
  - destruct (decide (state u = Waiting)) as [Hs|Hs].
    + unfold leaveFrame. by rewrite Hu, Hs.
    + apply (carry_change _ (objects w) _ c); [done| |].
      * intros r Hr. by apply leaveFrame_objects_ne.
      * apply (consistent_not_waiting _ (objects w)); [done|].
        intros u' Hu'. congruence.
  - unfold leaveFrame. by rewrite Hu.
Qed.

Lemma completeOrder_content (w w' : World) (i : nat) (quality : Z) :
  orders_consistent w -> orders_carry_content w ->
  completeOrder w i quality = Some w' -> orders_carry_content w'.
Proof.
  intros Hc Hcarry Hw'.
  destruct (activeOrders (gameState w) !! i) as [o|] eqn:Hi.
  2:{ unfold completeOrder in Hw'. by rewrite Hi in Hw'. }
  destruct (completeOrder_stages w w' i quality o Hc Hi Hw')
    as (w1 & -> & Hc1 & Hord & Hobj & _ & _ & Hfree).
  apply leaveFrame_content; [done|].
  unfold orders_carry_content. rewrite Hord, Hobj.
  apply (carry_change _ (objects w) _ (customer o)); [|  |done].
  - intros o' Ho'. apply Hcarry. by eapply list_elem_of_delete_inv.
  - intros r Hr. by rewrite lookup_alter_ne.
Qed.

Lemma spawnCustomer_content (w : World) (rType rDrink rChance rPastry : Q)
    (now : Z) :
  orders_consistent w -> allocated w -> orders_carry_content w ->
  orders_carry_content (spawnCustomer cfg w rType rDrink rChance rPastry now).
Proof.
  intros Hc Ha Hcarry. unfold spawnCustomer.
  destruct (_ <=? _)%nat; [done|].
  destruct (pick rType (CUSTOMER_TYPES cfg)) as [ty|]; [|done].
  unfold animateCustomerEnter.
  assert (Hfresh : objects w !! nextObject w = None).
  { destruct (objects w !! nextObject w) as [u|] eqn:Hu; [|done].
    specialize (Ha _ _ Hu). lia. }
  assert (Hfree : forall o, o ∈ activeOrders (gameState w) ->
            customer o ≠ nextObject w).
  { apply (consistent_not_waiting _ (objects w)); [done|]. congruence. }
  apply enterFrame_content.
  - unfold orders_consistent; simpl.
    apply (consistent_change _ (objects w) _ (nextObject w)); [done| |done].
    intros r Hr. rewrite lookup_alter_ne by done.
    by rewrite lookup_insert_ne.
  - unfold orders_carry_content; simpl.
    apply (carry_change _ (objects w) _ (nextObject w)); [done| |done].
    intros r Hr. rewrite lookup_alter_ne by done.
    by rewrite lookup_insert_ne.
Qed.

Lemma step_content (w : World) (e : Event) :
  orders_consistent w -> allocated w -> orders_carry_content w ->
  orders_carry_content (step cfg w e).
Proof.
  intros Hc Ha Hcarry. destruct e; simpl; try done.
  - intros o Ho. by apply elem_of_nil in Ho.
  - intros o Ho. by apply elem_of_nil in Ho.
  - by apply spawnCustomer_content.
  - by apply enterFrame_content.
  - by apply leaveFrame_content.
  - destruct (isPlaying (gameState w)); [|done].
    destruct (tryInteract_cases cfg w target r now)
      as [(Hg & Ho & _)|[c0 ->]].
    + unfold orders_carry_content. by rewrite Hg, Ho.
    + destruct (serveToCustomer_cases cfg w c0)
        as [[-> _] | (held & i & o & w' & _ & _ & _ & _ & _ & Hw' & ->)];
        [done|].
      simpl. by apply (completeOrder_content w w' i (heldQuality held)).
  - destruct (isPlaying (gameState w)); [|done].
    destruct (active (miniGameState w)); [done|]. by destruct shopOpen.
  - unfold updateMiniGame. destruct (negb _); [done|].
    destruct (mg_type (miniGameState w)) as [[]|]; try done.
    by destruct (Qlt_bool _ _).
Qed.

Lemma reachable_content (w : World) :
  reachable cfg w -> orders_carry_content w.
Proof.
  induction 1 as [|w e Hw IH _].
  - intros o Ho. by apply elem_of_nil in Ho.
  - destruct (reachable_consistent cfg w Hw) as [Hc Ha].
    by apply step_content.
Qed.

(** ** Waiting customers can be served *)

Lemma elem_of_delete_other {A : Type} (l : list A) (i : nat) (x y : A) :
  y ∈ l -> l !! i = Some x -> y ≠ x -> y ∈ delete i l.
Proof.
  intros Hy Hi Hne. rewrite delete_take_drop.
  rewrite <- (take_drop_middle _ _ _ Hi) in Hy.
  apply elem_of_app in Hy as [Hy|Hy]; [apply elem_of_app; by left|].
  apply elem_of_cons in Hy as [->|Hy]; [done|].
  apply elem_of_app. by right.
Qed.

Lemma enterFrame_waiting (w : World) (c : nat) (now : Z) :
  waiting_have_orders w -> waiting_have_orders (enterFrame w c now).
Proof.
  intros Hw c1 u1 l1 Hin Hu1 Hs1 Hd1.
  destruct (enterFrame_frame w c now) as (_ & _ & _ & Hcust & _).
  rewrite Hcust in Hin.
  pose proof (enterFrame_order w c now) as Hord.
  destruct (enterFrame_cases w c now)
    as [(Hsame & [Heq | (u & u' & Hu & Hs & Hu' & Hst)])
       | (u & l & Hu & Hs & Hd & Hu' & Hadd)].
  - rewrite Heq in *. by apply (Hw c1 u1 l1).
  - rewrite Hsame. destruct (decide (c1 = c)) as [->|Hne].
    + rewrite Hu' in Hu1. injection Hu1 as <-.
      rewrite Hu', Hu in Hord. simpl in Hord. injection Hord as Hord.
      destruct Hst as [Hst|[_ Hnone]]; congruence.
    + rewrite enterFrame_objects_ne in Hu1 by done. by apply (Hw c1 u1 l1).
  - rewrite Hadd. destruct (decide (c1 = c)) as [->|Hne].
    + rewrite Hu' in Hu1. injection Hu1 as <-. simpl in Hd1.
      eexists. split; [apply elem_of_app; right;
                       by apply list_elem_of_singleton|].
      simpl. split; congruence.
    + rewrite enterFrame_objects_ne in Hu1 by done.
      destruct (Hw c1 u1 l1 Hin Hu1 Hs1 Hd1) as (o & Ho & Hoc & Hol).
      exists o. split; [apply elem_of_app; by left|done].
Qed.

Lemma leaveFrame_waiting (w : World) (c : nat) :
  waiting_have_orders w -> waiting_have_orders (leaveFrame w c).
Proof.
  intros Hw c1 u1 l1 Hin Hu1 Hs1 Hd1.
  destruct (leaveFrame_frame w c) as (-> & _).
  assert (Hin' : c1 ∈ customers (gameState w)).
  { eapply elem_of_sublist; [exact Hin|apply leaveFrame_customers]. }
  destruct (decide (c1 = c)) as [->|Hne].
  - pose proof (leaveFrame_state w c) as Hst. rewrite Hu1 in Hst.
    destruct (objects w !! c) as [u|] eqn:Hu; [|done].
    simpl in Hst. injection Hst as Hst.
    destruct (leaveFrame_later w c c u Hu) as (u' & Hu' & _ & Hord & _).
    rewrite Hu1 in Hu'. injection Hu' as <-.
    apply (Hw c u l1); [done|done|congruence|congruence].
  - rewrite leaveFrame_objects_ne in Hu1 by done. by apply (Hw c1 u1 l1).
Qed.

Lemma completeOrder_waiting (w w' : World) (i : nat) (quality : Z) :
  orders_consistent w -> waiting_have_orders w ->
  completeOrder w i quality = Some w' -> waiting_have_orders w'.
Proof.
  intros Hc Hw Hw'.
  destruct (activeOrders (gameState w) !! i) as [o|] eqn:Hi.
  2:{ unfold completeOrder in Hw'. by rewrite Hi in Hw'. }
  destruct (completeOrder_stages w w' i quality o Hc Hi Hw')
    as (w1 & -> & Hc1 & Hord & Hobj & Hcust & _ & Hfree).
  apply leaveFrame_waiting.
  intros c1 u1 l1 Hin Hu1 Hs1 Hd1.
  rewrite Hcust in Hin. rewrite Hobj in Hu1. rewrite Hord.
  destruct (decide (c1 = customer o)) as [->|Hne].
  - rewrite lookup_alter_eq in Hu1.
    destruct (objects w !! customer o); [|done].
    simpl in Hu1. injection Hu1 as <-. done.
  - rewrite lookup_alter_ne in Hu1 by done.
    destruct (Hw c1 u1 l1 Hin Hu1 Hs1 Hd1) as (o1 & Ho1 & Hoc & Hol).
    exists o1. split; [|done].
    apply (elem_of_delete_other _ _ o); [done|done|]. congruence.
Qed.

Lemma spawnCustomer_waiting (w : World) (rType rDrink rChance rPastry : Q)
    (now : Z) :
  queue_bounded cfg w -> waiting_have_orders w ->
  waiting_have_orders (spawnCustomer cfg w rType rDrink rChance rPastry now).
Proof.
  intros (_ & _ & Hlt) Hw. unfold spawnCustomer.
  destruct (_ <=? _)%nat; [done|].
  destruct (pick rType (CUSTOMER_TYPES cfg)) as [ty|]; [|done].
  unfold animateCustomerEnter. apply enterFrame_waiting.
  intros c1 u1 l1 Hin Hu1 Hs1 Hd1. simpl in *.
  destruct (decide (c1 = nextObject w)) as [->|Hne].
  - rewrite lookup_alter_eq, lookup_insert_eq in Hu1. simpl in Hu1.
    injection Hu1 as <-. done.
  - rewrite lookup_alter_ne in Hu1 by done.
    rewrite lookup_insert_ne in Hu1 by done.
    apply elem_of_app in Hin as [Hin|Hin].
    + by apply (Hw c1 u1 l1).
    + apply list_elem_of_singleton in Hin. done.
Qed.

Lemma step_waiting (w : World) (e : Event) :
  orders_consistent w -> queue_bounded cfg w -> waiting_have_orders w ->
  waiting_have_orders (step cfg w e).
Proof.
  intros Hc Hq Hw. destruct e; simpl; try done.
  - intros c1 u1 l1 Hin. by apply elem_of_nil in Hin.
  - intros c1 u1 l1 Hin. by apply elem_of_nil in Hin.
  - by apply spawnCustomer_waiting.
  - by apply enterFrame_waiting.
  - by apply leaveFrame_waiting.
  - destruct (isPlaying (gameState w)); [|done].
    destruct (tryInteract_cases cfg w target r now)
      as [(Hg & Ho & _)|[c0 ->]].
    + unfold waiting_have_orders. by rewrite Hg, Ho.
    + destruct (serveToCustomer_cases cfg w c0)
        as [[-> _] | (held & i & o & w' & _ & _ & _ & _ & _ & Hw' & ->)];
        [done|].
      simpl. by apply (completeOrder_waiting w w' i (heldQuality held)).
  - destruct (isPlaying (gameState w)); [|done].
    destruct (active (miniGameState w)); [done|]. by destruct shopOpen.
  - unfold updateMiniGame. destruct (negb _); [done|].
    destruct (mg_type (miniGameState w)) as [[]|]; try done.
    by destruct (Qlt_bool _ _).
Qed.

Lemma reachable_waiting (w : World) :
  reachable cfg w -> waiting_have_orders w.
Proof.
  induction 1 as [|w e Hw IH _].
  - intros c1 u1 l1 Hin. by apply elem_of_nil in Hin.
  - destruct (reachable_consistent cfg w Hw) as [Hc _].
    apply step_waiting; [done| |done]. by apply reachable_queue.
Qed.

(** ** The order generator *)

Lemma pick_in_range {A : Type} (r : Q) (arr : list A) :
  0 <= r -> r < 1 -> arr ≠ [] ->
  exists x, pick r arr = Some x /\ x ∈ arr.
Proof.
  intros H0 H1 Hne. unfold pick.
  set (n := Z.of_nat (length arr)).
  assert (Hn : (0 < n)%Z).
  { subst n. destruct arr; [done|]. simpl. lia. }
  assert (Hnq : 0 < inject_Z n).
  { change 0 with (inject_Z 0). by rewrite <- Zlt_Qlt. }
  assert (Hlow : (0 <= Qfloor (r * inject_Z n))%Z).
  { change 0%Z with (Qfloor 0). apply Qfloor_resp_le. nra. }
  assert (Hhigh : (Qfloor (r * inject_Z n) < n)%Z).
  { rewrite Zlt_Qlt. eapply Qle_lt_trans; [apply Qfloor_le|]. nra. }
  destruct (lookup_lt_is_Some_2 arr (Z.to_nat (Qfloor (r * inject_Z n))))
    as [x Hx]; [subst n; lia|].
  exists x. split; [done|]. apply list_elem_of_lookup. eauto.
Qed.

(** X1.  With draws in [0, 1) and a menu that has a drink and a
    pastry, [generateOrder] returns one drink of the menu, followed,
    exactly when the second draw is below 0.3, by one pastry of the
    menu; no item is undefined. *)
Theorem generateOrder_well_formed (rDrink rChance rPastry : Q) :
  0 <= rDrink -> rDrink < 1 -> 0 <= rPastry -> rPastry < 1 ->
  (exists d, d ∈ MENU_ITEMS cfg /\ item_type d = "drink") ->
  (exists p, p ∈ MENU_ITEMS cfg /\ item_type p = "pastry") ->
  exists d,
    d ∈ MENU_ITEMS cfg /\ item_type d = "drink" /\
    ((3 # 10 <= rChance /\
      generateOrder cfg rDrink rChance rPastry = [Some d]) \/
     (rChance < 3 # 10 /\
      exists p,
        p ∈ MENU_ITEMS cfg /\ item_type p = "pastry" /\
        generateOrder cfg rDrink rChance rPastry = [Some d; Some p])).
Proof.
  intros Hd0 Hd1 Hp0 Hp1 (d0 & Hd0in & Hd0ty) (p0 & Hp0in & Hp0ty).
  unfold generateOrder.
  destruct (pick_in_range rDrink
              (filter (fun i => item_type i = "drink") (MENU_ITEMS cfg)))
    as (d & Hd & Hdin); [done|done| |].
  { intros Hnil.
    exact (filter_nil_not_elem_of _ _ d0 Hnil Hd0ty Hd0in). }
  apply list_elem_of_filter in Hdin as [Hdty Hdin].
  exists d. split; [done|]. split; [done|]. rewrite Hd.
  destruct (Qlt_bool rChance (3 # 10)) eqn:E.
  - apply Qlt_bool_iff in E. right. split; [done|].
    destruct (pick_in_range rPastry
                (filter (fun i => item_type i = "pastry") (MENU_ITEMS cfg)))
      as (p & Hp & Hpin); [done|done| |].
    { intros Hnil.
      exact (filter_nil_not_elem_of _ _ p0 Hnil Hp0ty Hp0in). }
    apply list_elem_of_filter in Hpin as [Hpty Hpin].
    exists p. rewrite Hp. done.
  - apply not_true_iff_false in E. rewrite Qlt_bool_iff in E.
    left. split; [by apply Qnot_lt_le|done].
Qed.

(** X2.  With a menu that has no drink, the order [generateOrder]
    returns starts with an undefined item, and a customer who carries
    such an order never gets it registered: no frame of its walk
    changes [activeOrders]. *)
Theorem order_without_drink_never_registered
    (rDrink rChance rPastry : Q) (w : World) (c : nat) (u : Customer)
    (now : Z) :
  (forall i, i ∈ MENU_ITEMS cfg -> item_type i ≠ "drink") ->
  objects w !! c = Some u ->
  order u = generateOrder cfg rDrink rChance rPastry ->
  definedItems (order u) = None /\
  activeOrders (gameState (enterFrame w c now))
    = activeOrders (gameState w).
Proof.
  intros Hnone Hu Hord.
  assert (Hd : definedItems (order u) = None).
  { rewrite Hord. unfold generateOrder, pick.
    assert (Hnil : filter (fun i => item_type i = "drink") (MENU_ITEMS cfg)
                   = []).
    { destruct (filter _ (MENU_ITEMS cfg)) as [|x rest] eqn:Hf; [done|].
      assert (Hx : x ∈ filter (fun i => item_type i = "drink")
                         (MENU_ITEMS cfg)).
      { rewrite Hf. by apply elem_of_cons; left. }
      apply list_elem_of_filter in Hx as [Hty Hin].
      by destruct (Hnone x Hin). }
    rewrite Hnil. simpl. by destruct (Qlt_bool _ _). }
  split; [done|].
  destruct (enterFrame_cases w c now)
    as [(Hsame & _) | (u0 & l & Hu0 & _ & Hd0 & _)]; [done|].
  congruence.
Qed.

(** ** Invariants of the reachable states *)

(** X3.  In every reachable state [gameState.customers] holds
    pairwise distinct customers, at most [MAX_CUSTOMERS] of them, and
    each of them is an object of the scene store. *)
Theorem queue_within_cap (w : World) :
  reachable cfg w ->
  NoDup (customers (gameState w)) /\
  (length (customers (gameState w)) <= MAX_CUSTOMERS cfg)%nat /\
  forall c, c ∈ customers (gameState w) -> (c < nextObject w)%nat.
Proof. apply reachable_queue. Qed.

(** X4.  Whatever events follow a reachable state, a customer
    object stays in the store, its state never moves back along
    entering, waiting, leaving, and its order and its type never
    change. *)
Theorem customer_never_moves_back (w : World) (es : list Event) (c : nat)
    (u : Customer) :
  reachable cfg w -> objects w !! c = Some u ->
  exists u',
    objects (run cfg w es) !! c = Some u' /\
    (state_rank (state u) <= state_rank (state u'))%nat /\
    order u' = order u /\ customerType u' = customerType u.
Proof.
  intros Hw Hu. destruct (reachable_consistent cfg w Hw) as [Hc Ha].
  exact (run_later es w c u Hc Ha Hu).
Qed.

(** X5.  In every reachable state each active order belongs to a
    customer object that is waiting, no two orders belong to the same
    customer, and the items of the order are the ones the customer
    was given when it was spawned. *)
Theorem active_orders_belong_to_waiting_customers (w : World) :
  reachable cfg w ->
  NoDup (customer <$> activeOrders (gameState w)) /\
  forall o, o ∈ activeOrders (gameState w) ->
    exists u,
      objects w !! customer o = Some u /\ state u = Waiting /\
      definedItems (order u) = Some (items o).
Proof.
  intros Hw. destruct (reachable_consistent cfg w Hw) as [[Hwait Hnd] _].
  split; [done|]. intros o Ho.
  destruct (Hwait o Ho) as (u & Hu & Hs).
  destruct (reachable_content w Hw o Ho) as (u' & Hu' & Hd).
  exists u. rewrite Hu in Hu'. injection Hu' as <-. done.
Qed.

(** X6.  In every reachable state a customer of the queue that is
    waiting, and whose order has no undefined item, has an active
    order with exactly these items, which the lookup of
    [serveToCustomer] finds. *)
Theorem waiting_customer_has_active_order (w : World) (c : nat)
    (u : Customer) (l : list MenuItem) :
  reachable cfg w ->
  c ∈ customers (gameState w) -> objects w !! c = Some u ->
  state u = Waiting -> definedItems (order u) = Some l ->
  exists i o,
    findOrderIndex cfg w c = Some i /\
    activeOrders (gameState w) !! i = Some o /\
    customer o = c /\ items o = l.
Proof.
  intros Hw Hin Hu Hs Hd.
  destruct (reachable_waiting w Hw c u l Hin Hu Hs Hd) as (o & Ho & Hc & Hl).
  destruct (reachable_consistent cfg w Hw) as [[_ Hnd] _].
  unfold findOrderIndex.
  destruct (findIndex (fun o0 => Nat.eqb (customer o0) c)
              (activeOrders (gameState w))) as [i|] eqn:Hi.
  - destruct (findIndex_Some _ _ _ Hi) as (o' & Ho' & Hp).
    apply Nat.eqb_eq in Hp.
    exists i, o'. repeat split; try done.
    assert (o' = o) as ->; [|done].
    apply list_elem_of_lookup in Ho as [j Hj].
    assert (i = j) as ->; [|congruence].
    apply (NoDup_lookup _ i j c Hnd); rewrite list_lookup_fmap.
    + by rewrite Ho'; simpl; rewrite Hp.
    + by rewrite Hj; simpl; rewrite Hc.
  - exfalso. clear Hnd Hl. revert Hi.
    induction (activeOrders (gameState w)) as [|o1 rest IH]; simpl.
    + by apply elem_of_nil in Ho.
    + apply elem_of_cons in Ho as [<-|Ho].
      * rewrite Hc, Nat.eqb_refl. done.
      * destruct (Nat.eqb (customer o1) c); [done|].
        destruct (findIndex _ rest); [done|]. intros _. by apply IH.
Qed.

(** X7.  In every reachable state [isGrabbing] is true exactly when
    an object is held, and while a mini-game is open the player holds
    a cup and the stored callback is the one of the station that
    opened it: espresso for the timing game, milk for the tap game. *)
Theorem open_game_holds_cup (w : World) :
  reachable cfg w ->
  (isGrabbing (physicsState w) = true <->
   exists held, grabbedObject (physicsState w) = Some held) /\
  (active (miniGameState w) = true ->
   (exists contents q,
      grabbedObject (physicsState w) = Some (Cup contents q)) /\
   ((mg_type (miniGameState w) = Some Timing /\
     callback (miniGameState w) = Some "espresso") \/
    (mg_type (miniGameState w) = Some Tap /\
     callback (miniGameState w) = Some "milk"))).
Proof.
  intros Hw. destruct (reachable_hand w Hw) as [Hh Hg]. split; [|done].
  unfold hand_consistent in Hh. rewrite Hh.
  destruct (grabbedObject (physicsState w)) as [held|]; split; try done.
  - intros _. by exists held.
  - by intros [held Hheld].
Qed.

(** X8.  In a reachable state with a mini-game open, the key press
    that ends the game puts the ingredient of its station into the
    held cup whatever quality was scored: espresso after the timing
    game, milk after the tap game. *)
Theorem finished_game_fills_cup (w : World) (now : Z) :
  reachable cfg w ->
  active (miniGameState w) = true ->
  active (miniGameState (handleMiniGameInput w now)) = false ->
  exists contents q,
    grabbedObject (physicsState (handleMiniGameInput w now))
      = Some (Cup contents q) /\
    ((mg_type (miniGameState w) = Some Timing /\
      contents !! "espresso" = Some true) \/
     (mg_type (miniGameState w) = Some Tap /\
      contents !! "milk" = Some true)).
Proof.
  intros Hw Ha. destruct (reachable_hand w Hw) as [_ Hg].
  destruct (Hg Ha) as ((contents & q & Hheld) & Hcb).
  unfold handleMiniGameInput. rewrite Ha. simpl.
  destruct Hcb as [[Ht Hcb]|[Ht Hcb]]; rewrite Ht.
  - intros _. unfold endMiniGame; simpl. rewrite Hcb, Hheld. simpl.
    eexists _, q. split; [done|]. left. split; [done|].
    apply lookup_insert_eq.
  - destruct (Qle_bool _ _); simpl; [|by rewrite Ha].
    intros _. unfold endMiniGame; simpl. rewrite Hcb, Hheld. simpl.
    eexists _, q. split; [done|]. right. split; [done|].
    apply lookup_insert_eq.
Qed.

(** X9.  In every reachable state the marker of the timing game
    either moves right and lies in (-1.2, 100) or moves left and lies
    in (0, 101.2): it leaves the bar from 0 to 100 by less than one
    step of 1.2. *)
Theorem marker_stays_near_bar (w : World) :
  reachable cfg w ->
  let m := miniGameState w in
  (markerDirection m == 1 /\
   - (12 # 10) < markerPos m /\ markerPos m < 100) \/
  (markerDirection m == - (1) /\
   0 < markerPos m /\ markerPos m < 100 + (12 # 10)).
Proof. apply reachable_marker. Qed.

(** X10.  In every reachable state the rating is exactly 5:
    [completeOrder], its only writer besides [startGame], is only
    reached with the quality recorded on the held item, which is
    always 100, so it adds 0.1 and clamps back to 5. *)
Theorem rating_stays_five (w : World) :
  reachable cfg w ->
  rating (gameState w) = 5 /\
  forall held, grabbedObject (physicsState w) = Some held ->
    heldQuality held = 100%Z.
Proof.
  intros Hw. split; [by apply reachable_rating|].
  intros held Hheld. destruct (reachable_player cfg w Hw) as [_ Hh].
  specialize (Hh held Hheld). unfold heldQuality.
  destruct held; simpl in Hh; by rewrite Hh.
Qed.

(** ** Serving and the till *)

Lemma itemPrice_nonneg (g : GameState) (item : MenuItem) :
  (forall id p, menuPrices g !! id = Some p -> 0 <= p) ->
  0 <= itemPrice g item.
Proof.
  intros Hpos. unfold itemPrice.
  destruct (menuPrices g !! item_id item) as [p|] eqn:Hp; [|discriminate].
  destruct (Qeq_bool p 0); [discriminate|]. by apply (Hpos _ _ Hp).
Qed.

Lemma orderPayment_nonneg (g : GameState) (o : Order) :
  (forall id p, menuPrices g !! id = Some p -> 0 <= p) ->
  0 <= orderPayment g o.
Proof.
  intros Hpos. unfold orderPayment.
  assert (H : forall l a, 0 <= a ->
            0 <= foldl (fun sum item => sum + itemPrice g item) a l).
  { induction l as [|item rest IH]; intros a Ha; simpl; [done|].
    apply IH. pose proof (itemPrice_nonneg g item Hpos). lra. }
  apply H. discriminate.
Qed.

Lemma tipMultiplier_bounds (quality : Z) :
  0 < tipMultiplier quality /\ tipMultiplier quality <= 13 # 10.
Proof.
  unfold tipMultiplier.
  destruct (80 <=? quality)%Z; [split; [reflexivity|discriminate]|].
  destruct (50 <=? quality)%Z; split; try reflexivity; discriminate.
Qed.

(** X11.  When no listed price is negative, a call to
    [serveToCustomer] never lowers the money, and the tip
    [completeOrder] computes lies between 0 and 26% of the payment. *)
Theorem serving_never_lowers_money (w : World) (c : nat) :
  (forall id p, menuPrices (gameState w) !! id = Some p -> 0 <= p) ->
  money (gameState w) <= money (gameState (fst (serveToCustomer cfg w c))) /\
  forall o quality,
    (0 <= orderTip (orderPayment (gameState w) o) quality)%Z /\
    inject_Z (orderTip (orderPayment (gameState w) o) quality)
      <= orderPayment (gameState w) o * (26 # 100).
Proof.
  intros Hpos.
  assert (Htip : forall o quality,
            (0 <= orderTip (orderPayment (gameState w) o) quality)%Z /\
            inject_Z (orderTip (orderPayment (gameState w) o) quality)
              <= orderPayment (gameState w) o * (26 # 100)).
  { intros o quality. unfold orderTip.
    pose proof (orderPayment_nonneg (gameState w) o Hpos) as Hpay.
    destruct (tipMultiplier_bounds quality) as [Hm0 Hm1].
    split.
    - change 0%Z with (Qfloor 0). apply Qfloor_resp_le. nra.
    - eapply Qle_trans; [apply Qfloor_le|]. nra. }
  split; [|done].
  destruct (serveToCustomer_cases cfg w c)
    as [[-> _] | (held & i & o & w' & _ & _ & _ & Ho & _ & Hw' & ->)].
  { apply Qle_refl. }
  simpl.
  destruct (completeOrder_effect w w' i (heldQuality held) o Ho Hw')
    as (_ & -> & _).
  pose proof (orderPayment_nonneg (gameState w) o Hpos) as Hpay.
  destruct (Htip o (heldQuality held)) as [H0 _].
  assert (0 <= inject_Z (orderTip (orderPayment (gameState w) o)
                           (heldQuality held))).
  { change 0 with (inject_Z 0). by rewrite <- Zle_Qle. }
  lra.
Qed.

(** X12.  [serveToCustomer] never ends in an uncaught exception:
    the index its lookup returns always points into [activeOrders],
    so neither the read of [order.items] nor [completeOrder] can
    fail. *)
Theorem serveToCustomer_never_throws (w : World) (c : nat) :
  snd (serveToCustomer cfg w c) ≠ Threw /\
  forall i, findOrderIndex cfg w c = Some i ->
    (i < length (activeOrders (gameState w)))%nat /\
    forall quality, completeOrder w i quality <> None.
Proof.
  split.
  - unfold serveToCustomer.
    destruct (grabbedObject (physicsState w)) as [held|]; [|done].
    destruct (stillEntering w c); [done|].
    destruct (findOrderIndex cfg w c) as [i|] eqn:Hidx.
    2:{ simpl. by destruct (objects w !! c). }
    destruct (findOrderIndex_Some cfg w c i Hidx) as (o & Ho & _).
    rewrite Ho. destruct (matchFound cfg held o); [|done].
    by destruct (completeOrder_Some w i (heldQuality held) o Ho) as [w' ->].
  - intros i Hidx.
    destruct (findOrderIndex_Some cfg w c i Hidx) as (o & Ho & _).
    split; [by eapply lookup_lt_Some|].
    intros quality.
    by destruct (completeOrder_Some w i quality o Ho) as [w' ->].
Qed.

(** ** Playing the tap game *)

Lemma inject_succ (k : nat) :
  inject_Z (Z.of_nat (S k)) == inject_Z (Z.of_nat k) + 1.
Proof. rewrite Nat2Z.inj_succ. unfold Z.succ. by rewrite inject_Z_plus. Qed.

Lemma run_cons (w : World) (e : Event) (es : list Event) :
  run cfg w (e :: es) = run cfg (step cfg w e) es.
Proof. done. Qed.

Lemma tap_presses_needed (es : list Event) (w w0 : World) :
  tapping w w0 ->
  Forall (fun e => forall shopOpen, e <> KeyEscape shopOpen) es ->
  tapProgress (miniGameState w) + inject_Z (Z.of_nat (keyPresses es))
    < tapRequired (miniGameState w0) ->
  tapping (run cfg w es) w0.
Proof.
  revert w. induction es as [|e es IH]; intros w Hw Hes Hlt; [done|].
  apply Forall_cons in Hes as [He Hes]. rewrite run_cons.
  destruct Hw as (Ha & Ht & Hreq & Hcb & Hp).
  destruct e; simpl in *.
  - apply IH; [|done|done]. done.
  - apply IH; [|done|done]. done.
  - destruct (spawnCustomer_frame cfg w rType rDrink rChance rPastry now)
      as [Hp' Hm'].
    apply IH; [|done|by rewrite Hm'].
    unfold tapping. by rewrite Hp', Hm'.
  - destruct (enterFrame_frame w c now) as (_ & _ & _ & _ & Hp' & Hm' & _).
    apply IH; [|done|by rewrite Hm'].
    unfold tapping. by rewrite Hp', Hm'.
  - destruct (leaveFrame_frame w c) as (_ & _ & _ & _ & Hp' & Hm' & _).
    apply IH; [|done|by rewrite Hm'].
    unfold tapping. by rewrite Hp', Hm'.
  - apply IH; [|done|done]. done.
  - rewrite inject_succ in Hlt.
    destruct (isPlaying (gameState w)).
    2:{ apply IH; [done|done|]. lra. }
    unfold tryInteract. rewrite Ha. unfold handleMiniGameInput.
    rewrite Ha, Ht. simpl.
    pose proof (Qle_bool_false (tapRequired (miniGameState w))
                  (tapProgress (miniGameState w) + 1)) as [_ Hno].
    assert (Hpos : 0 <= inject_Z (Z.of_nat (keyPresses es))).
    { change 0 with (inject_Z 0). rewrite <- Zle_Qle. lia. }
    rewrite Hno by (rewrite Hreq; lra).
    apply IH; [|done|simpl; lra]. done.
  - by destruct (He shopOpen).
  - unfold updateMiniGame. rewrite Ha, Ht. simpl.
    destruct (Qlt_bool 0 (tapProgress (miniGameState w))).
    + apply IH; [done|done|simpl; lra].
    + apply IH; [done|done|lra].
Qed.

(** X13.  A tap game that has just been opened in a reachable state
    cannot be completed with fewer than 12 presses of the key:
    whatever else happens, short of Escape, after fewer than 12
    presses the game is still open and the hand is as it was. *)
Theorem tap_game_needs_twelve_presses (w : World) (contentType : string)
    (r : Q) (now : Z) (es : list Event) :
  reachable cfg w ->
  Forall (fun e => forall shopOpen, e <> KeyEscape shopOpen) es ->
  (keyPresses es < 12)%nat ->
  let w' := run cfg (startMiniGame w Tap contentType r now) es in
  active (miniGameState w') = true /\ physicsState w' = physicsState w.
Proof.
  intros Hw Hes Hk. cbv zeta.
  destruct (reachable_player cfg w Hw) as [[_ Hreq] _].
  destruct (tap_presses_needed es (startMiniGame w Tap contentType r now)
              (startMiniGame w Tap contentType r now))
    as (Ha & _ & _ & _ & Hp); try done.
  simpl. rewrite Hreq.
  assert (inject_Z (Z.of_nat (keyPresses es)) < 12); [|lra].
  change 12 with (inject_Z 12). rewrite <- Zlt_Qlt. lia.
Qed.

Lemma twelve_presses (es : list Event) (w : World) (contents : gmap string bool)
    (q : Z) :
  isPlaying (gameState w) = true ->
  active (miniGameState w) = true ->
  mg_type (miniGameState w) = Some Tap ->
  tapRequired (miniGameState w) = 12 ->
  callback (miniGameState w) = Some "milk" ->
  grabbedObject (physicsState w) = Some (Cup contents q) ->
  Forall (fun e => exists target r now, e = KeyE target r now) es ->
  es <> [] ->
  tapProgress (miniGameState w) + inject_Z (Z.of_nat (length es)) == 12 ->
  active (miniGameState (run cfg w es)) = false /\
  grabbedObject (physicsState (run cfg w es))
    = Some (Cup (<["milk" := true]> contents) q).
Proof.
  revert w. induction es as [|e es IH];
    intros w Hplay Ha Ht Hreq Hcb Hheld Hes Hne Hsum; [done|].
  apply Forall_cons in Hes as [(target & r & now & ->) Hes].
  rewrite run_cons. simpl. rewrite Hplay.
  unfold tryInteract. rewrite Ha. unfold handleMiniGameInput.
  rewrite Ha, Ht. simpl. rewrite Hreq.
  change (length (KeyE target r now :: es)) with (S (length es)) in Hsum.
  rewrite inject_succ in Hsum.
  destruct es as [|e' es'].
  - change (inject_Z (Z.of_nat (length (@nil Event)))) with 0 in Hsum.
    pose proof (Qle_bool_iff 12 (tapProgress (miniGameState w) + 1))
      as [_ Hyes].
    rewrite Hyes by lra. simpl. unfold endMiniGame; simpl.
    by rewrite Hcb, Hheld.
  - assert (Hpos : 1 <= inject_Z (Z.of_nat (length (e' :: es')))).
    { change 1 with (inject_Z 1). rewrite <- Zle_Qle. simpl. lia. }
    pose proof (Qle_bool_false 12 (tapProgress (miniGameState w) + 1))
      as [_ Hno].
    rewrite Hno by lra.
    apply IH; try done.
    change (tapProgress (miniGameState w) + 1
            + inject_Z (Z.of_nat (length (e' :: es'))) == 12).
    lra.
Qed.

(** X14.  In a reachable state of a running game, with a cup in
    hand at the milk station, the press that opens the tap game
    followed by twelve presses in a row closes the game with milk in
    the cup. *)
Theorem twelve_presses_froth_the_milk (w : World)
    (contents : gmap string bool) (q : Z) (r : Q) (now : Z)
    (es : list Event) :
  reachable cfg w ->
  isPlaying (gameState w) = true ->
  active (miniGameState w) = false ->
  grabbedObject (physicsState w) = Some (Cup contents q) ->
  Forall (fun e => exists target r now, e = KeyE target r now) es ->
  length es = 12%nat ->
  let w' := run cfg w (KeyE (Some Milk) r now :: es) in
  active (miniGameState w') = false /\
  grabbedObject (physicsState w')
    = Some (Cup (<["milk" := true]> contents) q).
Proof.
  intros Hw Hplay Ha Hheld Hes Hlen. cbv zeta. rewrite run_cons.
  destruct (reachable_player cfg w Hw) as [[_ Hreq] _].
  destruct (reachable_hand w Hw) as [Hh _].
  unfold hand_consistent in Hh. rewrite Hheld in Hh.
  simpl. rewrite Hplay. unfold tryInteract. rewrite Ha, Hh, Hheld. simpl.
  apply twelve_presses; try done.
  - intros ->. done.
  - simpl. rewrite Hlen. reflexivity.
Qed.

(** ** Cancelling *)

Lemma updateMiniGame_frame (w : World) :
  gameState (updateMiniGame w) = gameState w /\
  physicsState (updateMiniGame w) = physicsState w /\
  objects (updateMiniGame w) = objects w /\
  nextObject (updateMiniGame w) = nextObject w /\
  callback (miniGameState (updateMiniGame w)) = callback (miniGameState w).
Proof.
  unfold updateMiniGame. destruct (negb _); [done|].
  destruct (mg_type (miniGameState w)) as [[]|]; try done.
  by destruct (Qlt_bool _ _).
Qed.

(** X15.  Cancelling a mini-game, after any number of frames, never
    runs the callback: the hand, the money, the orders and the
    customers are as they were before the game was opened, the game
    is closed and the stored quality is 0. *)
Theorem cancelled_game_leaves_no_trace (w : World) (ty : MiniGameType)
    (contentType : string) (r : Q) (now : Z) (n : nat) :
  let w' :=
    cancelMiniGame
      (run cfg (startMiniGame w ty contentType r now) (replicate n Frame)) in
  physicsState w' = physicsState w /\
  gameState w' = gameState w /\
  objects w' = objects w /\
  active (miniGameState w') = false /\
  mg_quality (miniGameState w') = 0%Z.
Proof.
  cbv zeta.
  assert (H : forall k w0,
            physicsState (run cfg w0 (replicate k Frame)) = physicsState w0 /\
            gameState (run cfg w0 (replicate k Frame)) = gameState w0 /\
            objects (run cfg w0 (replicate k Frame)) = objects w0).
  { induction k as [|k IH]; intros w0; [done|].
    simpl. destruct (IH (updateMiniGame w0)) as (-> & -> & ->).
    by destruct (updateMiniGame_frame w0) as (-> & -> & -> & _). }
  destruct (H n (startMiniGame w ty contentType r now)) as (Hp & Hg & Ho).
  simpl. rewrite Hp, Hg, Ho. done.
Qed.

(** ** The prompt and the key *)

(** X16.  In a reachable state with no mini-game open, what the key
    does for each prompt [checkInteractionPrompt] shows: hidden
    prompt, nothing; 'get cup' and 'get pastry', the grab; 'use
    machine', 'serve' and 'interact', shown with empty hands, nothing
    at all; 'drop' and 'trash item', the hand is emptied and nothing
    else changes; 'pour espresso', 'froth milk' and 'add syrup' open
    the game or add the syrup when a cup is held and do nothing when a
    pastry is held; 'serve customer' is [serveToCustomer]. *)
Theorem prompt_and_key (w : World) (target : option Target) (r : Q)
    (now : Z) :
  reachable cfg w ->
  active (miniGameState w) = false ->
  let w' := tryInteract cfg w target r now in
  match checkInteractionPrompt w target with
  | None => w' = w
  | Some PromptGetCup => w' = grabCup w
  | Some PromptGetPastry => w' = grabPastry w
  | Some PromptUseMachine | Some PromptServe | Some PromptInteract => w' = w
  | Some PromptDrop | Some PromptTrashItem =>
      w' = with_physicsState w {| grabbedObject := None; isGrabbing := false |}
  | Some PromptPourEspresso =>
      match grabbedObject (physicsState w) with
      | Some (Cup _ _) => w' = startMiniGame w Timing "espresso" r now
      | _ => w' = w
      end
  | Some PromptFrothMilk =>
      match grabbedObject (physicsState w) with
      | Some (Cup _ _) => w' = startMiniGame w Tap "milk" r now
      | _ => w' = w
      end
  | Some (PromptAddSyrup syrupType) =>
      match grabbedObject (physicsState w) with
      | Some (Cup contents q) =>
          w' = with_physicsState w
                 {| grabbedObject :=
                      Some (Cup (<[syrupType := true]> contents) q);
                    isGrabbing := true |}
      | _ => w' = w
      end
  | Some PromptServeCustomer =>
      exists c, target = Some (CustomerObject c) /\
        w' = fst (serveToCustomer cfg w c)
  end.
Proof.
  intros Hw Ha. cbv zeta.
  destruct (reachable_hand w Hw) as [Hh _]. unfold hand_consistent in Hh.
  unfold tryInteract, checkInteractionPrompt. rewrite Ha.
  destruct (isGrabbing (physicsState w)) eqn:Hgrab.
  - destruct (grabbedObject (physicsState w)) as [held|] eqn:Hheld;
      [|done].
    destruct target as [t|].
    + destruct t; unfold dropItem, trashItem; rewrite ?Hheld; try done.
      * by destruct held.
      * by destruct held.
      * by destruct held.
      * by exists c.
    + unfold dropItem. by rewrite Hheld.
  - by destruct target as [[]|].
Qed.

(** ** Buying through the shop dialog *)

Lemma shopItemClick_owned (w : World) (u : Upgrade) :
  (forall f w1, effect u = Some f ->
     ownedUpgrades (gameState (f w1)) = ownedUpgrades (gameState w1)) ->
  NoDup (match ownedUpgrades (gameState w) with Some l => l | None => [] end)
  ->
  NoDup (match ownedUpgrades (gameState (shopItemClick w u)) with
         | Some l => l
         | None => []
         end).
Proof.
  intros Heff Hnd. unfold shopItemClick.
  destruct (owned w (upgrade_id u)) eqn:Hown; [done|].
  destruct (buyUpgrade_cases w u) as [[_ ->]|(_ & w1 & -> & _ & Hlist & _)];
    [done|].
  assert (Hw1 : NoDup (match ownedUpgrades (gameState w1) with
                       | Some l => l
                       | None => []
                       end)).
  { rewrite Hlist. apply NoDup_app. split; [done|].
    split; [|apply NoDup_singleton].
    intros x Hx Hx'. apply list_elem_of_singleton in Hx'. subst x.
    unfold owned in Hown.
    destruct (ownedUpgrades (gameState w)) as [l|].
    - by apply bool_decide_eq_false in Hown.
    - by apply elem_of_nil in Hx. }
  destruct (effect u) as [f|] eqn:Hf; [|done]. by rewrite (Heff f w1).
Qed.

(** X17.  Through the shop dialog no upgrade is bought twice: a
    click on an owned upgrade does nothing, so, as long as the effect
    closures leave [ownedUpgrades] alone, a list without duplicates
    stays without duplicates over any sequence of clicks. *)
Theorem shop_never_sells_twice (us : list Upgrade) (w : World) :
  Forall (fun u => forall f w1, effect u = Some f ->
            ownedUpgrades (gameState (f w1))
              = ownedUpgrades (gameState w1)) us ->
  NoDup (match ownedUpgrades (gameState w) with Some l => l | None => [] end)
  ->
  (forall u, owned w (upgrade_id u) = true -> shopItemClick w u = w) /\
  NoDup (match ownedUpgrades (gameState (foldl shopItemClick w us)) with
         | Some l => l
         | None => []
         end).
Proof.
  intros Hus Hnd. split.
  - intros u Hown. unfold shopItemClick. by rewrite Hown.
  - revert w Hnd. induction Hus as [|u us Hu _ IH]; intros w Hnd; simpl;
      [done|].
    apply IH. by apply shopItemClick_owned.
Qed.

(** ** The spawn loop *)

(** X18.  A tick of the spawn loop does nothing while the game is
    paused or not running; otherwise it is a call of
    [spawnCustomer], whose own test of the cap makes the loop's test
    redundant; so every reachable state stays reachable. *)
Theorem spawnCustomerLoop_is_spawnCustomer (w : World)
    (rType rDrink rChance rPastry : Q) (now : Z) :
  (isPlaying (gameState w) = false \/ isPaused (gameState w) = true ->
   spawnCustomerLoop cfg w rType rDrink rChance rPastry now = w) /\
  (isPlaying (gameState w) = true -> isPaused (gameState w) = false ->
   spawnCustomerLoop cfg w rType rDrink rChance rPastry now
     = spawnCustomer cfg w rType rDrink rChance rPastry now) /\
  (reachable cfg w ->
   isDraw rType && isDraw rDrink && isDraw rChance && isDraw rPastry = true ->
   reachable cfg (spawnCustomerLoop cfg w rType rDrink rChance rPastry now)).
Proof.
  assert (Hcap : (if (length (customers (gameState w))
                      <? MAX_CUSTOMERS cfg)%nat
                  then spawnCustomer cfg w rType rDrink rChance rPastry now
                  else w)
                 = spawnCustomer cfg w rType rDrink rChance rPastry now).
  { destruct (_ <? _)%nat eqn:E; [done|].
    apply Nat.ltb_ge in E. unfold spawnCustomer.
    apply Nat.leb_le in E. by rewrite E. }
  unfold spawnCustomerLoop. split; [|split].
  - intros [-> | ->]; [done|]. by rewrite andb_false_r.
  - intros -> ->. simpl. exact Hcap.
  - intros Hw Hok.
    destruct (isPlaying (gameState w) && negb (isPaused (gameState w)));
      [|done].
    rewrite Hcap.
    exact (reachable_step cfg w
             (SpawnTimer rType rDrink rChance rPastry now) Hw Hok).
Qed.

(** ** Leaving the queue *)

Lemma findIndex_None {A : Type} (p : A -> bool) (l : list A) :
  findIndex p l = None -> forall x, x ∈ l -> p x = false.
Proof.
  induction l as [|y rest IH]; simpl; intros H x Hx.
  - by apply elem_of_nil in Hx.
  - destruct (p y) eqn:Hp; [done|].
    destruct (findIndex p rest); [done|].
    apply elem_of_cons in Hx as [->|Hx]; [done|]. by apply IH.
Qed.

Lemma indexOf_delete (c : nat) (l : list nat) (idx : nat) :
  NoDup l -> indexOf c l = Some idx -> c ∉ delete idx l.
Proof.
  intros Hnd Hidx. apply findIndex_Some in Hidx as (x & Hx & Hp).
  apply Nat.eqb_eq in Hp. subst x.
  rewrite delete_take_drop.
  rewrite <- (take_drop_middle _ _ _ Hx) in Hnd.
  apply NoDup_app in Hnd as (_ & Hdisj & Hnd).
  apply NoDup_cons in Hnd as (Hnotin & _).
  intros Hin. apply elem_of_app in Hin as [Hin|Hin]; [|done].
  apply (Hdisj c Hin). by apply elem_of_cons; left.
Qed.

Lemma indexOf_None (c : nat) (l : list nat) :
  indexOf c l = None -> c ∉ l.
Proof.
  intros H Hin. pose proof (findIndex_None _ _ H c Hin) as Hp.
  by rewrite Nat.eqb_refl in Hp.
Qed.

Lemma leaveFrame_leaving (w : World) (c : nat) (u : Customer) :
  objects w !! c = Some u -> state u = Leaving ->
  NoDup (customers (gameState w)) ->
  objects (leaveFrame w c) !! c
    = Some (with_position u (posX u) (posZ u + (1 # 10))) /\
  NoDup (customers (gameState (leaveFrame w c))) /\
  (12 <= posZ u + (1 # 10) -> c ∉ customers (gameState (leaveFrame w c))) /\
  (c ∉ customers (gameState w) ->
   c ∉ customers (gameState (leaveFrame w c))).
Proof.
  intros Hu Hs Hnd.
  assert (Hsub := leaveFrame_customers w c).
  split; [|split; [by eapply sublist_NoDup|split]].
  - unfold leaveFrame. rewrite Hu, Hs.
    destruct (Qlt_bool _ _); simpl; [by rewrite lookup_insert_eq|].
    destruct (indexOf c (customers (gameState w))); simpl;
      by rewrite lookup_insert_eq.
  - intros Hfar. unfold leaveFrame. rewrite Hu, Hs.
    destruct (Qlt_bool _ _) eqn:E.
    { apply Qlt_bool_iff in E. by apply Qlt_not_le in E. }
    simpl. destruct (indexOf c (customers (gameState w))) as [idx|] eqn:Hidx.
    + simpl. by apply indexOf_delete.
    + simpl. by apply indexOf_None.
  - intros Hout Hin. apply Hout. by eapply elem_of_sublist.
Qed.

Lemma leaving_frames (n : nat) (w : World) (c : nat) (u : Customer) :
  objects w !! c = Some u -> state u = Leaving ->
  NoDup (customers (gameState w)) ->
  c ∉ customers (gameState w) \/
  ((0 < n)%nat /\ 12 <= posZ u + inject_Z (Z.of_nat n) * (1 # 10)) ->
  c ∉ customers (gameState (run cfg w (replicate n (LeaveAnimation c)))).
Proof.
  revert w u. induction n as [|k IH]; intros w u Hu Hs Hnd Hcase.
  { destruct Hcase as [Hout|[Hk _]]; [done|lia]. }
  simpl.
  destruct (leaveFrame_leaving w c u Hu Hs Hnd) as (Hu1 & Hnd1 & Hfar & Hkeep).
  apply (IH _ _ Hu1); [done|done|].
  destruct Hcase as [Hout|[_ Hreach]]; [left; by apply Hkeep|].
  rewrite inject_succ in Hreach.
  destruct k as [|k'].
  - left. apply Hfar. change (inject_Z (Z.of_nat 0)) with 0 in Hreach. lra.
  - right. split; [lia|]. simpl posZ. lra.
Qed.

(** X19.  A customer that is leaving in a reachable state, at a z
    coordinate that is not negative, is out of [gameState.customers]
    after n animation frames as soon as z plus n times 0.1 reaches
    12.001.  The margin of 0.001 keeps the frame count clear of the
    rounding of the repeated additions, which the code performs in
    double precision and the model exactly: on the way from 0 to 12
    the two sums differ by far less. *)
Theorem leaving_customer_leaves_queue (n : nat) (w : World) (c : nat)
    (u : Customer) :
  reachable cfg w ->
  objects w !! c = Some u -> state u = Leaving ->
  0 <= posZ u -> (0 < n)%nat ->
  12 + (1 # 1000) <= posZ u + inject_Z (Z.of_nat n) * (1 # 10) ->
  c ∉ customers (gameState (run cfg w (replicate n (LeaveAnimation c)))).
Proof.
  intros Hw Hu Hs Hz Hn Hfar.
  destruct (reachable_queue w Hw) as (Hnd & _).
  apply (leaving_frames n w c u Hu Hs Hnd). right. split; [done|lra].
Qed.

(** ** The slot of a new customer *)

Lemma enterFrame_targetPos (w : World) (c : nat) (now : Z) :
  targetPos <$> objects (enterFrame w c now) !! c
    = targetPos <$> objects w !! c.
Proof.
  unfold enterFrame. destruct (objects w !! c) as [u|] eqn:Hu.
  - destruct (state u); try (by rewrite Hu).
    destruct (targetPos u) as [[tx tz]|] eqn:Ht; [|by rewrite Hu].
    destruct (Qlt_bool _ _); simpl.
    + rewrite lookup_insert_eq. simpl. by rewrite Ht.
    + destruct (definedItems (order u)); simpl;
        rewrite lookup_insert_eq; simpl; by rewrite Ht.
  - by rewrite Hu.
Qed.

Lemma indexOf_snoc (c : nat) (l : list nat) :
  c ∉ l -> indexOf c (l ++ [c]) = Some (length l).
Proof.
  unfold indexOf. induction l as [|x rest IH]; intros Hout; simpl.
  - by rewrite Nat.eqb_refl.
  - destruct (Nat.eqb c x) eqn:E.
    + apply Nat.eqb_eq in E. subst x. destruct Hout. by apply elem_of_cons; left.
    + rewrite IH; [done|]. intros Hin. apply Hout. by apply elem_of_cons; right.
Qed.

(** X20.  When [spawnCustomer] accepts a spawn in a reachable state,
    the new customer is sent to the slot of [QUEUE_POSITIONS] whose
    index is the number of customers queued before the spawn, modulo
    the number of slots, whichever slots the queued customers
    occupy. *)
Theorem new_customer_slot (w : World) (rType rDrink rChance rPastry : Q)
    (now : Z) (ty : string) :
  reachable cfg w ->
  (length (customers (gameState w)) < MAX_CUSTOMERS cfg)%nat ->
  pick rType (CUSTOMER_TYPES cfg) = Some ty ->
  exists u,
    objects (spawnCustomer cfg w rType rDrink rChance rPastry now)
      !! nextObject w = Some u /\
    customerType u = ty /\
    targetPos u
      = QUEUE_POSITIONS cfg
          !! (length (customers (gameState w))
              mod length (QUEUE_POSITIONS cfg))%nat.
Proof.
  intros Hw Hlen Hty.
  destruct (reachable_queue w Hw) as (_ & _ & Hlt).
  unfold spawnCustomer.
  destruct (_ <=? _)%nat eqn:E; [apply Nat.leb_le in E; lia|].
  rewrite Hty. unfold animateCustomerEnter.
  match goal with |- context [enterFrame ?w0 _ _] => set (w1 := w0) end.
  pose proof (enterFrame_targetPos w1 (nextObject w) now) as Htp.
  assert (Hold : exists u1, objects w1 !! nextObject w = Some u1 /\
            customerType u1 = ty /\
            targetPos u1
              = QUEUE_POSITIONS cfg
                  !! (length (customers (gameState w))
                      mod length (QUEUE_POSITIONS cfg))%nat).
  { subst w1. simpl. rewrite lookup_alter_eq, lookup_insert_eq. simpl.
    eexists. split; [done|]. split; [done|]. simpl.
    rewrite indexOf_snoc; [done|].
    intros Hin. specialize (Hlt _ Hin). lia. }
  destruct Hold as (u1 & Hu1 & Hty1 & Htp1).
  destruct (enterFrame_later w1 (nextObject w) (nextObject w) now u1 Hu1)
    as (u' & Hu' & _ & _ & Hty').
  exists u'. split; [done|]. split; [congruence|].
  rewrite Hu', Hu1 in Htp. simpl in Htp. injection Htp as Htp. congruence.
Qed.

(** ** A walk that outlives its session *)

(** X21.  Neither [quitToMenu] nor [startGame] stops a customer that
    is still walking: when its next frame finds it within 0.1 of its
    slot, it starts to wait and its order is registered in the new
    session, as the only active order, although the customer is not
    in [gameState.customers]. *)
Theorem walking_customer_outlives_session (w : World) (c : nat)
    (u : Customer) (tx tz : Q) (l : list MenuItem) (m : string) (now : Z) :
  objects w !! c = Some u -> state u = Entering ->
  targetPos u = Some (tx, tz) ->
  (tx - posX u) * (tx - posX u) + (tz - posZ u) * (tz - posZ u) <= 1 # 100 ->
  definedItems (order u) = Some l ->
  let w' := enterFrame (startGame cfg (quitToMenu w) m) c now in
  activeOrders (gameState w')
    = [{| customer := c; items := l; startTime := now |}] /\
  customers (gameState w') = [] /\
  state <$> objects w' !! c = Some Waiting.
Proof.
  intros Hu Hs Ht Hnear Hd. cbv zeta. unfold enterFrame. simpl.
  rewrite Hu, Hs, Ht.
  destruct (Qlt_bool _ _) eqn:E.
  { apply Qlt_bool_iff in E. by apply Qlt_not_le in E. }
  rewrite Hd. simpl. by rewrite lookup_insert_eq.
Qed.

End Machine.

(** * Properties of the asset loader *)

Lemma loadEntries_spec (entries : list (string * option string))
    (am : AssetManager) :
  let '(am', names, hasModelsToLoad) := loadEntries am entries in
  let wanted := filter (fun e => truthyPath e.2 = true) entries in
  names = (if loaderReady am then wanted.*1 else []) /\
  pendingLoads am' = (pendingLoads am + Z.of_nat (length names))%Z /\
  hasModelsToLoad = negb (bool_decide (wanted = [])) /\
  loaderReady am' = loaderReady am /\
  loadedModels am' = loadedModels am /\
  modelPaths am' = modelPaths am /\
  onLoadComplete am' = onLoadComplete am /\
  completions am' = completions am.
Proof.
  revert am. induction entries as [|[name path] rest IH]; intros am; simpl.
  { repeat split; try done. - by destruct (loaderReady am). - lia. }
  rewrite filter_cons. simpl.
  destruct (truthyPath path) eqn:Ht.
  2:{ rewrite decide_False by congruence. apply IH. }
  rewrite decide_True by done.
  unfold loadModel. rewrite Ht. simpl.
  destruct (loaderReady am) eqn:Hl; simpl.
  - match goal with |- context [loadEntries ?a rest] => specialize (IH a) end.
    destruct (loadEntries _ rest) as [[am2 names] b]. simpl in IH.
    destruct IH as (-> & Hp & _ & Hl2 & Hm & Hpaths & Hcb & Hc).
    repeat split; try done. rewrite Hp. simpl. lia.
  - specialize (IH am).
    destruct (loadEntries am rest) as [[am2 names] b].
    rewrite Hl in IH. destruct IH as (-> & Hp & _ & Hl2 & Hm & Hpaths & Hcb & Hc).
    repeat split; try done.
Qed.

(** X23.  [loadAllModels] issues one request for each entry of
    [modelPaths] with a non-empty path, in order, when the loader
    exists, and none when it does not; [pendingLoads] grows by the
    number of requests; and the immediate completion is scheduled
    only when there is a callback and no entry has a path.  So with a
    path configured and no loader, no request is in flight and no
    timer is set: the callback is never called. *)
Theorem loadAllModels_requests (am : AssetManager) (onComplete : bool) :
  let '(am', names, scheduled) := loadAllModels am onComplete in
  let wanted := filter (fun e => truthyPath e.2 = true) (modelPaths am) in
  names = (if loaderReady am then wanted.*1 else []) /\
  pendingLoads am' = (pendingLoads am + Z.of_nat (length names))%Z /\
  completions am' = completions am /\
  onLoadComplete am' = onComplete /\
  scheduled = bool_decide (wanted = []) && onComplete /\
  (loaderReady am = false -> wanted <> [] ->
   names = [] /\ scheduled = false /\ pendingLoads am' = pendingLoads am).
Proof.
  unfold loadAllModels. simpl.
  match goal with |- context [loadEntries ?a ?l] =>
    pose proof (loadEntries_spec l a) as H end.
  destruct (loadEntries _ _) as [[am' names] b]. simpl in H.
  destruct H as (Hn & Hp & Hb & _ & _ & _ & Hcb & Hc).
  repeat split; try done.
  - rewrite Hb. by rewrite negb_involutive.
  - by rewrite Hn, H.
  - rewrite Hb. rewrite bool_decide_eq_false_2 by done. done.
  - rewrite Hp, Hn, H. simpl. lia.
Qed.

(** X24.  When as many requests finish as [pendingLoads] counts, the
    counter ends at 0 and the stored completion callback is called
    exactly once if the last request to finish succeeds, and not at
    all if it fails, whatever the others did. *)
Theorem completion_needs_last_success (am : AssetManager)
    (results : list (string * option nat)) :
  onLoadComplete am = true ->
  pendingLoads am = Z.of_nat (length results) ->
  results <> [] ->
  pendingLoads (foldl finish am results) = 0%Z /\
  completions (foldl finish am results)
    = match last results with
      | Some (_, Some _) => S (completions am)
      | _ => completions am
      end.
Proof.
  revert am. induction results as [|[name result] rest IH];
    intros am Hcb Hp Hne; [done|].
  destruct rest as [|r2 rest'].
  - simpl in *. destruct result as [gltf|]; simpl.
    + rewrite Hp, Hcb. simpl. done.
    + rewrite Hp. done.
  - assert (Hlast : last ((name, result) :: r2 :: rest') = last (r2 :: rest'))
      by done.
    rewrite Hlast.
    change (foldl finish am ((name, result) :: r2 :: rest'))
      with (foldl finish (finish am (name, result)) (r2 :: rest')).
    assert (Hstep : onLoadComplete (finish am (name, result)) = true /\
              pendingLoads (finish am (name, result))
                = Z.of_nat (length (r2 :: rest')) /\
              completions (finish am (name, result)) = completions am).
    { destruct result as [gltf|]; simpl; rewrite Hp; simpl length.
      - replace (Z.of_nat (S (S (length rest'))) - 1 =? 0)%Z with false
          by (symmetry; apply Z.eqb_neq; lia).
        repeat split; try done. lia.
      - repeat split; try done. lia. }
    destruct Hstep as (Hcb' & Hp' & Hc').
    destruct (IH _ Hcb' Hp') as [H0 H1]; [done|].
    split; [done|]. rewrite H1, Hc'. done.
Qed.

(** * The properties on the sample configuration *)

Lemma world_at_counter_reachable : reachable sample_cfg world_at_counter.
Proof.
  apply run_reachable; [constructor|]. vm_compute. reflexivity.
Defined.

Lemma serveToCustomer_match_witness :
  (exists item, item ∈ items croissant_order /\ item_type item = "pastry") /\
  matchFound sample_cfg (Cup latte_contents 100) latte_order = true /\
  snd (serveToCustomer sample_cfg world_at_counter 0) = Served.
Proof.
  destruct (serveToCustomer_match sample_cfg croissant_order)
    as (Hpastry & _ & _ & Hserve).
  destruct (serveToCustomer_match sample_cfg latte_order)
    as (_ & Hcup & _ & _).
  split; [|split].
  - apply (Hpastry 100%Z). vm_compute. reflexivity.
  - apply Hcup.
    exists {| item_id := "latte"; item_name := "Latte";
              item_type := "drink"; basePrice := 6 |},
           [("espresso", true); ("milk", true)].
    split; [apply list_elem_of_singleton; reflexivity|].
    split; [reflexivity|]. split; [vm_compute; reflexivity|].
    intros ingredient Hin.
    apply elem_of_cons in Hin as [Hin|Hin].
    { injection Hin as ->. vm_compute. reflexivity. }
    apply list_elem_of_singleton in Hin. injection Hin as ->.
    vm_compute. reflexivity.
  - destruct (serveToCustomer_match sample_cfg
                {| customer := 0%nat;
                   items := [ {| item_id := "espresso";
                                 item_name := "Espresso";
                                 item_type := "drink"; basePrice := 5 |} ];
                   startTime := 2000 |})
      as (_ & _ & _ & Hthis).
    apply (Hthis world_at_counter 0%nat
             (Cup (<["espresso" := true]> emptyContents) 100) 0%nat);
      vm_compute; reflexivity.
Defined.

Lemma matchFound_monotonic_witness :
  matchFound sample_cfg (Cup latte_contents 100) latte_order = true /\
  matchFound sample_cfg (Cup (<["vanilla" := true]> latte_contents) 100)
    latte_order = true.
Proof.
  assert (H : matchFound sample_cfg (Cup latte_contents 100) latte_order
              = true) by (vm_compute; reflexivity).
  split; [exact H|].
  exact (proj1 (matchFound_monotonic sample_cfg latte_order latte_contents
                  100 "vanilla" H)).
Defined.

Lemma serveToCustomer_outcomes_witness :
  orders_consistent world_at_counter /\
  snd (serveToCustomer sample_cfg world_at_counter 0) = Served /\
  length (activeOrders
            (gameState (fst (serveToCustomer sample_cfg world_at_counter 0))))
    = 0%nat.
Proof.
  assert (Hc : orders_consistent world_at_counter).
  { exact (proj1 (reachable_consistent sample_cfg _
                    world_at_counter_reachable)). }
  split; [exact Hc|].
  destruct (serveToCustomer_outcomes sample_cfg world_at_counter 0 Hc)
    as [(Hout & held & i & o & u & _ & _ & _ & _ & _ & _ & _ & _ & Hlen & _)
       | (Hsame & _)].
  - split; [exact Hout|].
    assert (Hone : length (activeOrders (gameState world_at_counter))
                   = 1%nat) by (vm_compute; reflexivity).
    rewrite Hone in Hlen. exact (Nat.succ_inj _ _ Hlen).
  - exfalso.
    apply (f_equal (fun w => length (activeOrders (gameState w)))) in Hsame.
    vm_compute in Hsame. discriminate.
Defined.

(** C3 as stated fails: with water on the menu at price 0, the
    payment for an order of one water is 4, not the menu price. *)
Lemma zero_price_is_charged_four :
  ~ (forall w i o,
       activeOrders (gameState w) !! i = Some o ->
       orderPayment (gameState w) o
       == Qsum (listedPrice (gameState w) <$> items o)).
Proof.
  intros Hclaim.
  assert (Ho : activeOrders (gameState world_water) !! 0%nat
               = Some water_order) by (vm_compute; reflexivity).
  specialize (Hclaim world_water 0%nat water_order Ho).
  assert (Hpaid : orderPayment (gameState world_water) water_order == 4)
    by (vm_compute; reflexivity).
  assert (Hlisted : Qsum (listedPrice (gameState world_water)
                            <$> items water_order) == 0)
    by (vm_compute; reflexivity).
  rewrite Hpaid, Hlisted in Hclaim. discriminate Hclaim.
Qed.

Lemma completeOrder_accounting_witness :
  (orderPayment (gameState world_at_counter)
     {| customer := 0%nat;
        items := [ {| item_id := "espresso"; item_name := "Espresso";
                      item_type := "drink"; basePrice := 5 |} ];
        startTime := 2000 |} == 5 /\
   exists w',
     completeOrder world_at_counter 0 90 = Some w' /\
     money (gameState w') == 106 /\
     customersServed (gameState w') = 1%Z) /\
  (orderPayment (gameState world_water) water_order == 4 /\
   exists w',
     completeOrder world_water 0 100 = Some w' /\
     money (gameState w') == 105).
Proof.
  split.
  - set (o := {| customer := 0%nat;
                 items := [ {| item_id := "espresso";
                               item_name := "Espresso";
                               item_type := "drink"; basePrice := 5 |} ];
                 startTime := 2000 |}).
    assert (Hpay : orderPayment (gameState world_at_counter) o == 5)
      by (vm_compute; reflexivity).
    split; [exact Hpay|].
    assert (Ho : activeOrders (gameState world_at_counter) !! 0%nat = Some o)
      by (vm_compute; reflexivity).
    destruct (completeOrder_accounting world_at_counter 0 o 90 Ho)
      as (w' & Hw' & _ & _ & _ & _ & _ & Hmoney & Hserved & _ & Hfive).
    exists w'. split; [exact Hw'|].
    destruct (Hfive Hpay eq_refl) as [Htip Htotal].
    split.
    + rewrite Hmoney. rewrite Htip.
      assert (Hm : money (gameState world_at_counter) == 100)
        by (vm_compute; reflexivity).
      rewrite Hm, Hpay. reflexivity.
    + rewrite Hserved. vm_compute. reflexivity.
  - assert (Ho : activeOrders (gameState world_water) !! 0%nat
                 = Some water_order) by (vm_compute; reflexivity).
    destruct (completeOrder_accounting world_water 0 water_order 100 Ho)
      as (w' & Hw' & Hpay & _ & _ & _ & _ & Hmoney & _).
    assert (Hfour : Qsum (chargedPrice (gameState world_water)
                            <$> items water_order) == 4)
      by (vm_compute; reflexivity).
    rewrite Hfour in Hpay. split; [exact Hpay|].
    exists w'. split; [exact Hw'|].
    assert (Htip : orderTip
                     (orderPayment (gameState world_water) water_order) 100
                   = 1%Z) by (vm_compute; reflexivity).
    assert (Hm : money (gameState world_water) == 100)
      by (vm_compute; reflexivity).
    rewrite Hmoney, Htip, Hm, Hpay. reflexivity.
Defined.

(** C4, at the input where the code departs from it.  The player
    takes a cup and pulls an espresso with the marker far from the
    target: the mini-game scores quality 10, yet the cup still carries
    quality 100, and serving it completes the order with the tip and
    the rating of quality 100 (money 100 + 5 + 1, rating still 5)
    where quality 10 would give tip 0 and rating 4.9. *)
Theorem cup_quality_ignores_mini_game :
  mg_quality (miniGameState world_at_counter) = 10%Z /\
  grabbedObject (physicsState world_at_counter)
    = Some (Cup (<["espresso" := true]> emptyContents) 100) /\
  heldQuality (Cup (<["espresso" := true]> emptyContents) 100) = 100%Z /\
  snd (serveToCustomer sample_cfg world_at_counter 0) = Served /\
  money (gameState (fst (serveToCustomer sample_cfg world_at_counter 0)))
    == 106 /\
  rating (gameState (fst (serveToCustomer sample_cfg world_at_counter 0)))
    == 5 /\
  orderTip 5 10 = 0%Z /\
  clamp (5 + ratingChange 10) 1 5 == 49 # 10.
Proof.
  split; [vm_compute; reflexivity|].
  split; [vm_compute; reflexivity|].
  split; [vm_compute; reflexivity|].
  split; [vm_compute; reflexivity|].
  split; [vm_compute; reflexivity|].
  split; [vm_compute; reflexivity|].
  split; vm_compute; reflexivity.
Qed.

(** C5 as stated fails: right after [spawnCustomer] the customer is
    entering and already carries the order the generator produced. *)
Lemma entering_customer_has_order_content :
  ~ (forall w, reachable sample_cfg w ->
       forall c u, objects w !! c = Some u -> state u = Entering ->
       order u = []).
Proof.
  intros Hclaim.
  assert (Hr : reachable sample_cfg
                 (run sample_cfg (init sample_cfg) customer_spawned)).
  { apply run_reachable; [constructor|]. vm_compute. reflexivity. }
  assert (Hu : exists u,
             objects (run sample_cfg (init sample_cfg) customer_spawned)
               !! 0%nat = Some u /\
             state u = Entering /\ order u <> []).
  { eexists. split; [vm_compute; reflexivity|]. split; [reflexivity|].
    discriminate. }
  destruct Hu as (u & Hu & Hs & Hne).
  exact (Hne (Hclaim _ Hr 0%nat u Hu Hs)).
Qed.

Lemma order_generated_at_spawn_registered_on_arrival_witness :
  (exists u,
     objects (spawnCustomer sample_cfg world_with_cup 0 0 (1 # 2) 0 1000)
       !! nextObject world_with_cup = Some u /\
     order u = generateOrder sample_cfg 0 (1 # 2) 0) /\
  activeOrders (gameState (enterFrame world_arriving 0 2000))
    = [{| customer := 0%nat;
          items := [ {| item_id := "espresso"; item_name := "Espresso";
                        item_type := "drink"; basePrice := 5 |} ];
          startTime := 2000 |}] /\
  (length (activeOrders (gameState world_second)) = 1%nat /\
   forall o, o ∈ activeOrders (gameState world_second) ->
     customer o <> 1%nat).
Proof.
  destruct (order_generated_at_spawn_registered_on_arrival sample_cfg)
    as (Hspawn & Harrive & _ & Hinv).
  split; [|split].
  - destruct (Hspawn world_with_cup 0 0 (1 # 2) 0 1000%Z "student")
      as (u & Hu & Hord & _).
    + vm_compute. lia.
    + vm_compute. reflexivity.
    + exact (ex_intro _ u (conj Hu Hord)).
  - assert (Hu : exists u,
              objects world_arriving !! 0%nat = Some u /\
              state u = Entering /\
              definedItems (order u)
              = Some [ {| item_id := "espresso"; item_name := "Espresso";
                          item_type := "drink"; basePrice := 5 |} ]).
    { eexists. split; [vm_compute; reflexivity|]. split; reflexivity. }
    destruct Hu as (u & Hu & Hs & Hd).
    assert (Hnow : state <$> objects (enterFrame world_arriving 0 2000)
                               !! 0%nat = Some Waiting)
      by (vm_compute; reflexivity).
    assert (Hnone : activeOrders (gameState world_arriving) = [])
      by (vm_compute; reflexivity).
    destruct (Harrive world_arriving 0%nat 2000%Z u Hu Hs)
      as [[Hstill _]|[_ Hadd]].
    + exfalso. pose proof (eq_trans (eq_sym Hstill) Hnow) as Habs.
      discriminate Habs.
    + rewrite Hadd. rewrite Hd. rewrite Hnone. reflexivity.
  - split; [vm_compute; reflexivity|].
    assert (Hr : reachable sample_cfg world_second).
    { apply run_reachable; [constructor|]. vm_compute. reflexivity. }
    apply (Hinv world_second Hr 1%nat
             {| customerType := "student"; state := Entering;
                order := generateOrder sample_cfg 0 (1 # 2) 0;
                posX := 0; posZ := 207 # 25; targetPos := Some (0, 0) |}).
    + vm_compute. reflexivity.
    + reflexivity.
Defined.



(** C7 as stated fails: after one tap and 34 ticks the counter is
    at -0.02. *)
Lemma tap_counter_goes_below_zero :
  ~ (forall w, reachable sample_cfg w ->
       0 <= tapProgress (miniGameState w)).
Proof.
  intros Hclaim.
  assert (Hr : reachable sample_cfg
                 (run sample_cfg (init sample_cfg) one_tap_then_wait)).
  { apply run_reachable; [constructor|]. vm_compute. reflexivity. }
  specialize (Hclaim _ Hr).
  assert (Hneg : tapProgress
                   (miniGameState
                      (run sample_cfg (init sample_cfg) one_tap_then_wait))
                 == - (2 # 100)) by (vm_compute; reflexivity).
  lra.
Qed.

Lemma tap_game_counter_witness :
  reachable sample_cfg (run sample_cfg (init sample_cfg) one_tap_then_wait) /\
  - (3 # 100)
    < tapProgress
        (miniGameState (run sample_cfg (init sample_cfg) one_tap_then_wait)).
Proof.
  assert (Hr : reachable sample_cfg
                 (run sample_cfg (init sample_cfg) one_tap_then_wait)).
  { apply run_reachable; [constructor|]. vm_compute. reflexivity. }
  split; [exact Hr|].
  destruct (tap_game_counter sample_cfg) as (_ & _ & _ & Hinv).
  exact (proj1 (Hinv _ Hr)).
Defined.

Lemma buyUpgrade_money_never_negative_witness :
  let w := buyUpgrade (buyUpgrade (init sample_cfg) grinder) grinder in
  0 <= money (gameState w) /\
  buyUpgrade w grinder = w /\
  0 <= money (gameState (foldl buyUpgrade w [grinder; grinder])).
Proof.
  cbv zeta.
  set (w := buyUpgrade (buyUpgrade (init sample_cfg) grinder) grinder).
  assert (Hw : 0 <= money (gameState w)) by (vm_compute; discriminate).
  assert (Hus : Forall (fun u => forall f w1, effect u = Some f ->
                          0 <= money (gameState w1) ->
                          0 <= money (gameState (f w1)))
                  [grinder; grinder]).
  { repeat constructor; intros f w1 Hf; discriminate Hf. }
  destruct buyUpgrade_money_never_negative as [Hreject Hmoney].
  split; [exact Hw|]. split; [|exact (Hmoney [grinder; grinder] w Hw Hus)].
  apply Hreject. vm_compute. reflexivity.
Defined.

Lemma buyUpgrade_owned_again_witness :
  ownedUpgrades (gameState (buyUpgrade (init sample_cfg) grinder))
    = Some ["grinder"] /\
  ownedUpgrades
    (gameState (buyUpgrade (buyUpgrade (init sample_cfg) grinder) grinder))
    = Some ["grinder"; "grinder"] /\
  money
    (gameState (buyUpgrade (buyUpgrade (init sample_cfg) grinder) grinder))
    == 20.
Proof.
  set (w := buyUpgrade (init sample_cfg) grinder).
  assert (Hown : ownedUpgrades (gameState w) = Some ["grinder"])
    by (vm_compute; reflexivity).
  split; [exact Hown|].
  assert (Hin : upgrade_id grinder ∈ ["grinder"])
    by (apply list_elem_of_singleton; reflexivity).
  assert (Hle : price grinder <= money (gameState w))
    by (vm_compute; discriminate).
  destruct (buyUpgrade_owned_again w grinder ["grinder"] Hown Hin Hle)
    as (w1 & Hb & Hm & Ho & _).
  change (buyUpgrade w grinder = w1) in Hb. rewrite Hb.
  split; [exact Ho|]. rewrite Hm. vm_compute. reflexivity.
Defined.

(** * The further properties on the sample configuration *)

Lemma world_spawned_reachable : reachable sample_cfg world_spawned.
Proof. apply run_reachable; [constructor|]. vm_compute. reflexivity. Defined.

Lemma world_frothing_reachable : reachable sample_cfg world_frothing.
Proof. apply run_reachable; [constructor|]. vm_compute. reflexivity. Defined.

Lemma world_with_cup_reachable : reachable sample_cfg world_with_cup.
Proof. apply run_reachable; [constructor|]. vm_compute. reflexivity. Defined.

Lemma world_pulling_reachable : reachable sample_cfg world_pulling.
Proof. apply run_reachable; [constructor|]. vm_compute. reflexivity. Defined.

Lemma world_served_reachable : reachable sample_cfg world_served.
Proof. apply run_reachable; [constructor|]. vm_compute. reflexivity. Defined.

Lemma generateOrder_well_formed_witness :
  exists d, generateOrder sample_cfg 0 (1 # 2) 0 = [Some d]
            /\ item_type d = "drink".
Proof.
  destruct (generateOrder_well_formed sample_cfg 0 (1 # 2) 0)
    as (d & _ & Hty & [[_ Hone]|[Hlow _]]).
  - discriminate.
  - reflexivity.
  - discriminate.
  - reflexivity.
  - eexists. split; [apply list_elem_of_here|reflexivity].
  - eexists. split; [do 2 apply list_elem_of_further; apply list_elem_of_here
                    |reflexivity].
  - by exists d.
  - exfalso. revert Hlow. vm_compute. intros H. discriminate H.
Defined.

Lemma order_without_drink_never_registered_witness :
  activeOrders
    (gameState
       (enterFrame
          (run pastry_only_cfg (init pastry_only_cfg) customer_spawned)
          0 2000))
  = activeOrders
      (gameState
         (run pastry_only_cfg (init pastry_only_cfg) customer_spawned)).
Proof.
  eapply (order_without_drink_never_registered pastry_only_cfg 0 (1 # 2) 0).
  - intros i Hi. apply list_elem_of_singleton in Hi. subst i. discriminate.
  - vm_compute. reflexivity.
  - vm_compute. reflexivity.
Defined.

Lemma queue_within_cap_witness :
  (length (customers (gameState world_at_counter)) <= 4)%nat.
Proof.
  exact (proj1 (proj2 (queue_within_cap sample_cfg world_at_counter
                         world_at_counter_reachable))).
Defined.

Lemma customer_never_moves_back_witness :
  exists u',
    objects
      (run sample_cfg world_at_counter
         [KeyE (Some (CustomerObject 0)) 0 6000; EnterAnimation 0 7000;
          LeaveAnimation 0; Frame]) !! 0%nat = Some u' /\
    (state_rank Waiting <= state_rank (state u'))%nat /\
    order u' = generateOrder sample_cfg 0 (1 # 2) 0 /\
    customerType u' = "student".
Proof.
  assert (Hu : exists u,
            objects world_at_counter !! 0%nat = Some u /\
            state u = Waiting /\
            order u = generateOrder sample_cfg 0 (1 # 2) 0 /\
            customerType u = "student").
  { eexists. split; [vm_compute; reflexivity|].
    split; [reflexivity|]. split; [vm_compute; reflexivity|reflexivity]. }
  destruct Hu as (u & Hu & Hs & Ho & Ht).
  destruct (customer_never_moves_back sample_cfg world_at_counter
              [KeyE (Some (CustomerObject 0)) 0 6000; EnterAnimation 0 7000;
               LeaveAnimation 0; Frame] 0 u
              world_at_counter_reachable Hu)
    as (u' & Hu' & Hrank & Hord & Hty).
  exists u'. split; [exact Hu'|].
  split; [exact (eq_ind _ (fun st => (state_rank st <= _)%nat) Hrank _ Hs)|].
  split; [exact (eq_trans Hord Ho)|exact (eq_trans Hty Ht)].
Defined.

Lemma active_orders_belong_to_waiting_customers_witness :
  NoDup (customer <$> activeOrders (gameState world_at_counter)).
Proof.
  exact (proj1 (active_orders_belong_to_waiting_customers sample_cfg
                  world_at_counter world_at_counter_reachable)).
Defined.

Lemma waiting_customer_has_active_order_witness :
  exists i o,
    findOrderIndex sample_cfg world_at_counter 0 = Some i /\
    activeOrders (gameState world_at_counter) !! i = Some o /\
    customer o = 0%nat.
Proof.
  assert (Hu : exists u l,
            objects world_at_counter !! 0%nat = Some u /\
            state u = Waiting /\ definedItems (order u) = Some l).
  { eexists _, _. split; [vm_compute; reflexivity|].
    split; reflexivity. }
  destruct Hu as (u & l & Hu & Hs & Hd).
  assert (Hin : 0%nat ∈ customers (gameState world_at_counter)).
  { assert (Hc : customers (gameState world_at_counter) = [0%nat])
      by (vm_compute; reflexivity).
    exact (eq_ind_r (fun l => 0%nat ∈ l) (list_elem_of_here 0%nat []) Hc). }
  destruct (waiting_customer_has_active_order sample_cfg world_at_counter
              0 u l world_at_counter_reachable Hin Hu Hs Hd)
    as (i & o & Hi & Ho & Hc & _).
  exact (ex_intro _ i (ex_intro _ o (conj Hi (conj Ho Hc)))).
Defined.

Lemma open_game_holds_cup_witness :
  active (miniGameState world_frothing) = true /\
  callback (miniGameState world_frothing) = Some "milk".
Proof.
  assert (Ha : active (miniGameState world_frothing) = true)
    by (vm_compute; reflexivity).
  split; [exact Ha|].
  destruct (open_game_holds_cup sample_cfg world_frothing
              world_frothing_reachable) as [_ Hgame].
  destruct (Hgame Ha) as [_ [[Ht _]|[_ Hcb]]]; [|exact Hcb].
  exfalso. revert Ht. vm_compute. discriminate.
Defined.

Lemma finished_game_fills_cup_witness :
  exists contents q,
    grabbedObject (physicsState (handleMiniGameInput world_pulling 5000))
      = Some (Cup contents q) /\
    contents !! "espresso" = Some true.
Proof.
  assert (Ha : active (miniGameState world_pulling) = true)
    by (vm_compute; reflexivity).
  assert (Hend : active (miniGameState (handleMiniGameInput world_pulling 5000))
                 = false) by (vm_compute; reflexivity).
  destruct (finished_game_fills_cup sample_cfg world_pulling 5000
              world_pulling_reachable Ha Hend)
    as (contents & q & Hheld & [[_ Hflag]|[Ht _]]).
  - by exists contents, q.
  - exfalso. revert Ht. vm_compute. discriminate.
Defined.

Lemma marker_stays_near_bar_witness :
  markerPos (miniGameState world_pulling) < 100 + (12 # 10).
Proof.
  destruct (marker_stays_near_bar sample_cfg world_pulling
              world_pulling_reachable) as [(_ & _ & H)|(_ & _ & H)].
  - eapply Qlt_trans; [exact H|reflexivity].
  - exact H.
Defined.

Lemma rating_stays_five_witness :
  rating (gameState world_served) = 5.
Proof.
  exact (proj1 (rating_stays_five sample_cfg world_served
                  world_served_reachable)).
Defined.

Lemma sample_prices_nonnegative (id : string) (p : Q) :
  menuPrices (gameState world_at_counter) !! id = Some p -> 0 <= p.
Proof.
  intros Hp.
  assert (Hall : map_Forall (fun _ q => Qle_bool 0 q = true)
                   (menuPrices (gameState world_at_counter))).
  { apply map_Forall_to_list. vm_compute. repeat constructor. }
  specialize (Hall id p Hp). by apply Qle_bool_iff.
Defined.

Lemma serving_never_lowers_money_witness :
  money (gameState world_at_counter)
    <= money (gameState (fst (serveToCustomer sample_cfg world_at_counter 0))).
Proof.
  exact (proj1 (serving_never_lowers_money sample_cfg world_at_counter 0
                  sample_prices_nonnegative)).
Defined.

Lemma serveToCustomer_never_throws_witness :
  findOrderIndex sample_cfg world_at_counter 0 = Some 0%nat /\
  (0 < length (activeOrders (gameState world_at_counter)))%nat.
Proof.
  assert (Hi : findOrderIndex sample_cfg world_at_counter 0 = Some 0%nat)
    by (vm_compute; reflexivity).
  split; [exact Hi|].
  destruct (serveToCustomer_never_throws sample_cfg world_at_counter 0)
    as [_ Hidx].
  exact (proj1 (Hidx 0%nat Hi)).
Defined.

Lemma tap_game_needs_twelve_presses_witness :
  active
    (miniGameState
       (run sample_cfg (startMiniGame world_with_cup Tap "milk" 0 2000)
          [KeyE None 0 2100; Frame; KeyE None 0 2200])) = true.
Proof.
  refine (proj1 (tap_game_needs_twelve_presses sample_cfg world_with_cup
                   "milk" 0 2000 [KeyE None 0 2100; Frame; KeyE None 0 2200]
                   world_with_cup_reachable _ _)).
  - repeat (constructor; [intros shopOpen H; discriminate H|]). constructor.
  - vm_compute. lia.
Defined.

Lemma twelve_presses_froth_the_milk_witness :
  grabbedObject
    (physicsState
       (run sample_cfg world_with_cup
          (KeyE (Some Milk) 0 2000 :: replicate 12 (KeyE None 0 3000))))
  = Some (Cup (<["milk" := true]> emptyContents) 100).
Proof.
  refine (proj2 (twelve_presses_froth_the_milk sample_cfg world_with_cup
                   emptyContents 100 0 2000 (replicate 12 (KeyE None 0 3000))
                   world_with_cup_reachable _ _ _ _ _)).
  - vm_compute. reflexivity.
  - vm_compute. reflexivity.
  - vm_compute. reflexivity.
  - apply Forall_replicate. exists None, 0, 3000%Z. reflexivity.
  - reflexivity.
Defined.

Lemma prompt_and_key_witness :
  checkInteractionPrompt world_with_cup (Some Trash) = Some PromptTrashItem /\
  tryInteract sample_cfg world_with_cup (Some Trash) 0 2000
  = with_physicsState world_with_cup
      {| grabbedObject := None; isGrabbing := false |}.
Proof.
  assert (Hp : checkInteractionPrompt world_with_cup (Some Trash)
               = Some PromptTrashItem) by (vm_compute; reflexivity).
  assert (Ha : active (miniGameState world_with_cup) = false)
    by (vm_compute; reflexivity).
  split; [exact Hp|].
  pose proof (prompt_and_key sample_cfg world_with_cup (Some Trash) 0 2000
                world_with_cup_reachable Ha) as H.
  cbv zeta in H. rewrite Hp in H. exact H.
Defined.

Lemma shop_never_sells_twice_witness :
  NoDup
    (match ownedUpgrades
             (gameState
                (foldl shopItemClick (init sample_cfg) [grinder; grinder]))
     with
     | Some l => l
     | None => []
     end).
Proof.
  refine (proj2 (shop_never_sells_twice [grinder; grinder] (init sample_cfg)
                   _ _)).
  - repeat (constructor; [intros f w1 H; discriminate H|]). constructor.
  - vm_compute. constructor.
Defined.

Lemma spawnCustomerLoop_is_spawnCustomer_witness :
  (spawnCustomerLoop sample_cfg world_with_cup 0 0 (1 # 2) 0 1000
   = spawnCustomer sample_cfg world_with_cup 0 0 (1 # 2) 0 1000 /\
   length
     (customers
        (gameState
           (spawnCustomerLoop sample_cfg world_with_cup 0 0 (1 # 2) 0 1000)))
   = 1%nat /\
   reachable sample_cfg
     (spawnCustomerLoop sample_cfg world_with_cup 0 0 (1 # 2) 0 1000)) /\
  (length (customers (gameState world_full)) = MAX_CUSTOMERS sample_cfg /\
   spawnCustomerLoop sample_cfg world_full 0 0 (1 # 2) 0 25000
   = spawnCustomer sample_cfg world_full 0 0 (1 # 2) 0 25000).
Proof.
  split.
  - destruct (spawnCustomerLoop_is_spawnCustomer sample_cfg world_with_cup
                0 0 (1 # 2) 0 1000) as (_ & Hrun & Hreach).
    split; [apply Hrun; vm_compute; reflexivity|].
    split; [vm_compute; reflexivity|].
    apply Hreach; [exact world_with_cup_reachable|].
    vm_compute. reflexivity.
  - split; [vm_compute; reflexivity|].
    apply (proj1 (proj2 (spawnCustomerLoop_is_spawnCustomer sample_cfg
                           world_full 0 0 (1 # 2) 0 25000)));
      vm_compute; reflexivity.
Defined.

Lemma leaving_customer_leaves_queue_witness :
  0%nat ∉ customers
            (gameState
               (run sample_cfg world_served
                  (replicate 120 (LeaveAnimation 0)))).
Proof.
  assert (Hu : exists u,
            objects world_served !! 0%nat = Some u /\ state u = Leaving /\
            Qle_bool 0 (posZ u) = true /\
            Qle_bool (12 + (1 # 1000))
              (posZ u + inject_Z (Z.of_nat 120) * (1 # 10)) = true).
  { eexists. split; [vm_compute; reflexivity|].
    split; [reflexivity|]. split; vm_compute; reflexivity. }
  destruct Hu as (u & Hu & Hs & Hz0 & Hz).
  apply Qle_bool_iff in Hz0. apply Qle_bool_iff in Hz.
  refine (leaving_customer_leaves_queue sample_cfg 120 world_served 0 u
            world_served_reachable Hu Hs Hz0 _ Hz).
  lia.
Defined.

Lemma new_customer_slot_witness :
  exists u,
    objects (spawnCustomer sample_cfg world_with_cup 0 0 (1 # 2) 0 1000)
      !! nextObject world_with_cup = Some u /\
    customerType u = "student" /\
    targetPos u
      = QUEUE_POSITIONS sample_cfg
          !! (length (customers (gameState world_with_cup))
              mod length (QUEUE_POSITIONS sample_cfg))%nat.
Proof.
  refine (new_customer_slot sample_cfg world_with_cup 0 0 (1 # 2) 0 1000
            "student" world_with_cup_reachable _ _).
  - vm_compute. lia.
  - vm_compute. reflexivity.
Defined.

Lemma walking_customer_outlives_session_witness :
  customers
    (gameState
       (enterFrame
          (startGame sample_cfg (quitToMenu world_arriving) "normal") 0 3000))
  = [] /\
  length
    (activeOrders
       (gameState
          (enterFrame
             (startGame sample_cfg (quitToMenu world_arriving) "normal")
             0 3000))) = 1%nat.
Proof.
  assert (Hu : exists u l,
            objects world_arriving !! 0%nat = Some u /\ state u = Entering /\
            targetPos u = Some (0, 0) /\
            Qle_bool ((0 - posX u) * (0 - posX u)
                      + (0 - posZ u) * (0 - posZ u)) (1 # 100) = true /\
            definedItems (order u) = Some l).
  { eexists _, _. split; [vm_compute; reflexivity|].
    split; [reflexivity|]. split; [reflexivity|].
    split; [vm_compute; reflexivity|reflexivity]. }
  destruct Hu as (u & l & Hu & Hs & Ht & Hd & Hl).
  apply Qle_bool_iff in Hd.
  destruct (walking_customer_outlives_session sample_cfg world_arriving 0 u
              0 0 l "normal" 3000 Hu Hs Ht Hd Hl) as (Ho & Hc & _).
  split; [exact Hc|].
  exact (f_equal length Ho).
Defined.

Lemma loadAllModels_requests_witness :
  (loadAllModels sample_assets true).1.2 = [] /\
  (loadAllModels sample_assets true).2 = false.
Proof.
  pose proof (loadAllModels_requests sample_assets true) as H.
  destruct (loadAllModels sample_assets true) as [[am' names] scheduled].
  destruct H as (_ & _ & _ & _ & _ & H).
  destruct H as (Hn & Hs & _).
  - reflexivity.
  - intros Hw. vm_compute in Hw. discriminate Hw.
  - split; [exact Hn|exact Hs].
Defined.

Lemma completion_needs_last_success_witness :
  completions
    (foldl finish sample_loading [("chair", None); ("table", Some 1%nat)])
  = 1%nat.
Proof.
  refine (proj2 (completion_needs_last_success sample_loading
                   [("chair", None); ("table", Some 1%nat)] _ _ _)).
  - reflexivity.
  - reflexivity.
  - discriminate.
Defined.
